(** * cassandra-dtest: the rolling-upgrade orchestrator and its helpers

    A shallow embedding of the parts of
    [upgrade_through_versions_test.py], [commitlog_test.py] and
    [pushed_notifications_test.py] that carry logic of their own:
    version strings and their ordering, the subprocess and queue
    bookkeeping of the upgrade test, the polling loop, the node-by-node
    upgrade schedule, the commitlog permission and CRC tampering helpers,
    and the notification filter.

    Conventions.
    - Python [int] is [Z]; Python 2 [str] is [string] (a byte string).
    - A call that may raise returns a [result]; the state reached when
      the exception left the function is returned next to it, because
      the effects performed before a [raise] stay performed.
    - Calls into ccm, the driver, psutil, the clock and the file system
      are steps on an explicit world; what the outside world answers
      (queue sizes, when a subprocess exits, whether a kill succeeds) is
      an argument of the model, given as a function of time.
    - [debug(...)] only logs and is left out. *)

From Stdlib Require Import ZArith String Ascii List Lia Bool DecimalString.
From Stdlib.Strings Require Import Byte.
From stdpp Require Import gmap strings list.

Import ListNotations.
Local Open Scope Z_scope.

(** ** Exceptions and results *)

Inductive exn : Type :=
| RuntimeError (message : string)
| UnboundLocalError (variable : string)
| KeyError (key : string)
| OSError (path : string)
| StructError
| PsutilError (pid : nat).

Inductive result (A : Type) : Type :=
| Ok (a : A)
| Raise (e : exn).

Arguments Ok {A} a.
Arguments Raise {A} e.

Definition is_ok {A} (r : result A) : bool :=
  match r with Ok _ => true | Raise _ => false end.

(** ** Python string primitives *)

Module PyStr.

Definition dash : ascii := "-"%char.
Definition dot : ascii := "."%char.

(** [c in s] for a one-character [c]. *)
Fixpoint has_char (c : ascii) (s : string) : bool :=
  match s with
  | EmptyString => false
  | String a s' => if Ascii.eqb a c then true else has_char c s'
  end.

(** [s.find(c)] for a one-character [c]: the first index, or -1. *)
Fixpoint find (c : ascii) (s : string) : Z :=
  match s with
  | EmptyString => -1
  | String a s' =>
      if Ascii.eqb a c then 0
      else let r := find c s' in if r <? 0 then -1 else r + 1
  end.

(** [s.split(c)] for a one-character separator [c]. *)
Fixpoint split (c : ascii) (s : string) : list string :=
  match s with
  | EmptyString => [EmptyString]
  | String a s' =>
      if Ascii.eqb a c then EmptyString :: split c s'
      else match split c s' with
           | [] => [String a EmptyString]
           | piece :: rest => String a piece :: rest
           end
  end.

(** [sub in s]: [sub] occurs in [s] as a contiguous substring. *)
Fixpoint contains (sub s : string) : bool :=
  String.prefix sub s ||
  match s with
  | EmptyString => false
  | String _ s' => contains sub s'
  end.

(** ['{}'.format(n)] for an int [n]. *)
Definition of_int (n : Z) : string := NilZero.string_of_int (Z.to_int n).

(** ['{}'.format(b)] for a bool [b]. *)
Definition of_bool (b : bool) : string := if b then "True" else "False".

(** [int(s)] for a string of decimal digits. *)
Definition digit_value (c : ascii) : Z := Z.of_N (N_of_ascii c) - 48.

Fixpoint int_of_digits_from (acc : Z) (s : string) : Z :=
  match s with
  | EmptyString => acc
  | String c s' => int_of_digits_from (10 * acc + digit_value c) s'
  end.

Definition int_of_digits (s : string) : Z := int_of_digits_from 0 s.

(** [cmp(a, b)] on byte strings. *)
Definition cmp (a b : string) : Z :=
  match String.compare a b with
  | Lt => -1
  | Eq => 0
  | Gt => 1
  end.

End PyStr.

(** ** [distutils.version.LooseVersion] *)

Module Loose.

(** A parsed component is an int (a run of digits) or a string. *)
Inductive component : Type :=
| CInt (n : Z)
| CStr (s : string).

Record LooseVersion : Type := mkLooseVersion {
  vstring : string;
  version : list component
}.

(** The alternatives of [component_re = (\d+ | [a-z]+ | \.)]; a
    character matched by none of them belongs to the text between two
    matches, which [re.split] returns as well. *)
Inductive cclass : Type := Digit | Lower | Dot | Other.

Definition classify (c : ascii) : cclass :=
  let n := N_of_ascii c in
  if ((48 <=? n) && (n <=? 57))%N then Digit
  else if ((97 <=? n) && (n <=? 122))%N then Lower
  else if Ascii.eqb c PyStr.dot then Dot
  else Other.

Definition cclass_eqb (a b : cclass) : bool :=
  match a, b with
  | Digit, Digit | Lower, Lower | Dot, Dot | Other, Other => true
  | _, _ => false
  end.

(** [filter(lambda x: x and x != '.', ...)] followed by the [int(obj)]
    attempt: empty pieces and dots go, digit runs become ints. *)
Definition flush (k : cclass) (cur : string) : list component :=
  match cur with
  | EmptyString => []
  | _ => match k with
         | Digit => [CInt (PyStr.int_of_digits cur)]
         | Dot => []
         | _ => [CStr cur]
         end
  end.

(** [component_re.split(vstring)], scanning left to right; [cur] is
    the run being read and [k] its class. *)
Fixpoint scan (k : cclass) (cur : string) (s : string) : list component :=
  match s with
  | EmptyString => flush k cur
  | String c s' =>
      let k' := classify c in
      match k' with
      | Dot => flush k cur ++ scan Dot EmptyString s'
      | _ =>
          if cclass_eqb k k'
          then scan k (cur +:+ String c EmptyString) s'
          else flush k cur ++ scan k' (String c EmptyString) s'
      end
  end.

Definition parse (vstring : string) : list component :=
  scan Dot EmptyString vstring.

(** [LooseVersion(vstring)]. *)
Definition new (vstring : string) : LooseVersion :=
  mkLooseVersion vstring (parse vstring).

(** Python 2 [cmp] on two components: ints numerically, strings
    bytewise, and an int below every string. *)
Definition cmp_component (a b : component) : Z :=
  match a, b with
  | CInt x, CInt y => match x ?= y with Lt => -1 | Eq => 0 | Gt => 1 end
  | CStr x, CStr y => PyStr.cmp x y
  | CInt _, CStr _ => -1
  | CStr _, CInt _ => 1
  end.

(** Python 2 [cmp] on two lists: the first unequal pair decides,
    otherwise the lengths. *)
Fixpoint cmp_list (a b : list component) : Z :=
  match a, b with
  | [], [] => 0
  | [], _ :: _ => -1
  | _ :: _, [] => 1
  | x :: a', y :: b' =>
      let c := cmp_component x y in
      if c =? 0 then cmp_list a' b' else c
  end.

(** [LooseVersion.__cmp__(self, other)] for a [LooseVersion] [other]. *)
Definition cmp (a b : LooseVersion) : Z := cmp_list (version a) (version b).

(** [LooseVersion.__cmp__(self, other)] for a string [other]:
    [other = LooseVersion(other)] first. *)
Definition cmp_str (a : LooseVersion) (other : string) : Z := cmp a (new other).

End Loose.

(** ** Version tuples, branch names and git tags *)

Module Versions.
Import Loose.

(** [TRUNK_VER = (3, 2)] *)
Definition TRUNK_VER : Z * Z := (3, 2).

Definition tuple_eqb (a b : Z * Z) : bool :=
  (fst a =? fst b) && (snd a =? snd b).

(** ['{}.{}'.format(_tuple[0], _tuple[1])] *)
Definition make_ver_str (_tuple : Z * Z) : string :=
  PyStr.of_int (fst _tuple) +:+ "." +:+ PyStr.of_int (snd _tuple).

Definition make_branch_str (_tuple : Z * Z) : string :=
  if tuple_eqb _tuple TRUNK_VER then "trunk"
  else "cassandra-" +:+ PyStr.of_int (fst _tuple) +:+ "." +:+ PyStr.of_int (snd _tuple).

Definition sanitize_version (version : string) : LooseVersion :=
  if 0 <=? PyStr.find PyStr.dash version
  then Loose.new (nth 1 (PyStr.split PyStr.dash version) EmptyString)
  else if String.eqb version "trunk"
  then Loose.new (make_ver_str TRUNK_VER)
  else Loose.new version.

(** [class GitSemVer]: a git ref wrapped up with a semver. *)
Record GitSemVer : Type := mkGitSemVer {
  git_ref : string;
  semver : LooseVersion
}.

(** [GitSemVer.__init__] *)
Definition GitSemVer_init (git_ref semver_str : string) : GitSemVer :=
  mkGitSemVer git_ref
    (if String.eqb semver_str "trunk"
     then Loose.new (make_ver_str TRUNK_VER)
     else Loose.new semver_str).

(** [GitSemVer.__cmp__] *)
Definition GitSemVer_cmp (self other : GitSemVer) : Z :=
  let here := vstring (semver self) in
  let there := vstring (semver other) in
  if (Z.of_nat (length (version (semver self))) <=? 3)
     || (Z.of_nat (length (version (semver other))) <=? 3)
  then
    if PyStr.contains (here +:+ "-") there then 1
    else if PyStr.contains (there +:+ "-") here then -1
    else if String.eqb there here then 0
    else Loose.cmp (semver self) (semver other)
  else Loose.cmp (semver self) (semver other).

End Versions.

(** ** The upgrade test: subprocesses, queues and the world around them *)

Module Upgrade.
Import Loose Versions.

(** The four functions written to run under [multiprocessing]. *)
Inductive target : Type :=
| data_writer
| data_checker
| counter_incrementer
| counter_checker.

(** [multiprocessing.Queue(maxsize)]; [Queue()] is [Queue(0)]. *)
Record Queue : Type := mkQueue {
  queue_id : nat;
  maxsize : Z
}.



(** [Process(target=..., args=(self, to_verify_queue,
    verification_done_queue[, rewrite_probability]))] *)
Record Process : Type := mkProcess {
  name : string;
  pid : nat;
  proc_target : target;
  arg_to_verify_queue : Queue;
  arg_verification_done_queue : Queue;
  arg_rewrite_probability : option Z;
  daemon : bool
}.

(** Functions of the [operator] module, with their [__name__]. *)
Record opfunc : Type := mkOp {
  op_name : string;
  op_apply : Z -> Z -> bool
}.

Definition operator_le : opfunc := mkOp "le" Z.leb.
Definition operator_ge : opfunc := mkOp "ge" Z.geb.

(** Where a node takes its binaries from: [install_dir=] or [version=]. *)
Inductive install : Type :=
| InstallDir (dir : string)
| InstallVersion (version : string).

(** The calls the test makes into the processes, ccm and the shell. *)
Inductive event : Type :=
| ProcessStart (p : Process)
| ProcessTerminate (pid : nat)
| Kill (pid : nat)
| Sleep (ms : Z)
| CheckCall (argv : list string) (cwd : string)
| NodeDrain (node : string)
| NodeWatchLogFor (node : string) (pattern : string)
| NodeStop (node : string)
| NodeSetInstallDir (node : string) (src : install)
| UpdateTopologyFiles
| NodeSetLogLevel (node : string) (level : string)
| NodeStart (node : string)
| NodeNodetool (node : string) (cmd : string)
| ClusterSetInstallDir (src : install).

(** What the rest of the system does, as a function of the time in
    milliseconds. *)
Record outside : Type := mkOutside {
  (** [queue.qsize()] of the queue with this id at this time;
      [None] is [NotImplementedError] (Mac OS X). *)
  qsize_at : nat -> Z -> option Z;
  (** the time at which the subprocess with this pid ends by itself *)
  exits_at : nat -> option Z;
  (** whether [psutil.Process(pid).kill()] raises *)
  kill_raises : nat -> bool;
  (** how much longer than asked a sleep begun at this time lasts *)
  sleep_lag : Z -> Z;
  (** the module constants [LOCAL_MODE] and [DEFAULT_DIR] *)
  LOCAL_MODE : bool;
  DEFAULT_DIR : string
}.

(** The state the test owns or changes. *)
Record world : Type := mkWorld {
  now : Z;                        (* [time.time()], in milliseconds *)
  subprocs : list Process;        (* [self.subprocs] *)
  gone : gset nat;                (* pids the test has killed or terminated *)
  environ : gmap string string;   (* [os.environ] *)
  nodelist : list string;         (* [self.cluster.nodelist()], by name *)
  processes_made : nat;
  queues_made : nat
}.

(** A computation: the result or the exception, the world it leaves
    and the calls it made, oldest first. *)
Definition M (A : Type) : Type := world -> result A * world * list event.

Definition outcome {A} (x : result A * world * list event) : result A := fst (fst x).
Definition after {A} (x : result A * world * list event) : world := snd (fst x).
Definition events {A} (x : result A * world * list event) : list event := snd x.

Definition ret {A} (a : A) : M A := fun w => (Ok a, w, []).

Definition bind {A B} (c : M A) (k : A -> M B) : M B :=
  fun w => match c w with
           | (Ok a, w1, es1) =>
               match k a w1 with
               | (r, w2, es2) => (r, w2, es1 ++ es2)
               end
           | (Raise e, w1, es1) => (Raise e, w1, es1)
           end.

Definition raise {A} (e : exn) : M A := fun w => (Raise e, w, []).

(** [try: c  except Exception: handler] *)
Definition try_except {A} (c : M A) (handler : M A) : M A :=
  fun w => match c w with
           | (Ok a, w1, es1) => (Ok a, w1, es1)
           | (Raise _, w1, es1) =>
               match handler w1 with
               | (r, w2, es2) => (r, w2, es1 ++ es2)
               end
           end.

Definition gets {A} (f : world -> A) : M A := fun w => (Ok (f w), w, []).

Declare Scope upgrade_scope.
Delimit Scope upgrade_scope with upgrade.
Notation "x <- c ;; k" := (bind c (fun x => k))
  (at level 20, c at level 99, k at level 200, only parsing) : upgrade_scope.
Notation "' p <- c ;; k" := (bind c (fun x => let p := x in k))
  (at level 20, p pattern, c at level 99, k at level 200, only parsing) : upgrade_scope.
Notation "c ;; k" := (bind c (fun _ => k))
  (at level 100, k at level 200, right associativity, only parsing) : upgrade_scope.
Local Open Scope upgrade_scope.

(** [for x in l: body(x)] *)
Fixpoint for_each {A} (l : list A) (body : A -> M unit) : M unit :=
  match l with
  | [] => ret tt
  | x :: l' => body x ;; for_each l' body
  end.

Definition emit (e : event) : M unit := fun w => (Ok tt, w, [e]).

Definition tick (ms : Z) (w : world) : world :=
  mkWorld (now w + ms) (subprocs w) (gone w) (environ w) (nodelist w)
          (processes_made w) (queues_made w).

(** [time.sleep]: the clock moves on by what was asked, or more. *)
Definition sleep (o : outside) (ms : Z) : M unit :=
  fun w => (Ok tt, tick (ms + Z.max 0 (sleep_lag o (now w))) w, [Sleep ms]).

Definition mark_gone (p : nat) : M unit :=
  fun w => (Ok tt,
            mkWorld (now w) (subprocs w) ({[ p ]} ∪ gone w) (environ w)
                    (nodelist w) (processes_made w) (queues_made w),
            []).

Definition set_environ (key value : string) : M unit :=
  fun w => (Ok tt,
            mkWorld (now w) (subprocs w) (gone w) (<[key := value]> (environ w))
                    (nodelist w) (processes_made w) (queues_made w),
            []).

(** [self.subprocs.append(p)] *)
Definition subprocs_append (p : Process) : M unit :=
  fun w => (Ok tt,
            mkWorld (now w) (subprocs w ++ [p]) (gone w) (environ w)
                    (nodelist w) (processes_made w) (queues_made w),
            []).

(** [Queue(maxsize)] *)
Definition Queue_new (maxsize : Z) : M Queue :=
  fun w => (Ok (mkQueue (queues_made w) maxsize),
            mkWorld (now w) (subprocs w) (gone w) (environ w)
                    (nodelist w) (processes_made w) (S (queues_made w)),
            []).

(** [Process(target=..., args=...)] followed by [p.daemon = True];
    the n-th process made is named [Process-n] and, once started, has
    pid n in the model. *)
Definition Process_new (t : target) (to_verify done : Queue)
           (rewrite_probability : option Z) : M Process :=
  fun w =>
    let n := S (processes_made w) in
    (Ok (mkProcess ("Process-" +:+ PyStr.of_int (Z.of_nat n)) n t
                   to_verify done rewrite_probability true),
     mkWorld (now w) (subprocs w) (gone w) (environ w)
             (nodelist w) n (queues_made w),
     []).

(** [p.start()] *)
Definition Process_start (p : Process) : M unit := emit (ProcessStart p).

(** [p.is_alive()] *)
Definition is_alive (o : outside) (w : world) (p : Process) : bool :=
  negb (bool_decide (pid p ∈ gone w))
  && match exits_at o (pid p) with
     | None => true
     | Some t => now w <? t
     end.

(** [p.terminate()]: SIGTERM, which the writers handle by exiting. *)
Definition Process_terminate (p : Process) : M unit :=
  emit (ProcessTerminate (pid p)) ;; mark_gone (pid p).

(** [psutil.Process(s.pid).kill()] *)
Definition psutil_kill (o : outside) (p : Process) : M unit :=
  emit (Kill (pid p)) ;;
  if kill_raises o (pid p) then raise (PsutilError (pid p))
  else mark_gone (pid p).

Definition _terminate_subprocs (o : outside) : M unit :=
  subs <- gets subprocs ;;
  for_each subs (fun s =>
    alive <- gets (fun w => is_alive o w s) ;;
    if alive
    then try_except (psutil_kill o s) (ret tt)
    else ret tt).

Definition status_line (o : outside) (w : world) (s : Process) : string :=
  name s +:+ " (is_alive: " +:+ PyStr.of_bool (is_alive o w s) +:+ "), ".

Definition _check_on_subprocs (o : outside) (subprocs : list Process) : M unit :=
  subproc_statuses <- gets (fun w => map (is_alive o w) subprocs) ;;
  if negb (forallb id subproc_statuses)
  then
    message <- gets (fun w =>
      "A subprocess has terminated early. Subprocess statuses: "
      +:+ String.concat "" (map (status_line o w) subprocs)
      +:+ "attempting to terminate remaining subprocesses now.") ;;
    _terminate_subprocs o ;;
    raise (RuntimeError message)
  else ret tt.

(** *** [_wait_until_queue_condition] *)

Definition out_of_time_message (qsize : Z) (op : opfunc) (required_len : Z) : string :=
  "Ran out of time waiting for queue size (" +:+ PyStr.of_int qsize
  +:+ ") to be '" +:+ op_name op +:+ "' to " +:+ PyStr.of_int required_len
  +:+ ". Aborting.".

(** The [else] clause of the loop: [qsize] is bound only if the body
    has run at least once. *)
Definition out_of_time (qsize : option Z) (op : opfunc) (required_len : Z) : exn :=
  match qsize with
  | Some n => RuntimeError (out_of_time_message n op required_len)
  | None => UnboundLocalError "qsize"
  end.

(** The [while time.time() < wait_end_time] loop; [qsize] is the local
    variable of that name, [fuel] bounds the number of passes, and
    [None] means the bound was too small. *)
Fixpoint wait_loop (o : outside) (fuel : nat) (queue : Queue) (op : opfunc)
         (required_len wait_end_time : Z) (qsize : option Z) (w : world)
  : option (result unit * world * list event) :=
  if now w <? wait_end_time then
    match fuel with
    | O => None
    | S fuel' =>
        match qsize_at o (queue_id queue) (now w) with
        | None => Some (Ok tt, w, [])
        | Some n =>
            if op_apply op n required_len then Some (Ok tt, w, [])
            else
              match sleep o 100 w with
              | (_, w1, es1) =>
                  match wait_loop o fuel' queue op required_len
                                  wait_end_time (Some n) w1 with
                  | Some (r, w2, es2) => Some (r, w2, es1 ++ es2)
                  | None => None
                  end
              end
        end
    end
  else Some (Raise (out_of_time qsize op required_len), w, []).

(** Each pass sleeps 100 ms or more, so this many passes are enough
    (see [wait_loop_has_enough_fuel]). *)
Definition passes_needed (max_wait_ms : Z) : nat :=
  S (Z.to_nat (max_wait_ms / 100)).

Definition _wait_until_queue_condition (o : outside) (label : string)
           (queue : Queue) (op : opfunc) (required_len max_wait_s : Z) : M unit :=
  fun w =>
    let wait_end_time := now w + 1000 * max_wait_s in
    match wait_loop o (passes_needed (1000 * max_wait_s)) queue op
                    required_len wait_end_time None w with
    | Some r => r
    | None => (Ok tt, w, [])   (* never taken: [wait_loop_has_enough_fuel] *)
    end.

(** *** Starting the subprocesses *)

Definition _start_continuous_write_and_verify (o : outside)
           (wait_for_rowcount max_wait_s : Z) : M (Process * Process * Queue) :=
  to_verify_queue <- Queue_new 0 ;;
  verification_done_queue <- Queue_new 500 ;;
  writer <- Process_new data_writer to_verify_queue verification_done_queue (Some 25) ;;
  subprocs_append writer ;;
  Process_start writer ;;
  (if 0 <? wait_for_rowcount
   then _wait_until_queue_condition o "rows written (but not verified)"
          to_verify_queue operator_ge wait_for_rowcount max_wait_s
   else ret tt) ;;
  verifier <- Process_new data_checker to_verify_queue verification_done_queue None ;;
  subprocs_append verifier ;;
  Process_start verifier ;;
  ret (writer, verifier, to_verify_queue).

Definition _start_continuous_counter_increment_and_verify (o : outside)
           (wait_for_rowcount max_wait_s : Z) : M (Process * Process * Queue) :=
  to_verify_queue <- Queue_new 0 ;;
  verification_done_queue <- Queue_new 500 ;;
  incrementer <- Process_new data_writer to_verify_queue verification_done_queue (Some 25) ;;
  subprocs_append incrementer ;;
  Process_start incrementer ;;
  (if 0 <? wait_for_rowcount
   then _wait_until_queue_condition o "counters incremented (but not verified)"
          to_verify_queue operator_ge wait_for_rowcount max_wait_s
   else ret tt) ;;
  count_verifier <- Process_new data_checker to_verify_queue verification_done_queue None ;;
  subprocs_append count_verifier ;;
  Process_start count_verifier ;;
  ret (incrementer, count_verifier, to_verify_queue).

(** *** Upgrading nodes *)

Definition switch_jdks (version : string) : M unit :=
  let version := sanitize_version version in
  let key := if Loose.cmp_str version "2.1" <? 0 then "JAVA7_HOME" else "JAVA8_HOME" in
  home <- gets (fun w => environ w !! key) ;;
  match home with
  | Some dir => set_environ "JAVA_HOME" dir
  | None => raise (RuntimeError "You need to set JAVA7_HOME and JAVA8_HOME to run these tests!")
  end.

(** [os.environ.get('CASSANDRA_DIR', DEFAULT_DIR)] *)
Definition cassandra_dir (o : outside) (w : world) : string :=
  default (DEFAULT_DIR o) (environ w !! "CASSANDRA_DIR").

Definition _init_local (o : outside) (git_ref : string) : M unit :=
  cdir <- gets (cassandra_dir o) ;;
  emit (CheckCall ["git"; "checkout"; git_ref] cdir) ;;
  emit (CheckCall ["ant"; "-Dbase.version=" +:+ git_ref; "clean"; "jar"] cdir).

Definition upgrade_to_version (o : outside) (tag : string) (partial : bool)
           (nodes : list string) : M unit :=
  switch_jdks tag ;;
  nodes <- (if negb partial then gets nodelist else ret nodes) ;;
  for_each nodes (fun node =>
    emit (NodeDrain node) ;;
    emit (NodeWatchLogFor node "DRAINED") ;;
    emit (NodeStop node)) ;;
  (if LOCAL_MODE o
   then
     _init_local o tag ;;
     cdir <- gets (cassandra_dir o) ;;
     for_each nodes (fun node => emit (NodeSetInstallDir node (InstallDir cdir)))
   else
     for_each nodes (fun node =>
       emit (NodeSetInstallDir node (InstallVersion ("git:" +:+ tag))))) ;;
  emit UpdateTopologyFiles ;;
  for_each nodes (fun node =>
    emit (NodeSetLogLevel node "INFO") ;;
    emit (NodeStart node) ;;
    emit (NodeNodetool node "upgradesstables -a")).

(** The [for tag in self.test_versions[1:]] loop of the rolling
    branch of [upgrade_scenario]. *)
Definition rolling_upgrade_loop (o : outside) (test_versions : list string) : M unit :=
  for_each (tail test_versions) (fun tag =>
    nodes <- gets nodelist ;;
    for_each nodes (fun node =>
      sleep o 60000 ;;
      upgrade_to_version o tag true [node] ;;
      subs <- gets subprocs ;;
      _check_on_subprocs o subs) ;;
    emit (ClusterSetInstallDir (InstallVersion ("git:" +:+ tag)))).

(** The rolling branch of [upgrade_scenario], from the start of the
    subprocesses to their termination. *)
Definition upgrade_scenario_rolling (o : outside) (test_versions : list string) : M unit :=
  '(write_proc, verify_proc, verification_queue) <-
     _start_continuous_write_and_verify o 5000 300 ;;
  '(increment_proc, incr_verify_proc, incr_verify_queue) <-
     _start_continuous_counter_increment_and_verify o 5000 300 ;;
  rolling_upgrade_loop o test_versions ;;
  Process_terminate write_proc ;;
  Process_terminate increment_proc ;;
  _wait_until_queue_condition o "writes pending verification"
    verification_queue operator_le 0 600 ;;
  _wait_until_queue_condition o "counters pending verification"
    incr_verify_queue operator_le 0 600 ;;
  _check_on_subprocs o [verify_proc; incr_verify_proc] ;;
  _terminate_subprocs o.

(** [TestUpgradeThroughVersions.test_versions] for an upgrade path. *)
Definition test_versions (UPGRADE_PATH : list (Z * Z)) : list string :=
  map make_branch_str UPGRADE_PATH.

(** The test object as [__init__] leaves it. *)
Definition fresh (environ : gmap string string) (nodes : list string) : world :=
  mkWorld 0 [] ∅ environ nodes 0 0.

End Upgrade.

(** ** [commitlog_test.py]: permissions of the commitlog directory *)

Module CommitLog.

(** [stat.S_IREAD], [stat.S_IWRITE], [stat.S_IEXEC]: the owner bits. *)
Definition S_IREAD : Z := 256.
Definition S_IWRITE : Z := 128.
Definition S_IEXEC : Z := 64.

(** A file of the commitlog directory. *)
Record entry : Type := mkEntry {
  entry_name : string;
  entry_mode : Z
}.

(** The commitlog directory, owned by the user running the test. *)
Record directory : Type := mkDirectory {
  dir_mode : Z;
  entries : list entry    (* in [os.listdir] order *)
}.

(** [os.chmod] keeps the twelve mode bits. *)
Definition mode_bits (mode : Z) : Z := Z.land mode 4095.

(** A privileged user passes every permission check; the owner needs
    the read bit to list the directory and the execute bit to reach
    the files in it. *)
Definition can_list (privileged : bool) (d : directory) : bool :=
  privileged || Z.testbit (dir_mode d) 8.

Definition can_search (privileged : bool) (d : directory) : bool :=
  privileged || Z.testbit (dir_mode d) 6.

(** [os.chmod(path, mod)] on the directory itself. *)
Definition chmod_directory (mode : Z) (d : directory) : directory :=
  mkDirectory (mode_bits mode) (entries d).

Definition set_mode (name : string) (mode : Z) (e : entry) : entry :=
  if String.eqb (entry_name e) name then mkEntry (entry_name e) (mode_bits mode) else e.

(** [os.chmod(path + '/' + name, mod)]: [EACCES] without search
    permission on the directory. *)
Definition chmod_file (privileged : bool) (name : string) (mode : Z)
           (d : directory) : result unit * directory :=
  if can_search privileged d
  then (Ok tt, mkDirectory (dir_mode d) (map (set_mode name mode) (entries d)))
  else (Raise (OSError name), d).

Definition hidden (name : string) : bool :=
  match name with
  | String c _ => Ascii.eqb c PyStr.dot
  | EmptyString => false
  end.

(** [glob.glob(path + '/*')]: the names that do not start with a dot;
    a directory that cannot be listed gives the empty list. *)
Definition glob_star (privileged : bool) (d : directory) : list string :=
  if can_list privileged d
  then List.filter (fun name => negb (hidden name)) (map entry_name (entries d))
  else [].

(** [for commitlog in commitlogs: os.chmod(commitlog, mod)] *)
Fixpoint chmod_each (privileged : bool) (commitlogs : list string) (mode : Z)
         (d : directory) : result unit * directory :=
  match commitlogs with
  | [] => (Ok tt, d)
  | commitlog :: rest =>
      match chmod_file privileged commitlog mode d with
      | (Ok _, d') => chmod_each privileged rest mode d'
      | (Raise e, d') => (Raise e, d')
      end
  end.

Definition _change_commitlog_perms (privileged : bool) (mode : Z)
           (d : directory) : result unit * directory :=
  let d1 := chmod_directory mode d in
  let commitlogs := glob_star privileged d1 in
  chmod_each privileged commitlogs mode d1.

(** [tearDown], up to the call of the parent class. *)
Definition tearDown (privileged : bool) (d : directory) : result unit * directory :=
  _change_commitlog_perms privileged (Z.lor (Z.lor S_IWRITE S_IREAD) S_IEXEC) d.

(** The steps of [_provoke_commitlog_failure]. *)
Inductive step : Type :=
| InsertRow
| AssertOneRow
| ChangePerms (mode : Z)
| StressWrite (commitlog_dir : directory).   (* the directory as the writes find it *)

Definition _provoke_commitlog_failure (privileged : bool) (d : directory)
  : result unit * directory * list step :=
  match _change_commitlog_perms privileged 0 d with
  | (Ok _, d') => (Ok tt, d', [InsertRow; AssertOneRow; ChangePerms 0; StressWrite d'])
  | (Raise e, d') => (Raise e, d', [InsertRow; AssertOneRow; ChangePerms 0])
  end.

End CommitLog.

(** ** [commitlog_test.py]: overwriting the header CRC *)

Module BadCrc.

Definition byte_of_Z (z : Z) : byte :=
  match Byte.of_N (Z.to_N (z mod 256)) with
  | Some b => b
  | None => x00
  end.

Definition Z_of_byte (b : byte) : Z := Z.of_N (Byte.to_N b).

(** The unsigned big-endian value of a byte string. *)
Definition be_value (bs : list byte) : Z :=
  fold_left (fun acc b => 256 * acc + Z_of_byte b) bs 0.

(** [struct.unpack('>i', s)[0]] and [struct.unpack('>h', s)[0]]:
    [width] bytes, big-endian, two's complement; [struct.error] when
    the string has another length. *)
Definition unpack_signed (width : nat) (s : list byte) : result Z :=
  if Nat.eqb (length s) width then
    let u := be_value s in
    let half := 2 ^ (8 * Z.of_nat width - 1) in
    Ok (if u <? half then u else u - 2 * half)
  else Raise StructError.

(** [struct.pack('>i', n)] *)
Definition pack_i (n : Z) : result (list byte) :=
  if (- 2 ^ 31 <=? n) && (n <? 2 ^ 31)
  then Ok [byte_of_Z (Z.shiftr n 24); byte_of_Z (Z.shiftr n 16);
           byte_of_Z (Z.shiftr n 8); byte_of_Z n]
  else Raise StructError.

(** [f.seek(pos); f.read(n)] on a file opened for reading. *)
Definition read_at (pos : Z) (n : nat) (file : list byte) : list byte :=
  firstn n (skipn (Z.to_nat pos) file).

(** [open(path, 'w')] empties the file; [f.seek(pos); f.write(data)]
    then leaves [pos] zero bytes before [data]. *)
Definition write_truncating (pos : Z) (data : list byte) : list byte :=
  repeat x00 (Z.to_nat pos) ++ data.

(** "locate the CRC location" *)
Definition locate_crc (file : list byte) : result Z :=
  match unpack_signed 4 (read_at 0 4 file) with
  | Raise e => Raise e
  | Ok version =>
      let crc_pos := 12 in
      if 5 <=? version then
        match unpack_signed 2 (read_at crc_pos 2 file) with
        | Raise e => Raise e
        | Ok h => let psize := Z.land h 65535 in Ok (crc_pos + (2 + psize))
        end
      else Ok crc_pos
  end.

(** "rewrite it with crap" *)
Definition rewrite_crc (crc_pos : Z) : result (list byte) :=
  match pack_i 123456 with
  | Ok data => Ok (write_truncating crc_pos data)
  | Raise e => Raise e
  end.

(** "verify said crap": the value [assertEqual] compares with 123456. *)
Definition read_crc (crc_pos : Z) (file : list byte) : result Z :=
  unpack_signed 4 (read_at crc_pos 4 file).

(** One pass of the loop over the commitlog files: the offset, the
    file as rewritten and the value read back. *)
Definition corrupt (file : list byte) : result (Z * list byte * Z) :=
  match locate_crc file with
  | Raise e => Raise e
  | Ok crc_pos =>
      match rewrite_crc crc_pos with
      | Raise e => Raise e
      | Ok file' =>
          match read_crc crc_pos file' with
          | Raise e => Raise e
          | Ok crc => Ok (crc_pos, file', crc)
          end
      end
  end.

End BadCrc.

(** ** [pushed_notifications_test.py]: [NotificationWaiter] *)

Module Notifications.

(** The values found in a notification or given as keyspace filter. *)
Inductive value : Type :=
| VNone
| VStr (s : string)
| VAddress (host : string) (port : Z).

(** Truth value of a Python object. *)
Definition truthy (v : value) : bool :=
  match v with
  | VNone => false
  | VStr s => negb (String.eqb s EmptyString)
  | VAddress _ _ => true
  end.

Definition value_eqb (a b : value) : bool :=
  match a, b with
  | VNone, VNone => true
  | VStr x, VStr y => String.eqb x y
  | VAddress h p, VAddress h' p' => String.eqb h h' && (p =? p')
  | _, _ => false
  end.

(** The fields of a [NotificationWaiter] that [handle_notification]
    reads or writes. *)
Record NotificationWaiter : Type := mkWaiter {
  keyspace : value;
  notifications : list (gmap string value);
  event : bool        (* the flag of [threading.Event] *)
}.

(** [NotificationWaiter.__init__]: an empty list, an event not set. *)
Definition init (keyspace : value) : NotificationWaiter :=
  mkWaiter keyspace [] false.

Definition handle_notification (self : NotificationWaiter)
           (notification : gmap string value)
  : result unit * NotificationWaiter :=
  let accept :=
    (Ok tt, mkWaiter (keyspace self) (notifications self ++ [notification]) true) in
  if truthy (keyspace self) then
    match notification !! "keyspace" with
    | None => (Raise (KeyError "keyspace"), self)
    | Some ks =>
        if truthy ks && negb (value_eqb (keyspace self) ks)
        then (Ok tt, self)
        else accept
    end
  else accept.

End Notifications.

(** ** [upgrade_through_versions_test.py]: the two [setUp] methods *)

Module UpgradeSetUp.
Import Versions Upgrade.
Local Open Scope upgrade_scope.

(** [s[-3:]]: the last three characters, or all of a shorter string. *)
Definition last_three (s : string) : string :=
  String.substring (String.length s - 3) 3 s.




End UpgradeSetUp.

(** ** [upgrade_through_versions_test.py]: the parallel upgrade *)

Module ParallelUpgrade.

(** What ends a helper of the parallel upgrade early. *)
Inductive error : Type :=
| DriverError (statement : string)     (* raised by [session.execute] *)
| AssertionError (message : string)
| ValueError (value : string)          (* [list.index], value not in list *)
| IndexError.

Inductive outcome (A : Type) : Type :=
| Return (a : A)
| Throw (e : error).

Arguments Return {A} a.
Arguments Throw {A} e.

(** *** [_write_values] and [_check_select_count] *)

(** ["UPDATE cf SET v='%d' WHERE k=%d" % (x, x)] *)
Definition update_statement (x : Z) : string :=
  "UPDATE cf SET v='" +:+ PyStr.of_int x +:+ "' WHERE k=" +:+ PyStr.of_int x.

(** The [for i in xrange(num)] loop; [fails] tells which statements
    the driver raises on, the list holds the statements executed. *)
Fixpoint write_loop (fails : string -> bool) (passes : nat) (row_values : gset Z)
  : outcome unit * gset Z * list string :=
  match passes with
  | O => (Return tt, row_values, [])
  | S passes' =>
      let x := Z.of_nat (size row_values) + 1 in
      if fails (update_statement x)
      then (Throw (DriverError (update_statement x)), row_values, [update_statement x])
      else
        match write_loop fails passes' ({[ x ]} ∪ row_values) with
        | (r, row_values', statements) => (r, row_values', update_statement x :: statements)
        end
  end.

Definition _write_values (fails : string -> bool) (num : Z) (row_values : gset Z)
  : outcome unit * gset Z * list string :=
  if fails "use upgrade"
  then (Throw (DriverError "use upgrade"), row_values, ["use upgrade"])
  else
    match write_loop fails (Z.to_nat num) row_values with
    | (r, row_values', statements) => (r, row_values', "use upgrade" :: statements)
    end.


(** *** [_increment_counters] *)

(** What one [session.execute(query)] of the loop does. *)
Inductive executed : Type :=
| Applied
| WriteTimeout
| Failed (statement : string).   (* any other exception *)

(** [self.expected_counts], a dict of [defaultdict(int)], is a
    [gmap string (gmap Z Z)]. *)

(** [self.expected_counts[key1][key2] += 1]: [KeyError] without
    [key1], a new entry 1 without [key2]. *)
Definition add_one (key1 : string) (key2 : Z) (expected_counts : gmap string (gmap Z Z))
  : option (gmap string (gmap Z Z)) :=
  match expected_counts !! key1 with
  | Some inner =>
      Some (<[key1 := <[key2 := default 0 (inner !! key2) + 1]> inner]> expected_counts)
  | None => None
  end.

Inductive counters_error : Type :=
| TooManyFailures               (* the [assert] at the end *)
| ExecuteFailed (statement : string)
| NoSuchKey (key1 : string).

(** The [for i in range(opcount)] loop from pass [i] on. [choice i]
    is what [random.choice] and [random.randint] give in pass [i],
    [execute i] what the driver does with the query of pass [i]. The
    result holds the counts, [fail_count] and the number of passes
    made. *)
Fixpoint increment_loop (choice : nat -> string * Z) (execute : nat -> executed)
         (passes : nat) (i : nat) (fail_count : Z)
         (expected_counts : gmap string (gmap Z Z))
  : option counters_error * gmap string (gmap Z Z) * Z * nat :=
  match passes with
  | O => (None, expected_counts, fail_count, i)
  | S passes' =>
      let '(key1, key2) := choice i in
      match execute i with
      | Failed statement => (Some (ExecuteFailed statement), expected_counts, fail_count, i)
      | WriteTimeout =>
          let fail_count := fail_count + 1 in
          if 100 <? fail_count
          then (None, expected_counts, fail_count, S i)
          else increment_loop choice execute passes' (S i) fail_count expected_counts
      | Applied =>
          match add_one key1 key2 expected_counts with
          | None => (Some (NoSuchKey key1), expected_counts, fail_count, i)
          | Some expected_counts' =>
              if 100 <? fail_count
              then (None, expected_counts', fail_count, S i)
              else increment_loop choice execute passes' (S i) fail_count expected_counts'
          end
      end
  end.

(** [_increment_counters]; [keys] are the ten [uuid.uuid4()] of the
    first loop, the session is connected and [use upgrade] done. *)
Definition _increment_counters (keys : list string) (choice : nat -> string * Z)
           (execute : nat -> executed) (opcount : Z)
  : option counters_error * gmap string (gmap Z Z) * Z * nat :=
  let expected_counts : gmap string (gmap Z Z) :=
    fold_left (fun m key => <[key := ∅]> m) keys ∅ in
  match increment_loop choice execute (Z.to_nat opcount) 0 0 expected_counts with
  | (Some e, expected_counts, fail_count, i) => (Some e, expected_counts, fail_count, i)
  | (None, expected_counts, fail_count, i) =>
      if fail_count <? 100
      then (None, expected_counts, fail_count, i)
      else (Some TooManyFailures, expected_counts, fail_count, i)
  end.

(** *** The version before a tag, and the point upgrades *)

(** [l.index(x)]: the first position of [x]. *)
Fixpoint index (x : string) (l : list string) : option nat :=
  match l with
  | [] => None
  | y :: l' => if String.eqb y x then Some O else option_map S (index x l')
  end.

(** [l[i]] for an int [i]: a negative index gmap string (gmap Z Z) from the end. *)
Definition item (l : list string) (i : Z) : outcome string :=
  let j := if i <? 0 then i + Z.of_nat (length l) else i in
  if j <? 0 then Throw IndexError
  else match nth_error l (Z.to_nat j) with
       | Some x => Return x
       | None => Throw IndexError
       end.

(** [self.test_versions[self.test_versions.index(tag) - 1]] *)
Definition version_before (test_versions : list string) (tag : string) : outcome string :=
  match index tag test_versions with
  | None => Throw (ValueError tag)
  | Some i => item test_versions (Z.of_nat i - 1)
  end.

(** [points[i:i + 2]] *)
Definition slice2 {A} (points : list A) (i : nat) : list A := firstn 2 (skipn i points).

(** The loop that builds [POINT_UPGRADES], from index [i] on; a pair
    is kept as a list of two, as [tuple(points[i:i + 2])]. *)
Fixpoint point_upgrades_from {A} (points : list A) (passes : nat) (i : nat) : list (list A) :=
  match passes with
  | O => []
  | S passes' =>
      let verslice := slice2 points i in
      if Nat.eqb (length verslice) 2
      then slice2 points i :: point_upgrades_from points passes' (S i)
      else point_upgrades_from points passes' (S i)
  end.

(** [make_ver_str(v) >= '1.2'], a comparison of strings. *)
Definition at_least_1_2 (v : Z * Z) : bool :=
  0 <=? PyStr.cmp (Versions.make_ver_str v) "1.2".

Definition points (UPGRADE_PATH : list (Z * Z)) : list (Z * Z) :=
  List.filter at_least_1_2 UPGRADE_PATH.

Definition POINT_UPGRADES (UPGRADE_PATH : list (Z * Z)) : list (list (Z * Z)) :=
  point_upgrades_from (points UPGRADE_PATH) (length (points UPGRADE_PATH)) 0.

End ParallelUpgrade.

(** ** [upgrade_through_versions_test.py]: the refs of the repository *)

Module GitRefs.

Definition tab : ascii := "009"%char.
Definition newline : ascii := "010"%char.
Definition slash : ascii := "/"%char.
Definition caret : ascii := "^"%char.

(** [MAPPED_REFS]: ref type, then ref name, to sha. *)
Inductive parsed : Type :=
| Refs (refs : gmap string (gmap string string))
| ValueError (row : string).    (* an unpacking with the wrong number of values *)

(** One row of [git ls-remote]: the ref type, the ref name up to a
    [^], and the sha; [None] when one of the two unpackings fails. *)
Definition parse_row (row : string) : option (string * string * string) :=
  match PyStr.split tab row with
  | [sha; _fullref] =>
      match PyStr.split slash _fullref with
      | [_; ref_type; ref] => Some (ref_type, hd EmptyString (PyStr.split caret ref), sha)
      | _ => None
      end
  | _ => None
  end.

(** [MAPPED_REFS[ref_type][name] = sha] on a [defaultdict(dict)] *)
Definition set_ref (refs : gmap string (gmap string string))
           (ref_type name sha : string) : gmap string (gmap string string) :=
  <[ref_type := <[name := sha]> (default ∅ (refs !! ref_type))]> refs.

Fixpoint parse_rows (rows : list string) (refs : gmap string (gmap string string))
  : parsed :=
  match rows with
  | [] => Refs refs
  | row :: rows' =>
      match parse_row row with
      | Some (ref_type, name, sha) => parse_rows rows' (set_ref refs ref_type name sha)
      | None => ValueError row
      end
  end.

(** The loop over [GIT_LS.split('\n')]. *)
Definition MAPPED_REFS (GIT_LS : string) : parsed :=
  parse_rows (PyStr.split newline GIT_LS) ∅.

(** [sha_for_ref_name]: [None] is [KeyError]. Looking up a ref type
    that is not there adds it, with no refs. *)
Definition sha_for_ref_name (refs : gmap string (gmap string string))
           (ref_name ref_type : string)
  : option string * gmap string (gmap string string) :=
  match refs !! ref_type with
  | Some names => (names !! ref_name, refs)
  | None => (None, <[ref_type := ∅]> refs)
  end.

End GitRefs.

(** ** [commitlog_test.py]: an unknown compressor in the header *)

Module CompressionError.
Import BadCrc.

Inductive failure : Type :=
| StructFailure                        (* [struct.error] *)
| AssertionFailure (what : string).

(** [binascii.crc32] as Python 2 returns it: the CRC-32 of zlib
    (reflected polynomial [0xEDB88320], initial value and final xor
    [0xFFFFFFFF]), as a signed 32-bit int. *)
Definition crc_shift (crc : Z) : Z :=
  if Z.testbit crc 0 then Z.lxor (Z.shiftr crc 1) 3988292384 else Z.shiftr crc 1.

Definition crc_byte (crc : Z) (b : byte) : Z :=
  Nat.iter 8 crc_shift (Z.lxor crc (Z_of_byte b)).

Definition crc32_unsigned (s : list byte) : Z :=
  Z.lxor (fold_left crc_byte s 4294967295) 4294967295.

Definition crc32 (s : list byte) : Z :=
  let u := crc32_unsigned s in
  if u <? 2 ^ 31 then u else u - 2 ^ 32.

(** [s[a:b]] for [0 <= a <= b] *)
Definition slice (a b : nat) (s : list byte) : list byte := firstn (b - a) (skipn a s).

(** [get_header_crc] *)
Definition get_header_crc (header : list byte) : Z :=
  let new_header := slice 0 4 header in
  let new_header := new_header ++ slice 8 12 header in
  let new_header := new_header ++ slice 4 8 header in
  let new_header := new_header ++ [x00; x00] ++ slice 12 14 header in
  let new_header := new_header ++ skipn 14 header in
  crc32 new_header.

(** [a == b] on byte strings *)
Fixpoint bytes_eqb (a b : list byte) : bool :=
  match a, b with
  | [], [] => true
  | x :: a', y :: b' => Byte.eqb x y && bytes_eqb a' b'
  | _, _ => false
  end.

(** [old in s] *)
Fixpoint starts_with (old s : list byte) : bool :=
  match old, s with
  | [], _ => true
  | _ :: _, [] => false
  | a :: old', b :: s' => Byte.eqb a b && starts_with old' s'
  end.

Fixpoint occurs (old s : list byte) : bool :=
  starts_with old s ||
  match s with
  | [] => false
  | _ :: s' => occurs old s'
  end.

(** [s.replace(old, new)] for a non-empty [old]: the occurrences from
    left to right, not overlapping; [skip] counts the bytes of an
    occurrence still to pass over. *)
Fixpoint replace_from (old new : list byte) (skip : nat) (s : list byte) : list byte :=
  match s with
  | [] => []
  | b :: s' =>
      match skip with
      | S skip' => replace_from old new skip' s'
      | O =>
          if starts_with old s
          then new ++ replace_from old new (length old - 1) s'
          else b :: replace_from old new 0 s'
      end
  end.

Definition replace (old new s : list byte) : list byte := replace_from old new 0 s.

Definition LZ4Compressor : list byte := list_byte_of_string "LZ4Compressor".
Definition LZ5Compressor : list byte := list_byte_of_string "LZ5Compressor".

(** [f.seek(pos); f.write(data)] on a file opened for writing: a gap
    before [pos] is filled with zero bytes. *)
Definition write_at (pos : nat) (data file : list byte) : list byte :=
  firstn pos (file ++ repeat x00 (pos - length file)) ++ data
  ++ skipn (pos + length data) file.

(** The body of the loop over the commitlog files: the file as
    rewritten, or the first check that fails. *)
Definition rewrite_compressor (file : list byte) : failure + list byte :=
  (* read the header and find the crc location *)
  match unpack_signed 2 (read_at 12 2 file) with
  | Raise _ => inl StructFailure
  | Ok h =>
      let psize := Z.land h 65535 in
      let crc_pos := 12 + (2 + psize) in
      let header_length := crc_pos in
      match unpack_signed 4 (read_at crc_pos 4 file) with
      | Raise _ => inl StructFailure
      | Ok crc =>
          let header_bytes := read_at 0 (Z.to_nat header_length) file in
          if negb (get_header_crc header_bytes =? crc)
          then inl (AssertionFailure "get_header_crc(header_bytes) == crc")
          else if negb (occurs LZ4Compressor header_bytes)
          then inl (AssertionFailure "'LZ4Compressor' in header_bytes")
          else
            (* rewrite it with imaginary compressor *)
            let header_bytes := replace LZ4Compressor LZ5Compressor header_bytes in
            if occurs LZ4Compressor header_bytes
            then inl (AssertionFailure "'LZ4Compressor' not in header_bytes")
            else if negb (occurs LZ5Compressor header_bytes)
            then inl (AssertionFailure "'LZ5Compressor' in header_bytes")
            else
              match pack_i (get_header_crc header_bytes) with
              | Raise _ => inl StructFailure
              | Ok packed =>
                  let file' := write_at 0 header_bytes [] in
                  let file' := write_at (Z.to_nat crc_pos) packed file' in
                  (* verify we wrote everything correctly *)
                  if negb (bytes_eqb (read_at 0 (Z.to_nat header_length) file')
                                     header_bytes)
                  then inl (AssertionFailure "f.read(header_length) == header_bytes")
                  else
                    match unpack_signed 4 (read_at crc_pos 4 file') with
                    | Raise _ => inl StructFailure
                    | Ok crc' =>
                        if crc' =? get_header_crc header_bytes
                        then inr file'
                        else inl (AssertionFailure "crc == get_header_crc(header_bytes)")
                    end
              end
      end
  end.

End CompressionError.

(** ** [upgrade_through_versions_test.py]: the writer and the checker *)

Module WriteAndVerify.

(** Where [data_writer] stands in the body of its loop. *)
Inductive writer_at : Type :=
| BeforeChoice                                (* at [key = None] *)
| BeforeExecute (key val : string)            (* at [session.execute(prepared, (val, key))] *)
| BeforePut (key val : string)                (* at [to_verify_queue.put_nowait((key, val,))] *)
| WriterEnded.                                (* an exception left the loop *)

(** Where [data_checker] stands in the body of its loop. *)
Inductive checker_at : Type :=
| BeforeGet                                   (* at [to_verify_queue.get_nowait()] *)
| BeforeSelect (key expected_val : string)    (* at [session.execute(prepared, (key,))] *)
| BeforeDone (key expected_val actual_val : string)
                                              (* at [verification_done_queue.put_nowait(key)] *)
| BeforeAssert (expected_val actual_val : string)
                                              (* at [tester.assertEqual] *)
| CheckerEnded.

(** The table [cf], the two queues (oldest item first) and the two
    subprocesses. *)
Record state : Type := mkState {
  cf : gmap string string;
  to_verify_queue : list (string * string);
  verification_done_queue : list string;
  writer : writer_at;
  checker : checker_at;
  mismatch : bool        (* [assertEqual] has failed *)
}.

(** The state when the two subprocesses are started. *)
Definition started : state := mkState ∅ [] [] BeforeChoice BeforeGet false.

(** [Queue(maxsize=500)] *)
Definition done_maxsize : nat := 500.

(** The next statement of [data_writer]. [randint] is what
    [random.randint(0, 100)] gives, [uuid_key] and [uuid_val] what
    the two [uuid.uuid4()] give, [executed] whether the driver
    returns. *)
Definition writer_step (rewrite_probability randint : Z) (uuid_key uuid_val : string)
           (executed : bool) (s : state) : state :=
  match writer s with
  | BeforeChoice =>
      if (0 <? rewrite_probability) && (randint <=? rewrite_probability)
      then
        match verification_done_queue s with
        | key :: rest =>
            mkState (cf s) (to_verify_queue s) rest (BeforeExecute key uuid_val)
                    (checker s) (mismatch s)
        | [] =>      (* [Empty]: "oh well" *)
            mkState (cf s) (to_verify_queue s) [] (BeforeExecute uuid_key uuid_val)
                    (checker s) (mismatch s)
        end
      else
        mkState (cf s) (to_verify_queue s) (verification_done_queue s)
                (BeforeExecute uuid_key uuid_val) (checker s) (mismatch s)
  | BeforeExecute key val =>
      if executed
      then mkState (<[key := val]> (cf s)) (to_verify_queue s) (verification_done_queue s)
                   (BeforePut key val) (checker s) (mismatch s)
      else mkState (cf s) (to_verify_queue s) (verification_done_queue s)
                   WriterEnded (checker s) (mismatch s)
  | BeforePut key val =>
      mkState (cf s) (to_verify_queue s ++ [(key, val)]) (verification_done_queue s)
              BeforeChoice (checker s) (mismatch s)
  | WriterEnded => s
  end.

(** The next statement of [data_checker]. *)
Definition checker_step (executed : bool) (s : state) : state :=
  match checker s with
  | BeforeGet =>
      match to_verify_queue s with
      | (key, expected_val) :: rest =>
          mkState (cf s) rest (verification_done_queue s) (writer s)
                  (BeforeSelect key expected_val) (mismatch s)
      | [] => s      (* [Empty]: sleep and [continue] *)
      end
  | BeforeSelect key expected_val =>
      match (if executed then cf s !! key else None) with
      | Some actual_val =>
          mkState (cf s) (to_verify_queue s) (verification_done_queue s) (writer s)
                  (BeforeDone key expected_val actual_val) (mismatch s)
      | None =>      (* the driver raised, or no row: [[0]] raises *)
          mkState (cf s) (to_verify_queue s) (verification_done_queue s) (writer s)
                  CheckerEnded (mismatch s)
      end
  | BeforeDone key expected_val actual_val =>
      mkState (cf s) (to_verify_queue s)
              (if (length (verification_done_queue s) <? done_maxsize)%nat
               then verification_done_queue s ++ [key]
               else verification_done_queue s)      (* [Full]: "drop this one" *)
              (writer s) (BeforeAssert expected_val actual_val) (mismatch s)
  | BeforeAssert expected_val actual_val =>
      if String.eqb expected_val actual_val
      then mkState (cf s) (to_verify_queue s) (verification_done_queue s) (writer s)
                   BeforeGet (mismatch s)
      else mkState (cf s) (to_verify_queue s) (verification_done_queue s) (writer s)
                   CheckerEnded true
  | CheckerEnded => s
  end.

(** Which subprocess makes the next step, with what it meets. *)
Inductive turn : Type :=
| WriterTurn (randint : Z) (uuid_key uuid_val : string) (executed : bool)
| CheckerTurn (executed : bool).

Definition step (rewrite_probability : Z) (t : turn) (s : state) : state :=
  match t with
  | WriterTurn randint uuid_key uuid_val executed =>
      writer_step rewrite_probability randint uuid_key uuid_val executed s
  | CheckerTurn executed => checker_step executed s
  end.

(** A run: the turns in the order the two subprocesses take them. *)
Definition run (rewrite_probability : Z) (turns : list turn) (s : state) : state :=
  fold_left (fun s t => step rewrite_probability t s) turns s.

End WriteAndVerify.

(** ** [upgrade_through_versions_test.py]: the upgrade path *)

Module UpgradePath.
Import Versions.

Inductive error : Type :=
| ValueError        (* [int()] of a string that is no number, or an unpacking *)
| KeyError (protocol_version : Z).

Definition colon : ascii := ":"%char.
Definition underscore : ascii := "_"%char.

(** The characters [str.strip] and [int] take for whitespace. *)
Definition is_space (c : ascii) : bool :=
  let n := N_of_ascii c in
  ((n =? 32) || ((9 <=? n) && (n <=? 13)))%N.

Fixpoint lstrip (s : string) : string :=
  match s with
  | String c s' => if is_space c then lstrip s' else s
  | EmptyString => EmptyString
  end.

Fixpoint rstrip (s : string) : string :=
  match s with
  | String c s' =>
      match rstrip s' with
      | EmptyString => if is_space c then EmptyString else String c EmptyString
      | r => String c r
      end
  | EmptyString => EmptyString
  end.

Fixpoint digits_only (s : string) : bool :=
  match s with
  | EmptyString => true
  | String c s' =>
      match Loose.classify c with
      | Loose.Digit => digits_only s'
      | _ => false
      end
  end.

(** One or more decimal digits. *)
Definition unsigned_int (s : string) : option Z :=
  match s with
  | EmptyString => None
  | _ => if digits_only s then Some (PyStr.int_of_digits s) else None
  end.

(** [int(s)] for a [str]: whitespace around an optional sign and
    decimal digits; [None] is [ValueError]. *)
Definition int (s : string) : option Z :=
  match lstrip (rstrip s) with
  | String "+" digits => unsigned_int digits
  | String "-" digits => option_map Z.opp (unsigned_int digits)
  | digits => unsigned_int digits
  end.

(** [PROTOCOL_PATHS] *)
Definition PROTOCOL_PATHS (protocol_version : Z) : option (list (Z * Z)) :=
  if protocol_version =? 1 then Some [(2, 0); (2, 1); (2, 2)]
  else if protocol_version =? 2 then Some [(2, 0); (2, 1); (2, 2)]
  else if protocol_version =? 3 then Some [(2, 1); (2, 2); (3, 0); TRUNK_VER]
  else if protocol_version =? 4 then Some [(2, 2); (3, 0); TRUNK_VER]
  else None.

(** [int(os.environ.get('PROTOCOL_VERSION', 3))] *)
Definition PROTOCOL_VERSION (environ : gmap string string) : error + Z :=
  match environ !! "PROTOCOL_VERSION" with
  | Some s => match int s with Some n => inr n | None => inl ValueError end
  | None => inr 3
  end.

(** The body of the loop over [CUSTOM_PATH.split(':')]. *)
Definition vertup (_vertup : string) : option (Z * Z) :=
  match PyStr.split underscore _vertup with
  | [_major; _minor] =>
      match int _major, int _minor with
      | Some major, Some minor => Some (major, minor)
      | _, _ => None
      end
  | _ => None
  end.

Fixpoint vertups (pieces : list string) : error + list (Z * Z) :=
  match pieces with
  | [] => inr []
  | piece :: rest =>
      match vertup piece with
      | None => inl ValueError
      | Some v =>
          match vertups rest with
          | inr path => inr (v :: path)
          | inl e => inl e
          end
      end
  end.

(** [UPGRADE_PATH], from [os.environ]. *)
Definition UPGRADE_PATH (environ : gmap string string) : error + list (Z * Z) :=
  match PROTOCOL_VERSION environ with
  | inl e => inl e
  | inr protocol_version =>
      match environ !! "UPGRADE_PATH" with
      | Some (String c s) => vertups (PyStr.split colon (String c s))
      | _ =>
          match PROTOCOL_PATHS protocol_version with
          | Some path => inr path
          | None => inl (KeyError protocol_version)
          end
      end
  end.

End UpgradePath.

(** ** [upgrade_through_versions_test.py]: the latest tag of a version *)

Module LatestTag.
Import Versions.

(** *** Regular expressions, as far as the two patterns need them *)

Inductive regex : Type :=
| Never
| Empty
| Char (accepts : ascii -> bool)
| Seq (r1 r2 : regex)
| Alt (r1 r2 : regex)
| Star (r : regex).

Fixpoint nullable (r : regex) : bool :=
  match r with
  | Never => false
  | Empty => true
  | Char _ => false
  | Seq r1 r2 => nullable r1 && nullable r2
  | Alt r1 r2 => nullable r1 || nullable r2
  | Star _ => true
  end.

(** What is left of [r] after the character [c]. *)
Fixpoint derivative (c : ascii) (r : regex) : regex :=
  match r with
  | Never => Never
  | Empty => Never
  | Char accepts => if accepts c then Empty else Never
  | Seq r1 r2 =>
      if nullable r1
      then Alt (Seq (derivative c r1) r2) (derivative c r2)
      else Seq (derivative c r1) r2
  | Alt r1 r2 => Alt (derivative c r1) (derivative c r2)
  | Star r' => Seq (derivative c r') (Star r')
  end.

(** [r] matches the whole of [s]. *)
Fixpoint matches (r : regex) (s : string) : bool :=
  match s with
  | EmptyString => nullable r
  | String c s' => matches (derivative c r) s'
  end.

Definition plus (r : regex) : regex := Seq r (Star r).

Fixpoint literal (s : string) : regex :=
  match s with
  | EmptyString => Empty
  | String c s' => Seq (Char (Ascii.eqb c)) (literal s')
  end.

Definition is_newline (c : ascii) : bool := Ascii.eqb c "010".

(** [\d] and [\w] of a byte-string pattern without flags *)
Definition is_digit (c : ascii) : bool :=
  let n := N_of_ascii c in ((48 <=? n) && (n <=? 57))%N.

Definition is_word (c : ascii) : bool :=
  let n := N_of_ascii c in
  (((48 <=? n) && (n <=? 57)) || ((65 <=? n) && (n <=? 90))
   || ((97 <=? n) && (n <=? 122)) || (n =? 95))%N.

(** [ver_str] as it stands in the pattern, not escaped: the dot of
    ['{}.{}'] matches any character but a newline; digits and a minus
    sign stand for themselves. *)
Fixpoint unescaped (ver_str : string) : regex :=
  match ver_str with
  | EmptyString => Empty
  | String c s' =>
      Seq (Char (if Ascii.eqb c "." then fun x => negb (is_newline x) else Ascii.eqb c))
          (unescaped s')
  end.

(** [(-+\w+)*] *)
Definition suffixes : regex :=
  Star (Seq (plus (Char (Ascii.eqb "-"))) (plus (Char is_word))).

(** [$]: the end of the string, or a newline that ends it. *)
Definition at_end : regex := Alt Empty (Char is_newline).

(** The first pattern: [^cassandra-], then the group of [ver_str],
    [\.], [\d+] and the suffixes, then [$]. *)
Definition cassandra_tag (ver_str : string) : regex :=
  Seq (literal "cassandra-")
      (Seq (Seq (unescaped ver_str)
                (Seq (Char (Ascii.eqb ".")) (Seq (plus (Char is_digit)) suffixes)))
           at_end).

(** The second pattern: the group of [ver_str], [\.], [\d*] and the
    suffixes, between [^] and [$]. *)
Definition plain_tag (ver_str : string) : regex :=
  Seq (Seq (unescaped ver_str)
           (Seq (Char (Ascii.eqb ".")) (Seq (Star (Char is_digit)) suffixes)))
      at_end.

(** The string without the newline [$] may have left at its end;
    nothing in the group matches a newline, so this is [group(1)] once
    what comes before the group is dropped. *)
Fixpoint without_last_newline (s : string) : string :=
  match s with
  | EmptyString => EmptyString
  | String c EmptyString => if is_newline c then EmptyString else s
  | String c s' => String c (without_last_newline s')
  end.

(** [re.match(first pattern, t) or re.match(second pattern, t)],
    then [match.group(1)]. *)
Definition group_1 (ver_str t : string) : option string :=
  if matches (cassandra_tag ver_str) t
  then Some (without_last_newline (String.substring 10 (String.length t - 10) t))
  else if matches (plain_tag ver_str) t
  then Some (without_last_newline t)
  else None.

(** *** [bisect.insort] *)

(** The loop of [bisect.insort_right]; the interval shrinks with every
    pass, so [fuel] passes are enough when [hi - lo <= fuel]. *)
Fixpoint bisect_right (fuel : nat) (x : GitSemVer) (a : list GitSemVer) (lo hi : nat)
  : nat :=
  match fuel with
  | O => lo
  | S fuel' =>
      if (lo <? hi)%nat
      then
        let mid := ((lo + hi) / 2)%nat in
        match nth_error a mid with
        | Some y =>
            if GitSemVer_cmp x y <? 0      (* [x < a[mid]] *)
            then bisect_right fuel' x a lo mid
            else bisect_right fuel' x a (S mid) hi
        | None => lo
        end
      else lo
  end.

(** [bisect.insort(a, x)] *)
Definition insort (a : list GitSemVer) (x : GitSemVer) : list GitSemVer :=
  let lo := bisect_right (length a) x a 0 (length a) in
  firstn lo a ++ x :: skipn lo a.

(** The loop over the tags; [tags] is [MAPPED_REFS['tags'].keys()]. *)
Definition collect (ver_str : string) (tags : list string) : list GitSemVer :=
  fold_left (fun wrappers t =>
               match group_1 ver_str t with
               | Some semver_str => insort wrappers (GitSemVer_init t semver_str)
               | None => wrappers
               end)
            tags [].

Definition latest_tag_matching (tags : list string) (ver_tuple : Z * Z) : option string :=
  let ver_str := make_ver_str ver_tuple in
  match List.rev (collect ver_str tags) with
  | latest :: _ => Some (git_ref latest)      (* [wrappers.pop().git_ref] *)
  | [] => None
  end.

End LatestTag.

(** ** [pushed_notifications_test.py]: waiting for notifications *)

Module Waiter.
Import Notifications.

(** A notification pushed by the node, with the time (in
    milliseconds) at which the thread of the connection calls
    [handle_notification] for it; an exception raised there stays in
    that thread. *)
Definition handled (self : NotificationWaiter) (notification : gmap string value)
  : NotificationWaiter :=
  snd (handle_notification self notification).

(** The calls of [handle_notification] up to the time [until]; the
    pushes are handled in the order of the list. *)
Fixpoint deliver (until : Z) (self : NotificationWaiter)
         (pushes : list (Z * gmap string value))
  : NotificationWaiter * list (Z * gmap string value) :=
  match pushes with
  | (t, notification) :: rest =>
      if t <=? until then deliver until (handled self notification) rest
      else (self, pushes)
  | [] => (self, [])
  end.

(** A thread blocked in [self.event.wait] until the time [until]: it
    wakes up when a call of [handle_notification] sets the event, or
    at [until]. *)
Fixpoint wake_up (until : Z) (self : NotificationWaiter)
         (pushes : list (Z * gmap string value))
  : NotificationWaiter * Z * list (Z * gmap string value) :=
  match pushes with
  | (t, notification) :: rest =>
      if t <=? until
      then
        let self' := handled self notification in
        if event self'
        then match deliver t self' rest with
             | (self'', rest') => (self'', t, rest')
             end
        else wake_up until self' rest
      else (self, until, pushes)
  | [] => (self, until, [])
  end.

(** [self.event.wait(timeout)] at the time [now] *)
Definition event_wait (timeout : Z) (self : NotificationWaiter) (now : Z)
           (pushes : list (Z * gmap string value))
  : NotificationWaiter * Z * list (Z * gmap string value) :=
  if event self || (timeout <=? 0)
  then (self, now, pushes)
  else wake_up (now + timeout) self pushes.

(** [self.event.clear()] *)
Definition event_clear (self : NotificationWaiter) : NotificationWaiter :=
  mkWaiter (keyspace self) (notifications self) false.

(** The [while time.time() < deadline] loop; [None] means that [fuel]
    passes were not enough. *)
Fixpoint wait_loop (fuel : nat) (deadline num_notifications : Z)
         (self : NotificationWaiter) (now : Z) (pushes : list (Z * gmap string value))
  : option (NotificationWaiter * Z * list (Z * gmap string value)) :=
  if now <? deadline then
    match fuel with
    | O => None
    | S fuel' =>
        match event_wait (deadline - now) self now pushes with
        | (self1, now1, pushes1) =>
            let self2 := event_clear self1 in
            if num_notifications <=? Z.of_nat (length (notifications self2))
            then Some (self2, now1, pushes1)
            else wait_loop fuel' deadline num_notifications self2 now1 pushes1
        end
    end
  else Some (self, now, pushes).

(** [wait_for_notifications(timeout, num_notifications)] called at the
    time [now], with the pushes still to come: the list returned, the
    waiter, the time of the return and the pushes not yet handled.
    Every pass but the first begins with the event cleared and ends
    with a push handled or the deadline reached, so two passes more
    than there are pushes are enough (see
    [wait_loop_has_enough_passes]). *)
Definition wait_for_notifications (timeout num_notifications : Z)
           (self : NotificationWaiter) (now : Z) (pushes : list (Z * gmap string value))
  : option (list (gmap string value) * NotificationWaiter * Z
            * list (Z * gmap string value)) :=
  let deadline := now + timeout in
  match wait_loop (S (S (length pushes))) deadline num_notifications self now pushes with
  | Some (self', now', pushes') => Some (notifications self', self', now', pushes')
  | None => None
  end.

(** [clear_notifications] *)
Definition clear_notifications (self : NotificationWaiter) : NotificationWaiter :=
  mkWaiter (keyspace self) [] false.

End Waiter.

Module VersionExamples.
Import Loose Versions.

Example parse_rc :
  parse "3.0.0-rc1" = [CInt 3; CInt 0; CInt 0; CStr "-"; CStr "rc"; CInt 1].
Proof. reflexivity. Qed.

Example parse_plain : parse "2.1.12" = [CInt 2; CInt 1; CInt 12].
Proof. reflexivity. Qed.

Example branch_21 : make_branch_str (2, 1) = "cassandra-2.1".
Proof. reflexivity. Qed.

Example branch_trunk : make_branch_str (3, 2) = "trunk".
Proof. reflexivity. Qed.

Example sanitize_branch : sanitize_version "cassandra-2.1" = Loose.new "2.1".
Proof. reflexivity. Qed.

Example sanitize_trunk : sanitize_version "trunk" = Loose.new "3.2".
Proof. reflexivity. Qed.

Example split_two : PyStr.split PyStr.dash "cassandra-2.1" = ["cassandra"; "2.1"]%string.
Proof. reflexivity. Qed.

Example cmp_release_rc :
  GitSemVer_cmp (GitSemVer_init "cassandra-3.0.0" "3.0.0")
                (GitSemVer_init "3.0.0-rc1" "3.0.0-rc1") = 1.
Proof. reflexivity. Qed.

(** A negative component is no version number: its sign is taken for
    the separator of the branch name. *)
Example negative_minor_is_cut_off :
  make_branch_str (2, -1) = "cassandra-2.-1"
  /\ sanitize_version (make_branch_str (2, -1)) = Loose.new "2.".
Proof. split; reflexivity. Qed.

Example cmp_plain :
  GitSemVer_cmp (GitSemVer_init "a" "2.1.9") (GitSemVer_init "b" "2.1.12") = -1.
Proof. reflexivity. Qed.

End VersionExamples.

(** ** Facts about the string primitives *)

Section PyStrFacts.
Import PyStr.

Lemma append_cons (x : ascii) (a b : string) :
  String x a +:+ b = String x (a +:+ b).
Proof. reflexivity. Qed.

Lemma has_char_app (c : ascii) (a b : string) :
  has_char c (a +:+ b) = has_char c a || has_char c b.
Proof.
  induction a as [|x a IH]; simpl; [reflexivity|].
  destruct (Ascii.eqb x c); [reflexivity | exact IH].
Qed.

Lemma split_without_separator (c : ascii) (s : string) :
  has_char c s = false -> split c s = [s].
Proof.
  induction s as [|x s IH]; simpl; [reflexivity|].
  destruct (Ascii.eqb x c); [discriminate|].
  intros H. rewrite (IH H). reflexivity.
Qed.

Lemma find_without_char (c : ascii) (s : string) :
  has_char c s = false -> find c s = -1.
Proof.
  induction s as [|x s IH]; simpl; [reflexivity|].
  destruct (Ascii.eqb x c); [discriminate|].
  intros H. rewrite (IH H). reflexivity.
Qed.

Lemma find_nonneg_iff_has_char (c : ascii) (s : string) :
  (0 <=? find c s) = has_char c s /\ -1 <= find c s.
Proof.
  induction s as [|x s [IH1 IH2]]; simpl; [split; [reflexivity | lia]|].
  destruct (Ascii.eqb x c); [split; [reflexivity | lia]|].
  rewrite <- IH1. destruct (find c s <? 0) eqn:E.
  - apply Z.ltb_lt in E. split; [|lia].
    symmetry. apply Z.leb_gt. exact E.
  - apply Z.ltb_ge in E. split; [|lia].
    transitivity true; [apply Z.leb_le; lia | symmetry; apply Z.leb_le; lia].
Qed.

Lemma split_at_first_separator (c : ascii) (a b : string) :
  has_char c a = false -> split c (a +:+ String c b) = a :: split c b.
Proof.
  induction a as [|x a IH]; intros H.
  - change (EmptyString +:+ String c b) with (String c b).
    simpl. rewrite Ascii.eqb_refl. reflexivity.
  - rewrite append_cons. simpl in *.
    destruct (Ascii.eqb x c); [discriminate|].
    rewrite (IH H). reflexivity.
Qed.

Lemma uint_digits_have_no_dash (d : Decimal.uint) :
  has_char dash (NilEmpty.string_of_uint d) = false.
Proof. induction d; simpl; auto. Qed.

Lemma of_int_has_no_dash (n : Z) :
  0 <= n -> has_char dash (of_int n) = false.
Proof.
  intros Hn. unfold of_int. destruct n as [|p|p]; [reflexivity| |lia].
  simpl. unfold NilZero.string_of_uint.
  destruct (Pos.to_uint p) eqn:E; try reflexivity;
    rewrite <- E; apply uint_digits_have_no_dash.
Qed.

Lemma prefix_of_append (s t : string) : String.prefix s (s +:+ t) = true.
Proof.
  induction s as [|x s IH]; simpl.
  - destruct t; reflexivity.
  - destruct (ascii_dec x x); [exact IH | congruence].
Qed.

Lemma prefix_is_no_longer (s t : string) :
  String.prefix s t = true -> (String.length s <= String.length t)%nat.
Proof.
  revert t. induction s as [|x s IH]; intros [|y t]; simpl; try lia; try discriminate.
  destruct (ascii_dec x y); [|discriminate].
  intros H. apply IH in H. lia.
Qed.

Lemma contains_is_no_longer (sub s : string) :
  contains sub s = true -> (String.length sub <= String.length s)%nat.
Proof.
  induction s as [|y s IH].
  - destruct sub; simpl; [lia | discriminate].
  - change (contains sub (String y s))
      with (String.prefix sub (String y s) || contains sub s).
    intros H. apply orb_true_iff in H as [H|H].
    + apply prefix_is_no_longer in H. exact H.
    + apply IH in H. simpl. lia.
Qed.

Lemma contains_at_start (s t : string) : contains s (s +:+ t) = true.
Proof.
  assert (H := prefix_of_append s t).
  destruct (s +:+ t) as [|y u].
  - destruct s; [reflexivity | discriminate].
  - change (contains s (String y u))
      with (String.prefix s (String y u) || contains s u).
    rewrite H. reflexivity.
Qed.

Lemma length_append (s t : string) :
  String.length (s +:+ t) = (String.length s + String.length t)%nat.
Proof.
  induction s as [|x s IH]; [reflexivity|].
  rewrite append_cons. simpl. rewrite IH. reflexivity.
Qed.

Lemma append_assoc (a b c : string) : (a +:+ b) +:+ c = a +:+ (b +:+ c).
Proof.
  induction a as [|x a IH]; [reflexivity|].
  rewrite !append_cons, IH. reflexivity.
Qed.

Lemma string_compare_refl (s : string) : String.compare s s = Eq.
Proof.
  induction s as [|x s IH]; simpl; [reflexivity|].
  unfold Ascii.compare. rewrite N.compare_refl. exact IH.
Qed.

Lemma cmp_refl (s : string) : cmp s s = 0.
Proof. unfold cmp. rewrite string_compare_refl. reflexivity. Qed.

End PyStrFacts.

(** Python's [==] on a [LooseVersion] is [__cmp__(...) == 0]; equal
    objects compare equal. *)
Lemma Loose_cmp_list_refl (a : list Loose.component) : Loose.cmp_list a a = 0.
Proof.
  induction a as [|x a IH]; simpl; [reflexivity|].
  assert (H : Loose.cmp_component x x = 0).
  { destruct x as [n|s]; simpl; [rewrite Z.compare_refl; reflexivity | apply cmp_refl]. }
  rewrite H. exact IH.
Qed.

Lemma Loose_cmp_refl (v : Loose.LooseVersion) : Loose.cmp v v = 0.
Proof. apply Loose_cmp_list_refl. Qed.

(** ** Branch names and version strings *)

Module VersionTheorems.
Import Loose Versions.

(** C9. For every version tuple [(major, minor)] (two non-negative
    ints), [sanitize_version(make_branch_str(v))] is
    [LooseVersion(make_ver_str(v))], the same object field by field
    and equal under [__cmp__]: the trunk tuple goes through the branch
    name ['trunk'], every other tuple through ['cassandra-major.minor']. *)
Theorem sanitize_version_of_branch_str (major minor : Z) :
  0 <= major -> 0 <= minor ->
  sanitize_version (make_branch_str (major, minor))
  = Loose.new (make_ver_str (major, minor))
  /\ Loose.cmp (sanitize_version (make_branch_str (major, minor)))
               (Loose.new (make_ver_str (major, minor))) = 0
  /\ make_branch_str (major, minor)
     = (if tuple_eqb (major, minor) TRUNK_VER then "trunk"
        else "cassandra-" +:+ make_ver_str (major, minor)).
Proof.
  intros Hmaj Hmin.
  cut (sanitize_version (make_branch_str (major, minor))
       = Loose.new (make_ver_str (major, minor))
       /\ make_branch_str (major, minor)
          = (if tuple_eqb (major, minor) TRUNK_VER then "trunk"
             else "cassandra-" +:+ make_ver_str (major, minor))).
  { intros [H1 H2]. split; [exact H1|]. split; [|exact H2].
    rewrite H1. apply Loose_cmp_refl. }
  unfold make_branch_str.
  destruct (tuple_eqb (major, minor) TRUNK_VER) eqn:E.
  - unfold tuple_eqb in E; simpl in E.
    apply andb_true_iff in E as [E1 E2].
    apply Z.eqb_eq in E1, E2. subst. split; reflexivity.
  - split; [|reflexivity].
    fold (make_ver_str (major, minor)).
    assert (Hnd : PyStr.has_char PyStr.dash (make_ver_str (major, minor)) = false).
    { unfold make_ver_str. rewrite !has_char_app. simpl fst; simpl snd.
      rewrite !of_int_has_no_dash by assumption. reflexivity. }
    change ("cassandra-" +:+ make_ver_str (major, minor))
      with ("cassandra" +:+ String PyStr.dash (make_ver_str (major, minor))).
    unfold sanitize_version.
    rewrite (proj1 (find_nonneg_iff_has_char _ _)), has_char_app.
    rewrite split_at_first_separator by reflexivity.
    rewrite (split_without_separator _ _ Hnd).
    reflexivity.
Qed.

Lemma sanitize_version_of_branch_str_witness :
  sanitize_version (make_branch_str (2, 1)) = Loose.new (make_ver_str (2, 1))
  /\ Loose.cmp (sanitize_version (make_branch_str (2, 1)))
               (Loose.new (make_ver_str (2, 1))) = 0
  /\ make_branch_str (2, 1)
     = (if tuple_eqb (2, 1) TRUNK_VER then "trunk"
        else "cassandra-" +:+ make_ver_str (2, 1)).
Proof. apply (sanitize_version_of_branch_str 2 1); lia. Defined.

(** C10. When [a]'s semver has at most three components and [b]'s
    semver string is [a]'s followed by ['-'] and a non-empty suffix,
    [a.__cmp__(b)] is 1 and [b.__cmp__(a)] is -1: the plain release is
    the higher one, whichever side it is on. *)
Theorem GitSemVer_release_above_dashed_tag (a b : GitSemVer) (suffix : string) :
  (length (version (semver a)) <= 3)%nat ->
  suffix <> EmptyString ->
  vstring (semver b) = vstring (semver a) +:+ "-" +:+ suffix ->
  GitSemVer_cmp a b = 1 /\ GitSemVer_cmp b a = -1.
Proof.
  intros Hlen _ Hb.
  assert (Hle : (Z.of_nat (length (version (semver a))) <=? 3) = true)
    by (apply Z.leb_le; lia).
  assert (Hin : PyStr.contains (vstring (semver a) +:+ "-") (vstring (semver b)) = true).
  { rewrite Hb, <- append_assoc. apply contains_at_start. }
  split; unfold GitSemVer_cmp; rewrite Hle.
  - simpl. rewrite Hin. reflexivity.
  - rewrite orb_true_r, Hin.
    destruct (PyStr.contains (vstring (semver b) +:+ "-") (vstring (semver a))) eqn:E;
      [|reflexivity].
    apply contains_is_no_longer in E.
    rewrite Hb, !length_append in E. simpl in E. lia.
Qed.

Lemma GitSemVer_release_above_dashed_tag_witness :
  GitSemVer_cmp (GitSemVer_init "cassandra-3.0.0" "3.0.0")
                (GitSemVer_init "3.0.0-rc1" "3.0.0-rc1") = 1
  /\ GitSemVer_cmp (GitSemVer_init "3.0.0-rc1" "3.0.0-rc1")
                   (GitSemVer_init "cassandra-3.0.0" "3.0.0") = -1.
Proof.
  apply (GitSemVer_release_above_dashed_tag
           (GitSemVer_init "cassandra-3.0.0" "3.0.0")
           (GitSemVer_init "3.0.0-rc1" "3.0.0-rc1") "rc1").
  - simpl. lia.
  - discriminate.
  - reflexivity.
Defined.

End VersionTheorems.

(** ** The polling loop *)

Module WaitTheorems.
Import Upgrade.

(** A world in which the queue holds 10 rows from the start. *)
Definition quiet_outside : outside :=
  mkOutside (fun _ _ => Some 10) (fun _ => None) (fun _ => false) (fun _ => 0)
            false "/opt/cassandra".

Definition empty_world : world := fresh ∅ ["node1"; "node2"; "node3"].

Example wait_satisfied_at_once :
  _wait_until_queue_condition quiet_outside "rows" (mkQueue 0 0) operator_ge 10 300
                              empty_world
  = (Ok tt, empty_world, []).
Proof. reflexivity. Qed.

Example wait_runs_out_of_time :
  outcome (_wait_until_queue_condition quiet_outside "rows" (mkQueue 0 0)
                                       operator_ge 11 1 empty_world)
  = Raise (RuntimeError
             "Ran out of time waiting for queue size (10) to be 'ge' to 11. Aborting.").
Proof. reflexivity. Qed.

Example wait_runs_out_of_time_clock :
  now (after (_wait_until_queue_condition quiet_outside "rows" (mkQueue 0 0)
                                          operator_ge 11 1 empty_world))
  = 1000.
Proof. reflexivity. Qed.

Lemma sleep_advances (o : outside) (ms : Z) (w : world) :
  now w + ms <= now (after (sleep o ms w)).
Proof. unfold sleep, after, tick. simpl. lia. Qed.

(** The loop never stops for lack of fuel when the fuel covers the
    time that is left, at 100 ms a pass. *)
Lemma wait_loop_has_enough_fuel (o : outside) (fuel : nat) (queue : Queue)
      (op : opfunc) (required_len wait_end_time : Z) (qsize : option Z) (w : world) :
  wait_end_time - now w <= 100 * Z.of_nat fuel ->
  wait_loop o fuel queue op required_len wait_end_time qsize w <> None.
Proof.
  revert qsize w. induction fuel as [|fuel IH]; intros qsize w Hfuel; simpl.
  - destruct (now w <? wait_end_time) eqn:E; [|discriminate].
    apply Z.ltb_lt in E. lia.
  - destruct (now w <? wait_end_time) eqn:E; [|discriminate].
    destruct (qsize_at o (queue_id queue) (now w)) as [n|]; [|discriminate].
    destruct (op_apply op n required_len); [discriminate|].
    specialize (IH (Some n) (tick (100 + Z.max 0 (sleep_lag o (now w))) w)).
    destruct (wait_loop o fuel queue op required_len wait_end_time (Some n) _)
      as [[[r w2] es2]|]; [discriminate|].
    apply IH. unfold tick. simpl. lia.
Qed.

Lemma passes_needed_cover (max_wait_ms : Z) :
  max_wait_ms <= 100 * Z.of_nat (passes_needed max_wait_ms).
Proof.
  unfold passes_needed. rewrite Nat2Z.inj_succ.
  destruct (Z.le_gt_cases 0 max_wait_ms) as [H|H].
  - rewrite Z2Nat.id by (apply Z.div_pos; lia).
    pose proof (Z.mod_pos_bound max_wait_ms 100 ltac:(lia)).
    pose proof (Z.div_mod max_wait_ms 100 ltac:(lia)). lia.
  - lia.
Qed.

(** [_wait_until_queue_condition] is the loop: the fall-back of its
    definition is never used. *)
Lemma wait_is_the_loop (o : outside) (label : string) (queue : Queue) (op : opfunc)
      (required_len max_wait_s : Z) (w : world) :
  wait_loop o (passes_needed (1000 * max_wait_s)) queue op required_len
            (now w + 1000 * max_wait_s) None w
  = Some (_wait_until_queue_condition o label queue op required_len max_wait_s w).
Proof.
  unfold _wait_until_queue_condition.
  destruct (wait_loop _ _ _ _ _ _ _ _) as [r|] eqn:E; [reflexivity|].
  exfalso. revert E. apply wait_loop_has_enough_fuel.
  pose proof (passes_needed_cover (1000 * max_wait_s)). lia.
Qed.

(** What a run of the loop can do: sleep 100 ms at a time and let the
    clock advance; it returns, or it raises the exception of the
    [else] clause for the last queue size seen. *)
Lemma wait_loop_effects (o : outside) (fuel : nat) (queue : Queue) (op : opfunc)
      (required_len wait_end_time : Z) (qsize : option Z) (w : world)
      (x : result unit * world * list event) :
  wait_loop o fuel queue op required_len wait_end_time qsize w = Some x ->
  Forall (fun e => e = Sleep 100) (events x)
  /\ (exists elapsed, 0 <= elapsed /\ after x = tick elapsed w)
  /\ (outcome x = Ok tt
      \/ exists last, outcome x = Raise (out_of_time last op required_len)
                      /\ wait_end_time <= now (after x)
                      /\ (last = qsize \/ (exists n, last = Some n))).
Proof.
  revert qsize w x. induction fuel as [|fuel IH]; intros qsize w x; simpl.
  - destruct (now w <? wait_end_time) eqn:E; [discriminate|].
    intros [= <-]. apply Z.ltb_ge in E. split; [constructor|]. split.
    + exists 0. split; [lia|]. destruct w; unfold tick, after; simpl.
      rewrite Z.add_0_r. reflexivity.
    + right. exists qsize. auto.
  - destruct (now w <? wait_end_time) eqn:E.
    + destruct (qsize_at o (queue_id queue) (now w)) as [n|].
      * destruct (op_apply op n required_len).
        -- intros [= <-]. split; [constructor|]. split; [|left; reflexivity].
           exists 0. split; [lia|]. destruct w; unfold tick, after; simpl.
           rewrite Z.add_0_r. reflexivity.
        -- destruct (wait_loop o fuel queue op required_len wait_end_time (Some n) _)
             as [[[r w2] es2]|] eqn:Hrec; [|discriminate].
           intros [= <-]. apply IH in Hrec.
           destruct Hrec as (Hev & (el & Hel & Haft) & Hout).
           unfold events, after, outcome in *. simpl in *.
           split; [constructor; [reflexivity | exact Hev]|]. split.
           ++ exists (100 + Z.max 0 (sleep_lag o (now w)) + el). split; [lia|].
              rewrite Haft. unfold tick. simpl. f_equal. lia.
           ++ destruct Hout as [Hok|(last & Hl & Hend & Hlast)]; [left; exact Hok|].
              right. exists last. split; [exact Hl|]. split; [exact Hend|].
              right. destruct Hlast as [->|Hn]; [eexists; reflexivity | exact Hn].
      * intros [= <-]. split; [constructor|]. split; [|left; reflexivity].
        exists 0. split; [lia|]. destruct w; unfold tick, after; simpl.
        rewrite Z.add_0_r. reflexivity.
    + intros [= <-]. apply Z.ltb_ge in E. split; [constructor|]. split.
      * exists 0. split; [lia|]. destruct w; unfold tick, after; simpl.
        rewrite Z.add_0_r. reflexivity.
      * right. exists qsize. auto.
Qed.

(** A call only sleeps; it changes nothing but the clock. *)
Lemma wait_effects (o : outside) (label : string) (queue : Queue) (op : opfunc)
      (required_len max_wait_s : Z) (w : world) :
  Forall (fun e => e = Sleep 100)
         (events (_wait_until_queue_condition o label queue op required_len max_wait_s w))
  /\ exists elapsed,
      0 <= elapsed
      /\ after (_wait_until_queue_condition o label queue op required_len max_wait_s w)
         = tick elapsed w.
Proof.
  pose proof (wait_is_the_loop o label queue op required_len max_wait_s w) as H.
  apply wait_loop_effects in H. destruct H as (H1 & H2 & _). auto.
Qed.

(** With time to wait, the first pass binds [qsize]: the call returns
    or raises [RuntimeError], with the last size seen in the message. *)
Lemma wait_returns_or_raises_RuntimeError (o : outside) (label : string)
      (queue : Queue) (op : opfunc) (required_len max_wait_s : Z) (w : world) :
  0 < max_wait_s ->
  outcome (_wait_until_queue_condition o label queue op required_len max_wait_s w) = Ok tt
  \/ exists n,
      outcome (_wait_until_queue_condition o label queue op required_len max_wait_s w)
      = Raise (RuntimeError (out_of_time_message n op required_len))
      /\ now w + 1000 * max_wait_s
         <= now (after (_wait_until_queue_condition o label queue op required_len
                                                    max_wait_s w)).
Proof.
  intros Hpos.
  pose proof (wait_is_the_loop o label queue op required_len max_wait_s w) as H.
  set (x := _wait_until_queue_condition o label queue op required_len max_wait_s w) in *.
  unfold passes_needed in H. simpl in H.
  destruct (now w <? now w + 1000 * max_wait_s) eqn:E;
    [|apply Z.ltb_ge in E; lia].
  destruct (qsize_at o (queue_id queue) (now w)) as [n|].
  - destruct (op_apply op n required_len).
    + injection H as <-. left. reflexivity.
    + destruct (wait_loop _ _ _ _ _ _ (Some n) _) as [[[r w2] es2]|] eqn:Hrec;
        [|discriminate].
      injection H as <-. apply wait_loop_effects in Hrec.
      destruct Hrec as (_ & _ & [Hok|(last & Hl & Hend & Hlast)]).
      * left. exact Hok.
      * right. unfold outcome, after in *. simpl in *.
        destruct Hlast as [->|[m ->]]; eexists; split; eauto.
  - injection H as <-. left. reflexivity.
Qed.

(** The call returns as soon as a pass finds the condition true. *)
Lemma wait_returns_when_condition_holds (o : outside) (label : string)
      (queue : Queue) (op : opfunc) (required_len max_wait_s n : Z) (w : world) :
  0 < max_wait_s ->
  qsize_at o (queue_id queue) (now w) = Some n ->
  op_apply op n required_len = true ->
  _wait_until_queue_condition o label queue op required_len max_wait_s w = (Ok tt, w, []).
Proof.
  intros Hpos Hq Hop.
  pose proof (wait_is_the_loop o label queue op required_len max_wait_s w) as H.
  unfold passes_needed in H. simpl in H.
  destruct (now w <? now w + 1000 * max_wait_s) eqn:E;
    [|apply Z.ltb_ge in E; lia].
  rewrite Hq, Hop in H. congruence.
Qed.

(** A queue whose size cannot be read does not block. *)
Lemma wait_returns_when_qsize_not_implemented (o : outside) (label : string)
      (queue : Queue) (op : opfunc) (required_len max_wait_s : Z) (w : world) :
  0 < max_wait_s ->
  qsize_at o (queue_id queue) (now w) = None ->
  _wait_until_queue_condition o label queue op required_len max_wait_s w = (Ok tt, w, []).
Proof.
  intros Hpos Hq.
  pose proof (wait_is_the_loop o label queue op required_len max_wait_s w) as H.
  unfold passes_needed in H. simpl in H.
  destruct (now w <? now w + 1000 * max_wait_s) eqn:E;
    [|apply Z.ltb_ge in E; lia].
  rewrite Hq in H. congruence.
Qed.

(** The clock readings at which the loop looks at the queue: each
    pass begins when the sleep of the one before ends. *)
Definition next_poll (o : outside) (t : Z) : Z := t + (100 + Z.max 0 (sleep_lag o t)).

Fixpoint poll_time (o : outside) (t : Z) (i : nat) : Z :=
  match i with
  | O => t
  | S j => poll_time o (next_poll o t) j
  end.

(** What a pass at time [t] finds: the condition true, or a queue
    whose size cannot be read. *)
Definition satisfied (o : outside) (queue : Queue) (op : opfunc) (required_len t : Z) : bool :=
  match qsize_at o (queue_id queue) t with
  | None => true
  | Some n => op_apply op n required_len
  end.

Lemma poll_time_grows (o : outside) (t : Z) (i : nat) : t <= poll_time o t i.
Proof.
  revert t. induction i as [|i IH]; intros t; simpl; [lia|].
  specialize (IH (next_poll o t)). unfold next_poll in *. lia.
Qed.

Lemma now_after_sleep (o : outside) (w : world) :
  now (tick (100 + Z.max 0 (sleep_lag o (now w))) w) = next_poll o (now w).
Proof. reflexivity. Qed.

(** The loop returns exactly when some pass that begins before the
    deadline is satisfied. *)
Lemma wait_loop_returns_iff (o : outside) (fuel : nat) (queue : Queue) (op : opfunc)
      (required_len wait_end_time : Z) (qsize : option Z) (w : world)
      (x : result unit * world * list event) :
  wait_loop o fuel queue op required_len wait_end_time qsize w = Some x ->
  (outcome x = Ok tt
   <-> exists i, poll_time o (now w) i < wait_end_time
                 /\ satisfied o queue op required_len (poll_time o (now w) i) = true).
Proof.
  revert qsize w x. induction fuel as [|fuel IH]; intros qsize w x; simpl.
  - destruct (now w <? wait_end_time) eqn:E; [discriminate|].
    intros [= <-]. apply Z.ltb_ge in E. split; [discriminate|].
    intros (i & Hi & _). pose proof (poll_time_grows o (now w) i). lia.
  - destruct (now w <? wait_end_time) eqn:E.
    + apply Z.ltb_lt in E.
      destruct (qsize_at o (queue_id queue) (now w)) as [n|] eqn:Hq.
      * destruct (op_apply op n required_len) eqn:Hop.
        -- intros [= <-]. split; [|reflexivity]. intros _. exists O. simpl.
           unfold satisfied. rewrite Hq, Hop. auto.
        -- destruct (wait_loop o fuel queue op required_len wait_end_time (Some n) _)
             as [[[r w2] es2]|] eqn:Hrec; [|discriminate].
           intros [= <-]. apply IH in Hrec. rewrite now_after_sleep in Hrec.
           unfold outcome in *. simpl in *. rewrite Hrec. split.
           ++ intros (i & Hi & Hs). exists (S i). auto.
           ++ intros ([|i] & Hi & Hs).
              ** simpl in Hs. unfold satisfied in Hs. rewrite Hq, Hop in Hs. discriminate.
              ** exists i. auto.
      * intros [= <-]. split; [|reflexivity]. intros _. exists O. simpl.
        unfold satisfied. rewrite Hq. auto.
    + intros [= <-]. apply Z.ltb_ge in E. split; [discriminate|].
      intros (i & Hi & _). pose proof (poll_time_grows o (now w) i). lia.
Qed.

(** No pass begins once the deadline has passed: the call ends where
    it began, or at the end of a sleep begun before the deadline. *)
Lemma wait_loop_stops_at_deadline (o : outside) (fuel : nat) (queue : Queue) (op : opfunc)
      (required_len wait_end_time : Z) (qsize : option Z) (w : world)
      (x : result unit * world * list event) :
  wait_loop o fuel queue op required_len wait_end_time qsize w = Some x ->
  now (after x) = now w
  \/ exists t, t < wait_end_time /\ now (after x) = next_poll o t.
Proof.
  revert qsize w x. induction fuel as [|fuel IH]; intros qsize w x; simpl.
  - destruct (now w <? wait_end_time); [discriminate|]. intros [= <-]. left. reflexivity.
  - destruct (now w <? wait_end_time) eqn:E; [|intros [= <-]; left; reflexivity].
    apply Z.ltb_lt in E.
    destruct (qsize_at o (queue_id queue) (now w)) as [n|];
      [|intros [= <-]; left; reflexivity].
    destruct (op_apply op n required_len); [intros [= <-]; left; reflexivity|].
    destruct (wait_loop o fuel queue op required_len wait_end_time (Some n) _)
      as [[[r w2] es2]|] eqn:Hrec; [|discriminate].
    intros [= <-]. apply IH in Hrec. rewrite now_after_sleep in Hrec.
    unfold after in *. simpl in *. right.
    destruct Hrec as [->|(t & Ht & ->)]; eauto.
Qed.

(** A call that has time to wait: when it returns, when it raises
    [RuntimeError], and when it stops waiting. *)
Lemma wait_with_time (o : outside) (label : string) (queue : Queue) (op : opfunc)
      (required_len max_wait_s : Z) (w : world) :
  0 < max_wait_s ->
  (* it returns if some pass before the deadline is satisfied *)
  ((exists i, poll_time o (now w) i < now w + 1000 * max_wait_s
              /\ satisfied o queue op required_len (poll_time o (now w) i) = true) ->
   outcome (_wait_until_queue_condition o label queue op required_len max_wait_s w) = Ok tt)
  (* it raises RuntimeError if none is *)
  /\ ((forall i, poll_time o (now w) i < now w + 1000 * max_wait_s ->
                 satisfied o queue op required_len (poll_time o (now w) i) = false) ->
      exists n,
        outcome (_wait_until_queue_condition o label queue op required_len max_wait_s w)
        = Raise (RuntimeError (out_of_time_message n op required_len)))
  (* and it begins no pass once the deadline has passed *)
  /\ (now (after (_wait_until_queue_condition o label queue op required_len max_wait_s w))
      = now w
      \/ exists t,
          t < now w + 1000 * max_wait_s
          /\ now (after (_wait_until_queue_condition o label queue op required_len
                                                     max_wait_s w))
             = next_poll o t).
Proof.
  intros Hpos.
  pose proof (wait_is_the_loop o label queue op required_len max_wait_s w) as H.
  split; [|split].
  - intros Hex. apply (wait_loop_returns_iff _ _ _ _ _ _ _ _ _ H). exact Hex.
  - intros Hnone.
    destruct (wait_returns_or_raises_RuntimeError o label queue op required_len
                                                  max_wait_s w Hpos)
      as [Hok|(n & Hn & _)]; [|eauto].
    apply (wait_loop_returns_iff _ _ _ _ _ _ _ _ _ H) in Hok.
    destruct Hok as (i & Hi & Hs). rewrite (Hnone i Hi) in Hs. discriminate.
  - apply (wait_loop_stops_at_deadline _ _ _ _ _ _ _ _ _ H).
Qed.

(** C3 at the failing input. With [max_wait_s <= 0] the loop body
    never runs, the [else] clause formats a [qsize] that was never
    bound, and the call leaves with [UnboundLocalError] where the
    docstring promises [RuntimeError]. *)
Theorem wait_without_time_raises_UnboundLocalError (o : outside) (label : string)
        (queue : Queue) (op : opfunc) (required_len max_wait_s : Z) (w : world) :
  max_wait_s <= 0 ->
  _wait_until_queue_condition o label queue op required_len max_wait_s w
  = (Raise (UnboundLocalError "qsize"), w, []).
Proof.
  intros Hneg.
  pose proof (wait_is_the_loop o label queue op required_len max_wait_s w) as H.
  unfold passes_needed in H. simpl in H.
  destruct (now w <? now w + 1000 * max_wait_s) eqn:E;
    [apply Z.ltb_lt in E; lia|].
  simpl in H. congruence.
Qed.

Lemma wait_without_time_raises_UnboundLocalError_witness :
  _wait_until_queue_condition quiet_outside "rows written (but not verified)"
                              (mkQueue 0 0) operator_ge 5000 0 empty_world
  = (Raise (UnboundLocalError "qsize"), empty_world, []).
Proof.
  apply (wait_without_time_raises_UnboundLocalError quiet_outside
           "rows written (but not verified)" (mkQueue 0 0) operator_ge 5000 0 empty_world).
  lia.
Defined.

End WaitTheorems.

(** ** Checking on and terminating the subprocesses *)

Module SubprocessTheorems.
Import Upgrade.
Local Open Scope upgrade_scope.

(** [bind] after a computation that cannot fail and emits nothing. *)
Lemma bind_gets {A B} (f : world -> A) (k : A -> M B) (w : world) :
  bind (gets f) k w = k (f w) w.
Proof. unfold bind, gets. destruct (k (f w) w) as [[r w2] es]. reflexivity. Qed.

Lemma bind_ret {A B} (a : A) (k : A -> M B) (w : world) :
  bind (ret a) k w = k a w.
Proof. unfold bind, ret. destruct (k a w) as [[r w2] es]. reflexivity. Qed.

(** One turn of the loop of [_terminate_subprocs]. *)
Definition terminate_one (o : outside) (s : Process) : M unit :=
  alive <- gets (fun w => is_alive o w s) ;;
  if alive then try_except (psutil_kill o s) (ret tt) else ret tt.

Definition with_gone (p : nat) (w : world) : world :=
  mkWorld (now w) (subprocs w) ({[ p ]} ∪ gone w) (environ w) (nodelist w)
          (processes_made w) (queues_made w).

Lemma terminate_one_cases (o : outside) (s : Process) (w : world) :
  terminate_one o s w
  = if is_alive o w s
    then (Ok tt, (if kill_raises o (pid s) then w else with_gone (pid s) w), [Kill (pid s)])
    else (Ok tt, w, []).
Proof.
  unfold terminate_one. rewrite bind_gets.
  destruct (is_alive o w s); [|reflexivity].
  unfold try_except, psutil_kill, bind, emit, raise, mark_gone, ret, with_gone.
  destruct (kill_raises o (pid s)); reflexivity.
Qed.

Lemma terminate_subprocs_unfold (o : outside) (w : world) :
  _terminate_subprocs o w = for_each (subprocs w) (terminate_one o) w.
Proof. unfold _terminate_subprocs. rewrite bind_gets. reflexivity. Qed.

(** A process that is dead stays dead while the clock stands still
    and [gone] only grows. *)
Lemma is_alive_antitone (o : outside) (w w' : world) (s : Process) :
  now w' = now w -> gone w ⊆ gone w' ->
  is_alive o w' s = true -> is_alive o w s = true.
Proof.
  unfold is_alive. intros Hnow Hgone H.
  apply andb_true_iff in H as [H1 H2]. apply andb_true_iff. split.
  - apply negb_true_iff, bool_decide_eq_false in H1.
    apply negb_true_iff, bool_decide_eq_false.
    intros Hin. apply H1, Hgone, Hin.
  - rewrite <- Hnow. exact H2.
Qed.

Lemma with_gone_not_alive (o : outside) (s : Process) (w : world) :
  is_alive o (with_gone (pid s) w) s = false.
Proof.
  unfold is_alive, with_gone. simpl.
  rewrite bool_decide_eq_true_2
    by (apply elem_of_union_l, elem_of_singleton; reflexivity).
  reflexivity.
Qed.

(** Everything the loop of [_terminate_subprocs] does. *)
Lemma terminate_each_effects (o : outside) (subs : list Process) (w : world) :
  let x := for_each subs (terminate_one o) w in
  outcome x = Ok tt
  /\ now (after x) = now w
  /\ subprocs (after x) = subprocs w
  /\ environ (after x) = environ w
  /\ nodelist (after x) = nodelist w
  /\ gone w ⊆ gone (after x)
  /\ (forall s, In s subs -> is_alive o w s = true -> In (Kill (pid s)) (events x))
  /\ (forall s, In s subs -> kill_raises o (pid s) = false ->
                is_alive o (after x) s = false)
  /\ (forall e, In e (events x) ->
                exists s, In s subs /\ is_alive o w s = true /\ e = Kill (pid s))
  /\ (forall p, p ∈ gone (after x) ->
                p ∈ gone w \/ exists s, In s subs /\ pid s = p /\ is_alive o w s = true).
Proof.
  revert w. induction subs as [|s subs IH]; intros w.
  - simpl. unfold ret, outcome, after, events. simpl.
    repeat split; try reflexivity; try contradiction; auto.
  - cbn [for_each]. unfold bind. rewrite terminate_one_cases.
    set (w1 := if kill_raises o (pid s) then w else with_gone (pid s) w).
    assert (Hnow1 : now w1 = now w) by (subst w1; destruct (kill_raises o (pid s)); reflexivity).
    assert (Hsub1 : subprocs w1 = subprocs w) by (subst w1; destruct (kill_raises o (pid s)); reflexivity).
    assert (Henv1 : environ w1 = environ w) by (subst w1; destruct (kill_raises o (pid s)); reflexivity).
    assert (Hnod1 : nodelist w1 = nodelist w) by (subst w1; destruct (kill_raises o (pid s)); reflexivity).
    assert (Hgone1 : gone w ⊆ gone w1)
      by (subst w1; destruct (kill_raises o (pid s)); simpl;
          [reflexivity | apply union_subseteq_r]).
    assert (Hgone1' : forall p, p ∈ gone w1 -> p ∈ gone w \/ p = pid s).
    { subst w1. destruct (kill_raises o (pid s)); simpl; intros p Hp; [left; exact Hp|].
      apply elem_of_union in Hp as [Hp|Hp]; [right | left; exact Hp].
      apply elem_of_singleton in Hp. exact Hp. }
    destruct (is_alive o w s) eqn:Halive.
    + specialize (IH w1). cbv zeta in IH.
      destruct (for_each subs (terminate_one o) w1) as [[r w2] es] eqn:E.
      unfold outcome, after, events in *. simpl in *.
      destruct IH as (Hout & Hnow & Hsub & Henv & Hnod & Hgone & Hkill & Hdead & Hev & Hg).
      split; [exact Hout|]. split; [congruence|]. split; [congruence|].
      split; [congruence|]. split; [congruence|].
      split; [transitivity (gone w1); assumption|].
      split; [|split; [|split]].
      * intros s' [<-|Hin] Hal; [left; reflexivity|].
        destruct (is_alive o w1 s') eqn:Hal1.
        -- right. apply Hkill; assumption.
        -- left. subst w1. destruct (kill_raises o (pid s)); [congruence|].
           unfold is_alive in Hal, Hal1. simpl in Hal1.
           apply andb_true_iff in Hal as [Ha Hb]. rewrite Hb, andb_true_r in Hal1.
           apply negb_false_iff, bool_decide_eq_true in Hal1.
           apply negb_true_iff, bool_decide_eq_false in Ha.
           f_equal. apply elem_of_union in Hal1 as [Hal1|Hal1]; [|contradiction].
           apply elem_of_singleton in Hal1. symmetry. exact Hal1.
      * intros s' [<-|Hin] Hraise.
        -- destruct (is_alive o w2 s) eqn:Hal2; [|reflexivity].
           apply (is_alive_antitone o w1 w2) in Hal2; [|congruence|exact Hgone].
           subst w1. rewrite Hraise in Hal2. rewrite with_gone_not_alive in Hal2.
           discriminate.
        -- apply Hdead; assumption.
      * intros e [<-|Hin]; [exists s; auto|].
        destruct (Hev e Hin) as (s' & Hs' & Hal & ->).
        exists s'. split; [auto|]. split; [|reflexivity].
        apply (is_alive_antitone o w w1); auto.
      * intros p Hp. destruct (Hg p Hp) as [Hp1|(s' & Hs' & Hpid & Hal)].
        -- destruct (Hgone1' p Hp1) as [?| ->]; [left; assumption|].
           right. exists s. auto.
        -- right. exists s'. split; [auto|]. split; [exact Hpid|].
           apply (is_alive_antitone o w w1); auto.
    + assert (w1 = w \/ True) by auto.
      specialize (IH w). cbv zeta in IH.
      destruct (for_each subs (terminate_one o) w) as [[r w2] es] eqn:E.
      unfold outcome, after, events in *. simpl in *.
      destruct IH as (Hout & Hnow & Hsub & Henv & Hnod & Hgone & Hkill & Hdead & Hev & Hg).
      split; [exact Hout|]. split; [exact Hnow|]. split; [exact Hsub|].
      split; [exact Henv|]. split; [exact Hnod|]. split; [exact Hgone|].
      split; [|split; [|split]].
      * intros s' [<-|Hin] Hal; [congruence | apply Hkill; assumption].
      * intros s' [<-|Hin] Hraise; [|apply Hdead; assumption].
        destruct (is_alive o w2 s) eqn:Hal2; [|reflexivity].
        apply (is_alive_antitone o w w2) in Hal2; [congruence|congruence|exact Hgone].
      * intros e Hin. destruct (Hev e Hin) as (s' & Hs' & Hal & ->).
        exists s'. auto.
      * intros p Hp. destruct (Hg p Hp) as [Hp1|(s' & Hs' & Hpid & Hal)]; [left; exact Hp1|].
        right. exists s'. auto.
Qed.

Definition early_exit_message (o : outside) (w : world) (subprocs : list Process) : string :=
  "A subprocess has terminated early. Subprocess statuses: "
  +:+ String.concat "" (map (status_line o w) subprocs)
  +:+ "attempting to terminate remaining subprocesses now.".

(** The two branches of [_check_on_subprocs]. *)
Lemma check_on_subprocs_cases (o : outside) (subs : list Process) (w : world) :
  _check_on_subprocs o subs w
  = if forallb (is_alive o w) subs then (Ok tt, w, [])
    else (Raise (RuntimeError (early_exit_message o w subs)),
          after (_terminate_subprocs o w), events (_terminate_subprocs o w)).
Proof.
  unfold _check_on_subprocs. rewrite bind_gets.
  assert (Hall : forallb id (map (is_alive o w) subs) = forallb (is_alive o w) subs).
  { induction subs as [|s subs IH]; simpl; [reflexivity | rewrite IH; reflexivity]. }
  rewrite Hall. destruct (forallb (is_alive o w) subs); [reflexivity|].
  cbn [negb]. rewrite bind_gets. fold (early_exit_message o w subs).
  pose proof (terminate_each_effects o (subprocs w) w) as H. cbv zeta in H.
  rewrite <- terminate_subprocs_unfold in H.
  unfold bind, raise.
  destruct (_terminate_subprocs o w) as [[r w2] es].
  unfold outcome, after, events in *. simpl in *.
  destruct H as (-> & _). rewrite app_nil_r. reflexivity.
Qed.

(** Two subprocesses of the test: the first has exited, the second
    runs on and cannot be killed. *)
Definition writer : Process :=
  mkProcess "Process-1" 1 data_writer (mkQueue 0 0) (mkQueue 1 500) (Some 25) true.
Definition verifier : Process :=
  mkProcess "Process-2" 2 data_checker (mkQueue 0 0) (mkQueue 1 500) None true.

Definition stubborn : outside :=
  mkOutside (fun _ _ => Some 0)
            (fun p => if Nat.eqb p 1 then Some 0 else None)
            (fun p => Nat.eqb p 2)
            (fun _ => 0) false "/opt/cassandra".

Definition obedient : outside :=
  mkOutside (fun _ _ => Some 0)
            (fun p => if Nat.eqb p 1 then Some 0 else None)
            (fun _ => false)
            (fun _ => 0) false "/opt/cassandra".

Definition running : world := mkWorld 5 [writer; verifier] ∅ ∅ ["node1"] 2 2.

Example check_kills_the_rest :
  _check_on_subprocs obedient [writer; verifier] running
  = (Raise (RuntimeError
              ("A subprocess has terminated early. Subprocess statuses: "
               +:+ "Process-1 (is_alive: False), Process-2 (is_alive: True), "
               +:+ "attempting to terminate remaining subprocesses now.")),
     mkWorld 5 [writer; verifier] ({[ 2%nat ]} ∪ ∅) ∅ ["node1"] 2 2,
     [Kill 2]).
Proof. reflexivity. Qed.

(** C5, as stated, fails when a kill raises: the exception of
    [psutil] is swallowed, [RuntimeError] is raised all the same, and
    the subprocess that was still alive is alive afterwards. *)
Lemma check_on_subprocs_leaves_lingering_process :
  forallb (is_alive stubborn running) [writer; verifier] = false
  /\ (exists message,
        outcome (_check_on_subprocs stubborn [writer; verifier] running)
        = Raise (RuntimeError message))
  /\ In verifier (subprocs running)
  /\ is_alive stubborn running verifier = true
  /\ is_alive stubborn (after (_check_on_subprocs stubborn [writer; verifier] running))
              verifier = true.
Proof.
  split; [reflexivity|]. split; [eexists; reflexivity|].
  split; [right; left; reflexivity|]. split; reflexivity.
Qed.

(** C5, amended. When all the monitored subprocesses are alive,
    [_check_on_subprocs] returns and changes nothing. When one is not,
    it calls kill on every subprocess of the test that is still alive
    and then raises [RuntimeError]; a kill that raises is ignored, and
    every subprocess whose kill does not raise is dead afterwards. *)
Theorem check_on_subprocs_kills_then_raises (o : outside) (subs : list Process) (w : world) :
  (forallb (is_alive o w) subs = true ->
   _check_on_subprocs o subs w = (Ok tt, w, []))
  /\ (forallb (is_alive o w) subs = false ->
      outcome (_check_on_subprocs o subs w)
      = Raise (RuntimeError (early_exit_message o w subs))
      /\ (forall s, In s (subprocs w) -> is_alive o w s = true ->
                    In (Kill (pid s)) (events (_check_on_subprocs o subs w)))
      /\ (forall e, In e (events (_check_on_subprocs o subs w)) ->
                    exists s, In s (subprocs w) /\ is_alive o w s = true /\ e = Kill (pid s))
      /\ (forall s, In s (subprocs w) -> kill_raises o (pid s) = false ->
                    is_alive o (after (_check_on_subprocs o subs w)) s = false)).
Proof.
  rewrite check_on_subprocs_cases. split; intros ->; [reflexivity|].
  pose proof (terminate_each_effects o (subprocs w) w) as H. cbv zeta in H.
  rewrite <- terminate_subprocs_unfold in H.
  destruct H as (_ & _ & _ & _ & _ & _ & Hkill & Hdead & Hev & _).
  unfold outcome, after, events in *. simpl.
  split; [reflexivity|]. split; [exact Hkill|]. split; [exact Hev | exact Hdead].
Qed.

Lemma check_on_subprocs_kills_then_raises_witness :
  outcome (_check_on_subprocs obedient [writer; verifier] running)
  = Raise (RuntimeError (early_exit_message obedient running [writer; verifier]))
  /\ (forall s, In s (subprocs running) -> is_alive obedient running s = true ->
                In (Kill (pid s))
                   (events (_check_on_subprocs obedient [writer; verifier] running)))
  /\ (forall e, In e (events (_check_on_subprocs obedient [writer; verifier] running)) ->
                exists s, In s (subprocs running)
                          /\ is_alive obedient running s = true /\ e = Kill (pid s))
  /\ (forall s, In s (subprocs running) -> kill_raises obedient (pid s) = false ->
                is_alive obedient
                         (after (_check_on_subprocs obedient [writer; verifier] running))
                         s = false).
Proof.
  apply (proj2 (check_on_subprocs_kills_then_raises obedient [writer; verifier] running)).
  reflexivity.
Defined.

End SubprocessTheorems.

(** ** The rolling upgrade, node by node *)

Module RollingUpgradeTheorems.
Import Upgrade SubprocessTheorems WaitTheorems.
Local Open Scope upgrade_scope.

(** The calls that make up the upgrade of a node. *)
Definition is_node_op (e : event) : bool :=
  match e with
  | NodeDrain _ | NodeStop _ | NodeSetInstallDir _ _ | NodeStart _ | NodeNodetool _ _ => true
  | _ => false
  end.

Definition node_ops (es : list event) : list event := List.filter is_node_op es.

(** Where the nodes find the binaries of [tag]. *)
Definition install_source (o : outside) (w : world) (tag : string) : install :=
  if LOCAL_MODE o then InstallDir (cassandra_dir o w)
  else InstallVersion ("git:" +:+ tag).

(** One node taken to [tag]: drained, stopped, given the install
    directory of [tag], started again, its sstables upgraded. *)
Definition upgrade_of (o : outside) (w : world) (tag node : string) : list event :=
  [NodeDrain node; NodeStop node; NodeSetInstallDir node (install_source o w tag);
   NodeStart node; NodeNodetool node "upgradesstables -a"].

(** Every version after the first, one after the other; within a
    version every node, in the order of the node list. *)
Definition schedule (o : outside) (w : world) (versions : list string) : list event :=
  flat_map (fun tag => flat_map (upgrade_of o w tag) (nodelist w)) (tail versions).

(** The part of the world the schedule depends on. *)
Definition same_cluster (w w' : world) : Prop :=
  nodelist w' = nodelist w
  /\ environ w' !! "CASSANDRA_DIR" = environ w !! "CASSANDRA_DIR".

(** The node operations of a run are a prefix of [spec], and all of
    [spec] when the run did not raise. *)
Definition tracks {A} (spec : list event) (x : result A * world * list event) : Prop :=
  node_ops (events x) `prefix_of` spec
  /\ (is_ok (outcome x) = true -> node_ops (events x) = spec).

Definition follows {A} (w0 : world) (spec : list event) (c : M A) : Prop :=
  forall w, same_cluster w0 w -> same_cluster w0 (after (c w)) /\ tracks spec (c w).

(** A computation that performs no node operation. *)
Definition quiet {A} (c : M A) : Prop := forall w0, follows w0 [] c.

Lemma same_cluster_refl (w : world) : same_cluster w w.
Proof. split; reflexivity. Qed.

Section Composition.
Variable w0 : world.

Lemma follows_eq {A} (spec spec' : list event) (c : M A) :
  follows w0 spec' c -> spec' = spec -> follows w0 spec c.
Proof. intros H <-. exact H. Qed.

Lemma follows_bind {A B} (s1 s2 : list event) (c : M A) (k : A -> M B) :
  follows w0 s1 c -> (forall a, follows w0 s2 (k a)) ->
  follows w0 (s1 ++ s2) (bind c k).
Proof.
  intros Hc Hk w Hw. unfold bind.
  destruct (Hc w Hw) as (Hsame & Hpre & Heq).
  destruct (c w) as [[[a|e] w1] es1]; unfold after, events, outcome in *; simpl in *.
  - rewrite (Heq eq_refl) in *.
    destruct (Hk a w1 Hsame) as (Hsame2 & Hpre2 & Heq2).
    destruct (k a w1) as [[r2 w2] es2]; unfold after, events, outcome in *; simpl in *.
    split; [exact Hsame2|]. unfold tracks, events, outcome, node_ops in *. simpl.
    rewrite List.filter_app, (Heq eq_refl). split.
    + apply prefix_app. exact Hpre2.
    + intros Hok. rewrite (Heq2 Hok). reflexivity.
  - split; [exact Hsame|]. unfold tracks, events, outcome. simpl.
    split; [|discriminate]. apply prefix_app_r. exact Hpre.
Qed.

Lemma follows_bind_gets {A B} (spec : list event) (f : world -> A) (k : A -> M B) :
  (forall w, same_cluster w0 w -> follows w0 spec (k (f w))) ->
  follows w0 spec (bind (gets f) k).
Proof. intros H w Hw. rewrite bind_gets. exact (H w Hw w Hw). Qed.

Lemma follows_bind_ret {A B} (spec : list event) (a : A) (k : A -> M B) :
  follows w0 spec (k a) -> follows w0 spec (bind (ret a) k).
Proof. intros H w Hw. rewrite bind_ret. exact (H w Hw). Qed.

Lemma follows_ret {A} (a : A) : follows w0 [] (ret a).
Proof.
  intros w Hw. unfold ret, after, tracks, events, outcome. simpl.
  split; [exact Hw|]. split; [apply prefix_nil | reflexivity].
Qed.

Lemma follows_raise {A} (e : exn) : follows w0 [] (@raise A e).
Proof.
  intros w Hw. unfold raise, after, tracks, events, outcome. simpl.
  split; [exact Hw|]. split; [apply prefix_nil | reflexivity].
Qed.

Lemma follows_emit_node (e : event) :
  is_node_op e = true -> follows w0 [e] (emit e).
Proof.
  intros He w Hw. unfold emit, after, tracks, events, outcome, node_ops. simpl.
  rewrite He. split; [exact Hw|]. split; reflexivity.
Qed.

Lemma follows_emit_other (e : event) :
  is_node_op e = false -> follows w0 [] (emit e).
Proof.
  intros He w Hw. unfold emit, after, tracks, events, outcome, node_ops. simpl.
  rewrite He. split; [exact Hw|]. split; reflexivity.
Qed.

Lemma follows_for_each {A} (spec : A -> list event) (body : A -> M unit) (l : list A) :
  (forall a, follows w0 (spec a) (body a)) ->
  follows w0 (flat_map spec l) (for_each l body).
Proof.
  intros Hbody. induction l as [|a l IH]; simpl.
  - apply follows_ret.
  - apply follows_bind; [apply Hbody | intros _; exact IH].
Qed.

End Composition.

Lemma quiet_follows {A} (w0 : world) (c : M A) : quiet c -> follows w0 [] c.
Proof. intros H. apply H. Qed.

Lemma quiet_bind {A B} (c : M A) (k : A -> M B) :
  quiet c -> (forall a, quiet (k a)) -> quiet (bind c k).
Proof.
  intros Hc Hk w0. apply (follows_bind w0 [] []); [apply Hc | intros a; apply Hk].
Qed.

Lemma quiet_ret {A} (a : A) : quiet (ret a).
Proof. intros w0. apply follows_ret. Qed.

Lemma quiet_raise {A} (e : exn) : quiet (@raise A e).
Proof. intros w0. apply follows_raise. Qed.

Lemma quiet_gets {A} (f : world -> A) : quiet (gets f).
Proof. intros w0 w Hw. exact (follows_ret w0 (f w) w Hw). Qed.

Lemma quiet_emit (e : event) : is_node_op e = false -> quiet (emit e).
Proof. intros He w0. apply follows_emit_other. exact He. Qed.

Lemma quiet_for_each {A} (body : A -> M unit) (l : list A) :
  (forall a, quiet (body a)) -> quiet (for_each l body).
Proof.
  intros Hbody. induction l as [|a l IH]; simpl.
  - apply quiet_ret.
  - apply quiet_bind; [apply Hbody | intros _; exact IH].
Qed.

Lemma quiet_try_except {A} (c handler : M A) :
  quiet c -> quiet handler -> quiet (try_except c handler).
Proof.
  intros Hc Hh w0 w Hw. unfold try_except.
  destruct (Hc w0 w Hw) as (Hsame & Hpre & Heq).
  destruct (c w) as [[[a|e] w1] es1]; unfold after, events, outcome in *; simpl in *.
  - split; [exact Hsame|]. split; [exact Hpre | exact Heq].
  - destruct (Hh w0 w1 Hsame) as (Hsame2 & Hpre2 & Heq2).
    destruct (handler w1) as [[r2 w2] es2]; unfold after, events, outcome in *; simpl in *.
    apply prefix_nil_inv in Hpre. apply prefix_nil_inv in Hpre2.
    split; [exact Hsame2|]. unfold tracks, events, outcome, node_ops in *. simpl.
    rewrite List.filter_app, Hpre, Hpre2.
    split; [apply prefix_nil | reflexivity].
Qed.

(** A step that returns, emits no node operation and leaves the node
    list and [CASSANDRA_DIR] alone. *)
Lemma quiet_step {A} (c : M A) :
  (forall w, exists a w' es,
      c w = (Ok a, w', es) /\ node_ops es = []
      /\ nodelist w' = nodelist w
      /\ environ w' !! "CASSANDRA_DIR" = environ w !! "CASSANDRA_DIR") ->
  quiet c.
Proof.
  intros H w0 w [Hn He]. destruct (H w) as (a & w' & es & -> & Hes & Hn' & He').
  unfold after, tracks, events, outcome. simpl. rewrite Hes.
  split; [split; congruence|]. split; [apply prefix_nil | reflexivity].
Qed.

Lemma quiet_sleep (o : outside) (ms : Z) : quiet (sleep o ms).
Proof. apply quiet_step. intros w. do 3 eexists. repeat split. Qed.

Lemma quiet_mark_gone (p : nat) : quiet (mark_gone p).
Proof. apply quiet_step. intros w. do 3 eexists. repeat split. Qed.

Lemma quiet_subprocs_append (p : Process) : quiet (subprocs_append p).
Proof. apply quiet_step. intros w. do 3 eexists. repeat split. Qed.

Lemma quiet_Queue_new (maxsize : Z) : quiet (Queue_new maxsize).
Proof. apply quiet_step. intros w. do 3 eexists. repeat split. Qed.

Lemma quiet_Process_new (t : target) (q1 q2 : Queue) (r : option Z) :
  quiet (Process_new t q1 q2 r).
Proof. apply quiet_step. intros w. do 3 eexists. repeat split. Qed.

Lemma quiet_set_JAVA_HOME (dir : string) : quiet (set_environ "JAVA_HOME" dir).
Proof.
  apply quiet_step. intros w. do 3 eexists. repeat split. simpl.
  apply lookup_insert_ne. discriminate.
Qed.

Lemma sleeps_are_no_node_ops (es : list event) :
  Forall (fun e => e = Sleep 100) es -> node_ops es = [].
Proof. induction 1 as [|e es -> _ IH]; [reflexivity | exact IH]. Qed.

Lemma quiet_wait (o : outside) (label : string) (queue : Queue) (op : opfunc)
      (required_len max_wait_s : Z) :
  quiet (_wait_until_queue_condition o label queue op required_len max_wait_s).
Proof.
  intros w0 w [Hn He].
  destruct (wait_effects o label queue op required_len max_wait_s w)
    as (Hev & elapsed & _ & Haft).
  apply sleeps_are_no_node_ops in Hev.
  unfold tracks. rewrite Hev, Haft.
  split; [split; assumption|]. split; [apply prefix_nil | reflexivity].
Qed.

Create HintDb quiet.
Hint Resolve quiet_ret quiet_raise quiet_gets quiet_sleep quiet_mark_gone
     quiet_subprocs_append quiet_Queue_new quiet_Process_new
     quiet_set_JAVA_HOME quiet_wait : quiet.

Ltac quiet_steps :=
  repeat first
    [ apply quiet_bind; [|intros]
    | apply quiet_for_each; intros
    | apply quiet_try_except
    | apply quiet_emit; reflexivity
    | solve [auto with quiet]
    | match goal with |- quiet (if ?b then _ else _) => destruct b end
    | match goal with |- quiet (match ?x with Some _ => _ | None => _ end) => destruct x end
    | match goal with |- quiet (let '(_, _) := ?x in _) => destruct x end ].

Lemma quiet_terminate_subprocs (o : outside) : quiet (_terminate_subprocs o).
Proof. unfold _terminate_subprocs, psutil_kill. quiet_steps. Qed.

Lemma quiet_check_on_subprocs (o : outside) (subs : list Process) :
  quiet (_check_on_subprocs o subs).
Proof.
  unfold _check_on_subprocs. quiet_steps.
Qed.

Lemma quiet_Process_terminate (p : Process) : quiet (Process_terminate p).
Proof. unfold Process_terminate. quiet_steps. Qed.

Lemma quiet_switch_jdks (version : string) : quiet (switch_jdks version).
Proof. unfold switch_jdks. quiet_steps. Qed.

Lemma quiet_init_local (o : outside) (git_ref : string) : quiet (_init_local o git_ref).
Proof. unfold _init_local. quiet_steps. Qed.

Lemma quiet_start_write_and_verify (o : outside) (wait_for_rowcount max_wait_s : Z) :
  quiet (_start_continuous_write_and_verify o wait_for_rowcount max_wait_s).
Proof. unfold _start_continuous_write_and_verify, Process_start. quiet_steps. Qed.

Lemma quiet_start_counter_increment_and_verify (o : outside)
      (wait_for_rowcount max_wait_s : Z) :
  quiet (_start_continuous_counter_increment_and_verify o wait_for_rowcount max_wait_s).
Proof.
  unfold _start_continuous_counter_increment_and_verify, Process_start. quiet_steps.
Qed.

Ltac follow_emit :=
  first [ apply follows_emit_node; reflexivity
        | apply quiet_follows, quiet_emit; reflexivity ].

Ltac follow_steps :=
  repeat first
    [ follow_emit
    | apply follows_ret
    | apply follows_bind_ret
    | eapply follows_bind; [|intros] ].

(** [upgrade_to_version(tag, partial=True, nodes=(node,))] *)
Lemma upgrade_one_node_follows (o : outside) (w0 : world) (tag node : string) :
  follows w0 (upgrade_of o w0 tag node) (upgrade_to_version o tag true [node]).
Proof.
  unfold upgrade_to_version, upgrade_of, install_source. cbn [negb].
  destruct (LOCAL_MODE o).
  - eapply follows_eq.
    + eapply follows_bind; [apply quiet_follows, quiet_switch_jdks | intros _].
      apply follows_bind_ret. cbn [for_each].
      eapply follows_bind; [follow_steps | intros _].
      eapply follows_bind; [|intros _; follow_steps].
      eapply follows_bind; [apply quiet_follows, quiet_init_local | intros _].
      apply follows_bind_gets. intros w [_ Hdir].
      unfold cassandra_dir. rewrite Hdir. follow_steps.
    + reflexivity.
  - eapply follows_eq.
    + eapply follows_bind; [apply quiet_follows, quiet_switch_jdks | intros _].
      apply follows_bind_ret. cbn [for_each].
      follow_steps.
    + reflexivity.
Qed.

(** The body of the loop over the nodes. *)
Definition node_step (o : outside) (tag node : string) : M unit :=
  sleep o 60000 ;;
  upgrade_to_version o tag true [node] ;;
  subs <- gets subprocs ;;
  _check_on_subprocs o subs.

Lemma node_step_follows (o : outside) (w0 : world) (tag node : string) :
  follows w0 (upgrade_of o w0 tag node) (node_step o tag node).
Proof.
  unfold node_step. eapply follows_eq.
  - eapply follows_bind; [apply quiet_follows, quiet_sleep | intros _].
    eapply follows_bind; [apply upgrade_one_node_follows | intros _].
    apply quiet_follows. apply quiet_bind; [apply quiet_gets | intros subs].
    apply quiet_check_on_subprocs.
  - reflexivity.
Qed.

Lemma rolling_upgrade_loop_follows (o : outside) (w0 : world) (versions : list string) :
  follows w0 (schedule o w0 versions) (rolling_upgrade_loop o versions).
Proof.
  unfold rolling_upgrade_loop, schedule.
  apply follows_for_each. intros tag.
  apply follows_bind_gets. intros w [Hnodes _]. rewrite Hnodes.
  eapply follows_eq.
  - eapply follows_bind.
    + apply follows_for_each. intros node. apply (node_step_follows o w0 tag node).
    + intros _. apply quiet_follows, quiet_emit. reflexivity.
  - apply app_nil_r.
Qed.

Lemma upgrade_scenario_rolling_follows (o : outside) (w0 : world) (versions : list string) :
  follows w0 (schedule o w0 versions) (upgrade_scenario_rolling o versions).
Proof.
  unfold upgrade_scenario_rolling. eapply follows_eq.
  - eapply follows_bind;
      [apply quiet_follows, quiet_start_write_and_verify | intros [[write_proc verify_proc] q1]].
    cbv beta iota.
    eapply follows_bind;
      [apply quiet_follows, quiet_start_counter_increment_and_verify
      | intros [[increment_proc incr_verify_proc] q2]].
    cbv beta iota.
    eapply follows_bind; [apply rolling_upgrade_loop_follows | intros _].
    apply quiet_follows. quiet_steps.
  - simpl. apply app_nil_r.
Qed.

(** *** When the loop runs to its end *)













(** A three-node cluster taken from 2.1 over 2.2 to 3.0; the queues
    fill at once and are empty again from the fifth minute on. *)
Definition calm : outside :=
  mkOutside (fun _ t => Some (if t <? 300000 then 7000 else 0))
            (fun _ => None) (fun _ => false) (fun _ => 0) false "/opt/cassandra".

Definition java_homes : gmap string string :=
  <["JAVA7_HOME" := "/usr/lib/jvm/java-7"]> (<["JAVA8_HOME" := "/usr/lib/jvm/java-8"]> ∅).

Definition three_nodes : world := fresh java_homes ["node1"; "node2"; "node3"].

Definition path_21_to_30 : list string := test_versions [(2, 1); (2, 2); (3, 0)].

Example path_21_to_30_branches :
  path_21_to_30 = ["cassandra-2.1"; "cassandra-2.2"; "cassandra-3.0"]%string.
Proof. reflexivity. Qed.

Example calm_run_returns :
  outcome (upgrade_scenario_rolling calm path_21_to_30 three_nodes) = Ok tt.
Proof. vm_compute. reflexivity. Qed.

Example calm_run_node_ops :
  node_ops (events (upgrade_scenario_rolling calm ["cassandra-2.1"; "cassandra-2.2"]
                                             (fresh java_homes ["node1"; "node2"])))
  = [NodeDrain "node1"; NodeStop "node1";
     NodeSetInstallDir "node1" (InstallVersion "git:cassandra-2.2");
     NodeStart "node1"; NodeNodetool "node1" "upgradesstables -a";
     NodeDrain "node2"; NodeStop "node2";
     NodeSetInstallDir "node2" (InstallVersion "git:cassandra-2.2");
     NodeStart "node2"; NodeNodetool "node2" "upgradesstables -a"].
Proof. vm_compute. reflexivity. Qed.

(** Without [JAVA8_HOME] the first upgrade stops before any node is touched. *)
Example run_without_java_home :
  node_ops (events (upgrade_scenario_rolling calm path_21_to_30
                                             (fresh ∅ ["node1"; "node2"; "node3"])))
  = []
  /\ outcome (upgrade_scenario_rolling calm path_21_to_30
                                       (fresh ∅ ["node1"; "node2"; "node3"]))
     = Raise (RuntimeError "You need to set JAVA7_HOME and JAVA8_HOME to run these tests!").
Proof. vm_compute. split; reflexivity. Qed.

(** C4. In a rolling upgrade the node operations follow the
    schedule: for every version after the first, the nodes one at a
    time in node order, each drained, stopped, given the install
    directory of that version, started again and run through
    [upgradesstables -a], and every node of a version before any node
    of the next. What a run performs is always a prefix of that
    schedule, and all of it when the run does not raise. *)
Theorem rolling_upgrade_goes_node_by_node (o : outside) (versions : list string)
        (w : world) :
  node_ops (events (upgrade_scenario_rolling o versions w))
    `prefix_of` schedule o w versions
  /\ (outcome (upgrade_scenario_rolling o versions w) = Ok tt ->
      node_ops (events (upgrade_scenario_rolling o versions w)) = schedule o w versions).
Proof.
  destruct (upgrade_scenario_rolling_follows o w versions w (same_cluster_refl w))
    as (_ & Hpre & Heq).
  split; [exact Hpre|]. intros Hok. apply Heq. rewrite Hok. reflexivity.
Qed.

Lemma rolling_upgrade_goes_node_by_node_witness :
  node_ops (events (upgrade_scenario_rolling calm path_21_to_30 three_nodes))
  = schedule calm three_nodes path_21_to_30.
Proof.
  apply (proj2 (rolling_upgrade_goes_node_by_node calm path_21_to_30 three_nodes)).
  vm_compute. reflexivity.
Defined.

End RollingUpgradeTheorems.

(** ** Starting the writer and verifier subprocesses *)

Module StartTheorems.
Import Upgrade SubprocessTheorems WaitTheorems RollingUpgradeTheorems.
Local Open Scope upgrade_scope.

(** The processes a run started, in order. *)
Fixpoint started (es : list event) : list Process :=
  match es with
  | [] => []
  | ProcessStart p :: es' => p :: started es'
  | _ :: es' => started es'
  end.

Lemma started_app (es1 es2 : list event) :
  started (es1 ++ es2) = started es1 ++ started es2.
Proof.
  induction es1 as [|e es1 IH]; [reflexivity|].
  destruct e; simpl; rewrite IH; reflexivity.
Qed.

Lemma started_of_sleeps (es : list event) :
  Forall (fun e => e = Sleep 100) es -> started es = [].
Proof. induction 1 as [|e es -> _ IH]; [reflexivity | exact IH]. Qed.

Lemma wait_starts_nothing (o : outside) (label : string) (queue : Queue) (op : opfunc)
      (required_len max_wait_s : Z) (w : world) :
  started (events (_wait_until_queue_condition o label queue op required_len max_wait_s w))
  = [].
Proof. apply started_of_sleeps. apply wait_effects. Qed.

(** The pair of subprocesses that both start functions build: the
    first is started at once, the second after the wait, unless the
    wait raises. *)
Definition first_of_pair (w : world) : Process :=
  mkProcess ("Process-" +:+ PyStr.of_int (Z.of_nat (S (processes_made w))))
            (S (processes_made w)) data_writer
            (mkQueue (queues_made w) 0) (mkQueue (S (queues_made w)) 500)
            (Some 25) true.

Definition second_of_pair (w : world) : Process :=
  mkProcess ("Process-" +:+ PyStr.of_int (Z.of_nat (S (S (processes_made w)))))
            (S (S (processes_made w))) data_checker
            (mkQueue (queues_made w) 0) (mkQueue (S (queues_made w)) 500)
            None true.

Lemma wait_keeps_counters (o : outside) (label : string) (queue : Queue) (op : opfunc)
      (required_len max_wait_s : Z) (w : world) :
  processes_made (after (_wait_until_queue_condition o label queue op required_len
                                                     max_wait_s w))
  = processes_made w.
Proof.
  destruct (wait_effects o label queue op required_len max_wait_s w)
    as (_ & elapsed & _ & ->).
  reflexivity.
Qed.

Ltac unfold_start :=
  unfold bind, Queue_new, Process_new, subprocs_append, Process_start, emit, ret;
  cbn [queues_made processes_made];
  match goal with
  | |- context [0 <? ?n] => destruct (0 <? n)
  end;
  [ match goal with
    | |- context [_wait_until_queue_condition ?a ?b ?c ?d ?e ?f ?w1] =>
        let Hs := fresh "Hs" in
        let Hp := fresh "Hp" in
        pose proof (wait_starts_nothing a b c d e f w1) as Hs;
        pose proof (wait_keeps_counters a b c d e f w1) as Hp;
        destruct (_wait_until_queue_condition a b c d e f w1) as [[[[]|?] ?w2] ?es];
        unfold events, after, outcome in *; cbn [fst snd processes_made] in *;
        [ left; rewrite Hp; cbn [app started]; rewrite started_app, Hs;
          split; reflexivity
        | right; cbn [app started]; rewrite Hs; split; reflexivity ]
    end
  | left; split; reflexivity ].


Lemma start_counter_increment_and_verify_starts (o : outside)
      (wait_for_rowcount max_wait_s : Z) (w : world) :
  (started (events (_start_continuous_counter_increment_and_verify
                      o wait_for_rowcount max_wait_s w))
   = [first_of_pair w; second_of_pair w]
   /\ outcome (_start_continuous_counter_increment_and_verify
                 o wait_for_rowcount max_wait_s w)
      = Ok (first_of_pair w, second_of_pair w, mkQueue (queues_made w) 0))
  \/ (started (events (_start_continuous_counter_increment_and_verify
                         o wait_for_rowcount max_wait_s w))
      = [first_of_pair w]
      /\ is_ok (outcome (_start_continuous_counter_increment_and_verify
                           o wait_for_rowcount max_wait_s w)) = false).
Proof. unfold _start_continuous_counter_increment_and_verify. unfold_start. Qed.

Example rolling_start_of_counter_pair :
  map proc_target
      (started (events (_start_continuous_counter_increment_and_verify
                          calm 5000 300 three_nodes)))
  = [data_writer; data_checker].
Proof. reflexivity. Qed.

Example rolling_scenario_targets :
  map proc_target
      (started (events (upgrade_scenario_rolling calm path_21_to_30 three_nodes)))
  = [data_writer; data_checker; data_writer; data_checker].
Proof. vm_compute. reflexivity. Qed.

(** C1 at the code. Whatever the arguments and the world,
    [_start_continuous_counter_increment_and_verify] starts a
    subprocess whose target is [data_writer] and then, unless the wait
    raises, one whose target is [data_checker]: [counter_incrementer]
    and [counter_checker] are never started. *)
Theorem counter_pair_runs_the_data_functions (o : outside)
        (wait_for_rowcount max_wait_s : Z) (w : world) :
  (map proc_target
       (started (events (_start_continuous_counter_increment_and_verify
                           o wait_for_rowcount max_wait_s w)))
   = [data_writer; data_checker]
   \/ map proc_target
          (started (events (_start_continuous_counter_increment_and_verify
                              o wait_for_rowcount max_wait_s w)))
      = [data_writer])
  /\ ~ In counter_incrementer
          (map proc_target
               (started (events (_start_continuous_counter_increment_and_verify
                                   o wait_for_rowcount max_wait_s w))))
  /\ ~ In counter_checker
          (map proc_target
               (started (events (_start_continuous_counter_increment_and_verify
                                   o wait_for_rowcount max_wait_s w)))).
Proof.
  destruct (start_counter_increment_and_verify_starts o wait_for_rowcount max_wait_s w)
    as [[-> _]|[-> _]]; simpl.
  - split; [left; reflexivity|]. split; intros [H|[H|[]]]; discriminate.
  - split; [right; reflexivity|]. split; intros [H|[]]; discriminate.
Qed.





End StartTheorems.

(** ** Permissions of the commitlog directory *)

Module CommitLogTheorems.
Import CommitLog.

(** What a successful pass leaves: every entry that [glob] lists,
    that is every entry whose name does not start with a dot, has the
    new mode. *)
Definition with_mode (mode : Z) (e : entry) : entry :=
  if hidden (entry_name e) then e else mkEntry (entry_name e) mode.

(** A commitlog directory of a running node: [rwxr-xr-x], two
    segments [rw-r--r--]. *)
Definition sample : directory :=
  mkDirectory 493 [mkEntry "CommitLog-5-1.log" 420; mkEntry "CommitLog-5-2.log" 420].

Example restore_after_failure :
  tearDown false (mkDirectory 0 (entries sample))
  = (Ok tt, mkDirectory 448 [mkEntry "CommitLog-5-1.log" 448;
                             mkEntry "CommitLog-5-2.log" 448]).
Proof. reflexivity. Qed.

Example privileged_zero :
  _change_commitlog_perms true 0 sample
  = (Ok tt, mkDirectory 0 [mkEntry "CommitLog-5-1.log" 0; mkEntry "CommitLog-5-2.log" 0]).
Proof. reflexivity. Qed.

(** Readable but not searchable: the first [os.chmod] on a file fails. *)
Example read_only_directory :
  _change_commitlog_perms false S_IREAD sample
  = (Raise (OSError "CommitLog-5-1.log"), mkDirectory 256 (entries sample)).
Proof. reflexivity. Qed.

Lemma mode_bits_of_mode (mode : Z) : 0 <= mode < 4096 -> mode_bits mode = mode.
Proof.
  intros H. unfold mode_bits. change 4095 with (Z.ones 12).
  rewrite Z.land_ones by lia. apply Z.mod_small. exact H.
Qed.

Definition touched (names : list string) (mode : Z) (e : entry) : entry :=
  if existsb (String.eqb (entry_name e)) names
  then mkEntry (entry_name e) (mode_bits mode)
  else e.

Lemma touched_cons (name : string) (names : list string) (mode : Z) (e : entry) :
  touched names mode (set_mode name mode e) = touched (name :: names) mode e.
Proof.
  unfold touched, set_mode. simpl.
  destruct (String.eqb (entry_name e) name) eqn:E; simpl.
  - destruct (existsb _ names); reflexivity.
  - reflexivity.
Qed.

(** The loop over the listed names, in a directory that can be searched. *)
Lemma chmod_each_touches (privileged : bool) (names : list string) (mode : Z)
      (d : directory) :
  can_search privileged d = true ->
  chmod_each privileged names mode d
  = (Ok tt, mkDirectory (dir_mode d) (map (touched names mode) (entries d))).
Proof.
  revert d. induction names as [|name names IH]; intros d Hs; simpl.
  - destruct d as [m es]. simpl. f_equal. f_equal.
    unfold touched. simpl. symmetry. apply map_id.
  - unfold chmod_file. rewrite Hs.
    rewrite IH by exact Hs. simpl. f_equal. f_equal.
    rewrite map_map. apply map_ext. intros e. apply touched_cons.
Qed.

Lemma touched_by_glob (mode : Z) (es : list entry) (e : entry) :
  In e es ->
  touched (List.filter (fun name => negb (hidden name)) (map entry_name es)) mode e
  = with_mode (mode_bits mode) e.
Proof.
  intros Hin. unfold touched, with_mode.
  destruct (hidden (entry_name e)) eqn:Hh.
  - destruct (existsb _ _) eqn:Ex; [|reflexivity].
    apply existsb_exists in Ex as (name & Hname & Heq).
    apply String.eqb_eq in Heq. subst name.
    apply filter_In in Hname as [_ Hn]. rewrite Hh in Hn. discriminate.
  - destruct (existsb _ _) eqn:Ex; [reflexivity|].
    assert (existsb (String.eqb (entry_name e))
              (List.filter (fun name => negb (hidden name)) (map entry_name es)) = true);
      [|congruence].
    apply existsb_exists. exists (entry_name e). split.
    + apply filter_In. split; [apply in_map; exact Hin | rewrite Hh; reflexivity].
    + apply String.eqb_refl.
Qed.

(** The whole call when the directory stays listable and searchable. *)
Lemma change_commitlog_perms_accessible (privileged : bool) (mode : Z) (d : directory) :
  privileged = true
  \/ (Z.testbit (mode_bits mode) 8 = true /\ Z.testbit (mode_bits mode) 6 = true) ->
  _change_commitlog_perms privileged mode d
  = (Ok tt, mkDirectory (mode_bits mode) (map (with_mode (mode_bits mode)) (entries d))).
Proof.
  intros H. unfold _change_commitlog_perms.
  assert (Hl : can_list privileged (chmod_directory mode d) = true).
  { unfold can_list, chmod_directory. cbn [dir_mode].
    destruct H as [->|[-> _]]; [reflexivity | apply orb_true_r]. }
  assert (Hs : can_search privileged (chmod_directory mode d) = true).
  { unfold can_search, chmod_directory. cbn [dir_mode].
    destruct H as [->|[_ ->]]; [reflexivity | apply orb_true_r]. }
  unfold glob_star. rewrite Hl. rewrite chmod_each_touches by exact Hs.
  unfold chmod_directory. cbn [dir_mode entries]. f_equal. f_equal.
  apply map_ext_in. intros e He. apply touched_by_glob. exact He.
Qed.

(** With mode 0 and no privilege the directory can no longer be
    listed: only its own mode changes. *)
Lemma change_commitlog_perms_unlistable (mode : Z) (d : directory) :
  Z.testbit (mode_bits mode) 8 = false ->
  _change_commitlog_perms false mode d = (Ok tt, mkDirectory (mode_bits mode) (entries d)).
Proof.
  intros H. unfold _change_commitlog_perms, glob_star, can_list, chmod_directory.
  cbn [dir_mode orb]. rewrite H. reflexivity.
Qed.

(** C6, as stated, fails for the mode the test itself uses: an
    unprivileged run of [_change_commitlog_perms(0)] clears the bits
    of the directory, after which [glob] lists nothing, and the
    segment keeps its mode [rw-r--r--]. *)
Lemma change_commitlog_perms_zero_keeps_file_mode :
  _change_commitlog_perms false 0 sample = (Ok tt, mkDirectory 0 (entries sample))
  /\ Exists (fun e => entry_mode e <> 0)
            (entries (snd (_change_commitlog_perms false 0 sample))).
Proof.
  split; [reflexivity|]. apply Exists_cons_hd. simpl. discriminate.
Qed.

(** C6, amended. For every permission mode that leaves the owner
    read and execute permission on the directory, and for every mode
    when the test runs privileged, [_change_commitlog_perms(mod)] sets
    the permission bits of the commitlog directory and of every file
    in it whose name does not start with a dot to [mod]; the failure
    is induced by calling it with 0 before the writes are driven,
    which leaves the directory with no permission bit; [tearDown]
    always gives the directory and those files back read, write and
    execute permission for the owner. *)
Theorem change_commitlog_perms_sets_modes (privileged : bool) (mode : Z) (d : directory) :
  0 <= mode < 4096 ->
  privileged = true \/ (Z.testbit mode 8 = true /\ Z.testbit mode 6 = true) ->
  _change_commitlog_perms privileged mode d
  = (Ok tt, mkDirectory mode (map (with_mode mode) (entries d)))
  /\ (exists d', _provoke_commitlog_failure privileged d
                 = (Ok tt, d', [InsertRow; AssertOneRow; ChangePerms 0; StressWrite d'])
                 /\ dir_mode d' = 0)
  /\ tearDown privileged d
     = (Ok tt, mkDirectory (Z.lor (Z.lor S_IWRITE S_IREAD) S_IEXEC)
                           (map (with_mode (Z.lor (Z.lor S_IWRITE S_IREAD) S_IEXEC))
                                (entries d))).
Proof.
  intros Hrange Hperm. split; [|split].
  - rewrite <- (mode_bits_of_mode mode Hrange) at 2 3.
    apply change_commitlog_perms_accessible.
    rewrite (mode_bits_of_mode mode Hrange). exact Hperm.
  - unfold _provoke_commitlog_failure. destruct privileged.
    + rewrite change_commitlog_perms_accessible by (left; reflexivity).
      eexists. split; reflexivity.
    + rewrite change_commitlog_perms_unlistable by reflexivity.
      eexists. split; reflexivity.
  - unfold tearDown.
    rewrite change_commitlog_perms_accessible by (right; split; reflexivity).
    reflexivity.
Qed.

Lemma change_commitlog_perms_sets_modes_witness :
  _change_commitlog_perms false 448 sample
  = (Ok tt, mkDirectory 448 (map (with_mode 448) (entries sample)))
  /\ (exists d', _provoke_commitlog_failure false sample
                 = (Ok tt, d', [InsertRow; AssertOneRow; ChangePerms 0; StressWrite d'])
                 /\ dir_mode d' = 0)
  /\ tearDown false sample
     = (Ok tt, mkDirectory (Z.lor (Z.lor S_IWRITE S_IREAD) S_IEXEC)
                           (map (with_mode (Z.lor (Z.lor S_IWRITE S_IREAD) S_IEXEC))
                                (entries sample))).
Proof.
  apply (change_commitlog_perms_sets_modes false 448 sample).
  - lia.
  - right. split; reflexivity.
Defined.

End CommitLogTheorems.

(** ** Overwriting the header CRC of a commitlog file *)

Module BadCrcTheorems.
Import BadCrc.

Definition byte_at (i : nat) (file : list byte) : Z := Z_of_byte (nth i file x00).

(** The header fields as the commitlog format lays them out: a signed
    32-bit big-endian version at offset 0, an unsigned 16-bit
    big-endian parameter length at offset 12. *)
Definition version_field (file : list byte) : Z :=
  let u := byte_at 0 file * 2 ^ 24 + byte_at 1 file * 2 ^ 16
           + byte_at 2 file * 2 ^ 8 + byte_at 3 file in
  if u <? 2 ^ 31 then u else u - 2 ^ 32.

Definition psize_field (file : list byte) : Z :=
  byte_at 12 file * 2 ^ 8 + byte_at 13 file.

Definition crc_offset (file : list byte) : Z :=
  if version_field file <? 5 then 12 else 14 + psize_field file.

(** A version 4 header, and a version 6 header with 3 parameter bytes. *)
Definition header_v4 : list byte :=
  [x00; x00; x00; x04; x11; x22; x33; x44; x55; x66; x77; x88; xaa; xbb; xcc; xdd].

Definition header_v6 : list byte :=
  [x00; x00; x00; x06; x11; x22; x33; x44; x55; x66; x77; x88;
   x00; x03; x7b; x7d; x0a; xaa; xbb; xcc; xdd].

Example corrupt_v4 :
  corrupt header_v4 = Ok (12, repeat x00 12 ++ [x00; x01; xe2; x40], 123456).
Proof. reflexivity. Qed.

Example corrupt_v6 :
  corrupt header_v6 = Ok (17, repeat x00 17 ++ [x00; x01; xe2; x40], 123456).
Proof. reflexivity. Qed.

Example corrupt_short_file : corrupt [x00; x00] = Raise StructError.
Proof. reflexivity. Qed.

Lemma Z_of_byte_range (b : byte) : 0 <= Z_of_byte b < 256.
Proof.
  unfold Z_of_byte. pose proof (Byte.to_N_bounded b) as H.
  apply N2Z.inj_le in H. simpl in H. lia.
Qed.

(** [h & 0xFFFF] undoes the sign of a 16-bit value. *)
Lemma land_undoes_sign16 (u : Z) :
  0 <= u < 65536 ->
  Z.land (if u <? 32768 then u else u - 65536) 65535 = u.
Proof.
  intros Hu. change 65535 with (Z.ones 16).
  rewrite Z.land_ones by lia. change (2 ^ 16) with 65536.
  destruct (u <? 32768).
  - apply Z.mod_small. lia.
  - symmetry. apply (Z.mod_unique _ _ (-1)); lia.
Qed.

Lemma pack_123456 : pack_i 123456 = Ok [x00; x01; xe2; x40].
Proof. reflexivity. Qed.

Lemma read_back_what_was_written (pos : Z) (data : list byte) :
  read_at pos (length data) (write_truncating pos data) = data.
Proof.
  unfold read_at, write_truncating.
  rewrite <- (repeat_length x00 (Z.to_nat pos)) at 1.
  rewrite drop_app_length. apply firstn_all.
Qed.

Lemma rewritten_crc_reads_123456 (pos : Z) :
  exists file', rewrite_crc pos = Ok file'
                /\ read_at pos 4 file' = [x00; x01; xe2; x40]
                /\ read_crc pos file' = Ok 123456.
Proof.
  unfold rewrite_crc, read_crc. rewrite pack_123456.
  eexists. split; [reflexivity|].
  pose proof (read_back_what_was_written pos [x00; x01; xe2; x40]) as H.
  simpl length in H. rewrite H. split; reflexivity.
Qed.

Lemma locate_crc_offset (file : list byte) :
  (4 <= length file)%nat ->
  (5 <= version_field file -> (14 <= length file)%nat) ->
  locate_crc file = Ok (crc_offset file).
Proof.
  intros H4 H14.
  destruct file as [|b0 [|b1 [|b2 [|b3 rest]]]]; simpl in H4; try lia.
  unfold locate_crc, crc_offset.
  assert (Hv : unpack_signed 4 (read_at 0 4 (b0 :: b1 :: b2 :: b3 :: rest))
               = Ok (version_field (b0 :: b1 :: b2 :: b3 :: rest))).
  { unfold version_field, byte_at, unpack_signed, read_at, be_value. simpl.
    pose proof (Z_of_byte_range b0). pose proof (Z_of_byte_range b1).
    pose proof (Z_of_byte_range b2). pose proof (Z_of_byte_range b3).
    f_equal.
    replace (256 * (256 * (256 * (256 * 0 + Z_of_byte b0) + Z_of_byte b1)
                    + Z_of_byte b2) + Z_of_byte b3)
      with (Z_of_byte b0 * 16777216 + Z_of_byte b1 * 65536
            + Z_of_byte b2 * 256 + Z_of_byte b3) by ring.
    reflexivity. }
  rewrite Hv.
  destruct (version_field (b0 :: b1 :: b2 :: b3 :: rest) <? 5) eqn:E.
  - apply Z.ltb_lt in E.
    destruct (5 <=? _) eqn:E'; [apply Z.leb_le in E'; lia | reflexivity].
  - apply Z.ltb_ge in E. specialize (H14 E).
    destruct (5 <=? _) eqn:E'; [|apply Z.leb_gt in E'; lia].
    destruct rest as [|b4 [|b5 [|b6 [|b7 [|b8 [|b9 [|b10 [|b11 [|b12 [|b13 rest]]]]]]]]]];
      simpl in H14; try lia.
    unfold psize_field, byte_at, unpack_signed, read_at, be_value. simpl.
    pose proof (Z_of_byte_range b12). pose proof (Z_of_byte_range b13).
    replace (256 * (256 * 0 + Z_of_byte b12) + Z_of_byte b13)
      with (Z_of_byte b12 * 256 + Z_of_byte b13) by ring.
    rewrite land_undoes_sign16 by lia.
    f_equal. lia.
Qed.

(** C7. The offset written is 12 when the signed big-endian 32-bit
    version at offset 0 is below 5 and 14 + psize otherwise, psize
    being the 16-bit length at offset 12 read as unsigned; the four
    bytes of the big-endian integer 123456 are written there, and
    reading four bytes back at that offset gives 123456. *)
Theorem corrupt_overwrites_header_crc (file : list byte) :
  (4 <= length file)%nat ->
  (5 <= version_field file -> (14 <= length file)%nat) ->
  exists file',
    corrupt file = Ok (crc_offset file, file', 123456)
    /\ read_at (crc_offset file) 4 file' = [x00; x01; xe2; x40]
    /\ be_value [x00; x01; xe2; x40] = 123456.
Proof.
  intros H4 H14. unfold corrupt.
  rewrite (locate_crc_offset file H4 H14).
  destruct (rewritten_crc_reads_123456 (crc_offset file)) as (file' & Hw & Hr & Hc).
  exists file'. rewrite Hw, Hc.
  split; [reflexivity | split; [exact Hr | reflexivity]].
Qed.

Lemma corrupt_overwrites_header_crc_witness :
  exists file',
    corrupt header_v6 = Ok (crc_offset header_v6, file', 123456)
    /\ read_at (crc_offset header_v6) 4 file' = [x00; x01; xe2; x40]
    /\ be_value [x00; x01; xe2; x40] = 123456.
Proof.
  apply (corrupt_overwrites_header_crc header_v6).
  - simpl. lia.
  - intros _. simpl. lia.
Defined.

End BadCrcTheorems.

(** ** The notification filter *)

Module NotificationTheorems.
Import Notifications.

(** The notification is dropped: a filter is set, the notification
    has a non-empty keyspace, and the two differ. *)
Definition rejected (self : NotificationWaiter) (notification : gmap string value) : bool :=
  truthy (keyspace self)
  && match notification !! "keyspace" with
     | Some ks => truthy ks && negb (value_eqb (keyspace self) ks)
     | None => false
     end.

Definition accepted (self : NotificationWaiter) (notification : gmap string value)
  : NotificationWaiter :=
  mkWaiter (keyspace self) (notifications self ++ [notification]) true.

(** A topology change as the driver delivers it: no ['keyspace'] entry. *)
Definition new_node : gmap string value :=
  <["change_type" := VStr "NEW_NODE"]> (<["address" := VAddress "127.0.0.2" 9042]> ∅).

Definition created_table (ks : string) : gmap string value :=
  <["change_type" := VStr "CREATED"]>
    (<["target_type" := VStr "TABLE"]>
       (<["keyspace" := VStr ks]> (<["table" := VStr "t"]> ∅))).

Example handle_same_keyspace :
  handle_notification (init (VStr "ks")) (created_table "ks")
  = (Ok tt, mkWaiter (VStr "ks") [created_table "ks"] true).
Proof. reflexivity. Qed.

Example handle_other_keyspace :
  handle_notification (init (VStr "ks")) (created_table "system")
  = (Ok tt, init (VStr "ks")).
Proof. reflexivity. Qed.

Example handle_without_filter :
  handle_notification (init VNone) new_node = (Ok tt, mkWaiter VNone [new_node] true).
Proof. reflexivity. Qed.

(** With a filter set, a notification without a ['keyspace'] entry
    makes [notification['keyspace']] raise; nothing is collected. *)
Lemma handle_notification_KeyError (self : NotificationWaiter)
      (notification : gmap string value) :
  truthy (keyspace self) = true ->
  notification !! "keyspace" = None ->
  handle_notification self notification = (Raise (KeyError "keyspace"), self).
Proof. intros Hf Hk. unfold handle_notification. rewrite Hf, Hk. reflexivity. Qed.

(** C8, as stated, fails: the waiter filters on keyspace ['ks'], the
    notification carries no keyspace at all, so it is not one of the
    notifications to be dropped, and yet it is not appended and the
    event is not set: the call raises [KeyError]. *)
Lemma handle_notification_drops_unkeyed_notification :
  rejected (init (VStr "ks")) new_node = false
  /\ handle_notification (init (VStr "ks")) new_node
     = (Raise (KeyError "keyspace"), init (VStr "ks"))
  /\ snd (handle_notification (init (VStr "ks")) new_node)
     <> accepted (init (VStr "ks")) new_node.
Proof. repeat split; try reflexivity. discriminate. Qed.

(** C8, amended. For every notification that has a ['keyspace'] entry,
    and for every notification when no keyspace filter is set,
    [handle_notification] appends the notification and sets the event,
    except when a filter is set, the notification's keyspace is
    non-empty and differs from the filter: then the list and the event
    are left as they were. *)
Theorem handle_notification_filters_by_keyspace
        (self : NotificationWaiter) (notification : gmap string value) :
  truthy (keyspace self) = false \/ is_Some (notification !! "keyspace") ->
  handle_notification self notification
  = (Ok tt, if rejected self notification then self else accepted self notification).
Proof.
  intros H. unfold handle_notification, rejected, accepted.
  destruct (truthy (keyspace self)) eqn:Hf; [|reflexivity].
  destruct H as [H|[ks Hks]]; [discriminate|].
  rewrite Hks. simpl.
  destruct (truthy ks && negb (value_eqb (keyspace self) ks)); reflexivity.
Qed.

Lemma handle_notification_filters_by_keyspace_witness :
  handle_notification (init (VStr "ks")) (created_table "system")
  = (Ok tt, if rejected (init (VStr "ks")) (created_table "system")
            then init (VStr "ks")
            else accepted (init (VStr "ks")) (created_table "system")).
Proof.
  apply (handle_notification_filters_by_keyspace (init (VStr "ks")) (created_table "system")).
  right. exists (VStr "system"). reflexivity.
Defined.

End NotificationTheorems.

From Stdlib Require Import DecimalPos.

(** ** Numbers in version strings *)

Section DecimalFacts.
Import PyStr.

Lemma int_of_digits_acc (d : Decimal.uint) (acc : positive) :
  int_of_digits_from (Z.pos acc) (NilEmpty.string_of_uint d)
  = Z.pos (Pos.of_uint_acc d acc).
Proof.
  revert acc. induction d; intros acc;
    cbn [NilEmpty.string_of_uint int_of_digits_from Pos.of_uint_acc];
    [reflexivity|..];
    rewrite <- IHd; f_equal; unfold digit_value;
    match goal with |- context [N_of_ascii ?c] =>
      let v := eval vm_compute in (N_of_ascii c) in change (N_of_ascii c) with v
    end; lia.
Qed.

Lemma int_of_digits_of_uint (d : Decimal.uint) :
  int_of_digits (NilEmpty.string_of_uint d) = Z.of_N (Pos.of_uint d).
Proof.
  unfold int_of_digits.
  induction d; cbn [NilEmpty.string_of_uint int_of_digits_from Pos.of_uint Z.of_N];
    [reflexivity | exact IHd |..];
    rewrite <- int_of_digits_acc; reflexivity.
Qed.

(** [int(str(n)) == n] for a non-negative int. *)
Lemma int_of_digits_of_int (n : Z) : 0 <= n -> int_of_digits (of_int n) = n.
Proof.
  intros Hn. unfold of_int. destruct n as [|p|p]; [reflexivity| |lia].
  simpl. unfold NilZero.string_of_uint.
  pose proof (DecimalPos.Unsigned.to_uint_nonnil p) as Hnil.
  pose proof (DecimalPos.Unsigned.of_to p) as Hof.
  destruct (Pos.to_uint p) eqn:E; try congruence;
    rewrite <- E, int_of_digits_of_uint, E, Hof; reflexivity.
Qed.

End DecimalFacts.

(** ** Version strings as [LooseVersion] sees them *)

Module VersionOrder.
Import Loose Versions Upgrade.

Fixpoint all_digits (s : string) : bool :=
  match s with
  | EmptyString => true
  | String c s' =>
      match classify c with
      | Digit => all_digits s'
      | _ => false
      end
  end.

(** [cmp] on two version tuples, as Python compares tuples of ints. *)
Definition tuple_cmp (a b : Z * Z) : Z :=
  match fst a ?= fst b with
  | Lt => -1
  | Gt => 1
  | Eq => match snd a ?= snd b with
          | Lt => -1
          | Eq => 0
          | Gt => 1
          end
  end.

Lemma uint_all_digits (d : Decimal.uint) :
  all_digits (NilEmpty.string_of_uint d) = true.
Proof. induction d; simpl; auto. Qed.

Lemma of_int_all_digits (n : Z) :
  0 <= n -> all_digits (PyStr.of_int n) = true /\ PyStr.of_int n <> EmptyString.
Proof.
  intros Hn. unfold PyStr.of_int. destruct n as [|p|p]; [split; [reflexivity | discriminate]| |lia].
  simpl. unfold NilZero.string_of_uint.
  pose proof (DecimalPos.Unsigned.to_uint_nonnil p) as Hnil.
  destruct (Pos.to_uint p) eqn:E; try congruence;
    rewrite <- E; (split; [apply uint_all_digits | rewrite E; discriminate]).
Qed.

Lemma append_empty_r (s : string) : s +:+ EmptyString = s.
Proof.
  induction s as [|c s IH]; [reflexivity|]. rewrite append_cons, IH. reflexivity.
Qed.

Lemma scan_digit_run (cur ds rest : string) :
  all_digits ds = true ->
  scan Digit cur (ds +:+ rest) = scan Digit (cur +:+ ds) rest.
Proof.
  revert cur. induction ds as [|c ds IH]; intros cur Hd.
  - rewrite append_empty_r. reflexivity.
  - rewrite append_cons. simpl in Hd |- *.
    destruct (classify c); try discriminate. simpl.
    rewrite (IH _ Hd), append_assoc. reflexivity.
Qed.

Lemma scan_starts_number (c : ascii) (ds rest : string) :
  all_digits (String c ds) = true ->
  scan Dot EmptyString (String c ds +:+ rest) = scan Digit (String c ds) rest.
Proof.
  intros Hd. rewrite append_cons. simpl in Hd |- *.
  destruct (classify c); try discriminate. simpl.
  rewrite (scan_digit_run _ _ _ Hd). reflexivity.
Qed.

Lemma scan_at_dot (k : cclass) (cur rest : string) :
  scan k cur (String PyStr.dot rest) = flush k cur ++ scan Dot EmptyString rest.
Proof. reflexivity. Qed.

(** A string [digits.digits] parses into its two numbers. *)
Lemma parse_two_numbers (ds1 ds2 : string) :
  all_digits ds1 = true -> ds1 <> EmptyString ->
  all_digits ds2 = true -> ds2 <> EmptyString ->
  parse (ds1 +:+ "." +:+ ds2) = [CInt (PyStr.int_of_digits ds1); CInt (PyStr.int_of_digits ds2)].
Proof.
  intros H1 N1 H2 N2. unfold parse.
  destruct ds1 as [|c1 r1]; [congruence|]. destruct ds2 as [|c2 r2]; [congruence|].
  rewrite (scan_starts_number _ _ _ H1).
  change ("." +:+ String c2 r2) with (String PyStr.dot (String c2 r2)).
  rewrite scan_at_dot.
  rewrite <- (append_empty_r (String c2 r2)) at 1.
  rewrite (scan_starts_number _ _ _ H2). reflexivity.
Qed.

Lemma parse_ver_str (v : Z * Z) :
  0 <= fst v -> 0 <= snd v ->
  parse (make_ver_str v) = [CInt (fst v); CInt (snd v)].
Proof.
  intros H1 H2. unfold make_ver_str.
  destruct (of_int_all_digits _ H1) as [D1 N1]. destruct (of_int_all_digits _ H2) as [D2 N2].
  rewrite (parse_two_numbers _ _ D1 N1 D2 N2), !int_of_digits_of_int by assumption.
  reflexivity.
Qed.

Lemma version_order_helper (a b : Z * Z) :
  0 <= fst a -> 0 <= snd a ->
  0 <= fst b -> 0 <= snd b ->
  version (Loose.new (make_ver_str a)) = [CInt (fst a); CInt (snd a)]
  /\ Loose.cmp (Loose.new (make_ver_str a)) (Loose.new (make_ver_str b)) = tuple_cmp a b.
Proof.
  intros Ha1 Ha2 Hb1 Hb2. unfold Loose.cmp, Loose.new. cbn [version].
  rewrite !parse_ver_str by assumption. split; [reflexivity|].
  unfold tuple_cmp. cbn [cmp_list cmp_component].
  destruct (fst a ?= fst b); [|reflexivity..].
  cbn [Z.eqb]. destruct (snd a ?= snd b); reflexivity.
Qed.

(** X1. The [LooseVersion] of [make_ver_str((major, minor))] has the
    two numbers as its components, and two such versions compare as the
    tuples do: first by major, then by minor, as numbers (so 2.10 is
    above 2.9). *)
Theorem version_strings_compare_as_tuples (a b : Z * Z) :
  0 <= fst a -> 0 <= snd a -> 0 <= fst b -> 0 <= snd b ->
  version (Loose.new (make_ver_str a)) = [CInt (fst a); CInt (snd a)]
  /\ Loose.cmp (Loose.new (make_ver_str a)) (Loose.new (make_ver_str b)) = tuple_cmp a b.
Proof. apply version_order_helper. Qed.

Lemma version_strings_compare_as_tuples_witness :
  version (Loose.new (make_ver_str (2, 10))) = [CInt 2; CInt 10]
  /\ Loose.cmp (Loose.new (make_ver_str (2, 10))) (Loose.new (make_ver_str (2, 9)))
     = tuple_cmp (2, 10) (2, 9).
Proof. apply (version_strings_compare_as_tuples (2, 10) (2, 9)); simpl; lia. Defined.

(** The branch name of a version tuple is read back as its version. *)
Lemma sanitize_branch_name (v : Z * Z) :
  0 <= fst v -> 0 <= snd v ->
  sanitize_version (make_branch_str v) = Loose.new (make_ver_str v).
Proof.
  intros H1 H2. destruct v as [major minor]. simpl in H1, H2. unfold make_branch_str.
  destruct (tuple_eqb (major, minor) TRUNK_VER) eqn:E.
  - unfold tuple_eqb in E. simpl in E. apply andb_true_iff in E as [E1 E2].
    apply Z.eqb_eq in E1, E2. subst. reflexivity.
  - fold (make_ver_str (major, minor)).
    assert (Hnd : PyStr.has_char PyStr.dash (make_ver_str (major, minor)) = false).
    { unfold make_ver_str. rewrite !has_char_app. simpl fst; simpl snd.
      rewrite !of_int_has_no_dash by assumption. reflexivity. }
    change ("cassandra-" +:+ make_ver_str (major, minor))
      with ("cassandra" +:+ String PyStr.dash (make_ver_str (major, minor))).
    unfold sanitize_version.
    rewrite (proj1 (find_nonneg_iff_has_char _ _)), has_char_app.
    rewrite split_at_first_separator by reflexivity.
    rewrite (split_without_separator _ _ Hnd). reflexivity.
Qed.

Definition jdk_variable (v : Z * Z) : string :=
  if tuple_cmp v (2, 1) <? 0 then "JAVA7_HOME" else "JAVA8_HOME".

(** X2. For the branch of a version tuple, [switch_jdks] takes
    [JAVA7_HOME] when the version is below 2.1 and [JAVA8_HOME] from
    2.1 on (trunk included). When that variable is set, its value
    becomes [JAVA_HOME] and nothing else changes; when it is not, the
    call raises [RuntimeError] and leaves [os.environ] as it was. *)
Theorem switch_jdks_picks_jdk_by_version (v : Z * Z) (w : world) :
  0 <= fst v -> 0 <= snd v ->
  (forall dir, environ w !! jdk_variable v = Some dir ->
               switch_jdks (make_branch_str v) w = set_environ "JAVA_HOME" dir w)
  /\ (environ w !! jdk_variable v = None ->
      switch_jdks (make_branch_str v) w
      = (Raise (RuntimeError "You need to set JAVA7_HOME and JAVA8_HOME to run these tests!"),
         w, [])).
Proof.
  intros H1 H2. unfold switch_jdks, jdk_variable, cmp_str.
  rewrite (sanitize_branch_name v H1 H2).
  change "2.1" with (make_ver_str (2, 1)).
  rewrite (proj2 (version_order_helper v (2, 1) H1 H2 ltac:(simpl; lia) ltac:(simpl; lia))).
  split.
  - intros dir Hdir. unfold bind, gets. rewrite Hdir.
    destruct (set_environ "JAVA_HOME" dir w) as [[r w2] es]. reflexivity.
  - intros Hnone. unfold bind, gets. rewrite Hnone. reflexivity.
Qed.

Example jdk_for_branches :
  jdk_variable (2, 0) = "JAVA7_HOME" /\ jdk_variable (2, 1) = "JAVA8_HOME"
  /\ jdk_variable (1, 12) = "JAVA7_HOME" /\ jdk_variable TRUNK_VER = "JAVA8_HOME".
Proof. repeat split. Qed.

Lemma switch_jdks_picks_jdk_by_version_witness :
  (forall dir, environ RollingUpgradeTheorems.three_nodes !! jdk_variable (2, 0) = Some dir ->
               switch_jdks (make_branch_str (2, 0)) RollingUpgradeTheorems.three_nodes
               = set_environ "JAVA_HOME" dir RollingUpgradeTheorems.three_nodes)
  /\ (environ RollingUpgradeTheorems.three_nodes !! jdk_variable (2, 0) = None ->
      switch_jdks (make_branch_str (2, 0)) RollingUpgradeTheorems.three_nodes
      = (Raise (RuntimeError "You need to set JAVA7_HOME and JAVA8_HOME to run these tests!"),
         RollingUpgradeTheorems.three_nodes, [])).
Proof.
  apply (switch_jdks_picks_jdk_by_version (2, 0) RollingUpgradeTheorems.three_nodes);
    simpl; lia.
Defined.

(** *** [GitSemVer.__cmp__] in both directions *)

Lemma cmp_component_antisym (x y : component) :
  cmp_component x y = - cmp_component y x.
Proof.
  destruct x as [a|s], y as [b|t]; simpl; try reflexivity.
  - rewrite (Z.compare_antisym b a). destruct (b ?= a); reflexivity.
  - unfold PyStr.cmp. rewrite (String.compare_antisym t s).
    destruct (String.compare s t); reflexivity.
Qed.

Lemma cmp_list_antisym (a b : list component) : cmp_list a b = - cmp_list b a.
Proof.
  revert b. induction a as [|x a IH]; intros [|y b]; simpl; try reflexivity.
  rewrite (cmp_component_antisym x y).
  destruct (cmp_component y x) eqn:E; simpl; [apply IH | reflexivity..].
Qed.

Lemma contains_dashed_is_longer (s t : string) :
  PyStr.contains (s +:+ "-") t = true -> (String.length s < String.length t)%nat.
Proof.
  intros H. apply contains_is_no_longer in H. rewrite length_append in H. simpl in H. lia.
Qed.

(** X3. [GitSemVer.__cmp__] is antisymmetric on all pairs:
    [a.__cmp__(b)] is always the negation of [b.__cmp__(a)], whether
    the rule for dash-suffixed tags or the order of [LooseVersion]
    decides. *)
Theorem GitSemVer_cmp_antisymmetric (a b : GitSemVer) :
  GitSemVer_cmp a b = - GitSemVer_cmp b a.
Proof.
  unfold GitSemVer_cmp. rewrite (orb_comm (Z.of_nat (length (version (semver b))) <=? 3)).
  destruct ((Z.of_nat (length (version (semver a))) <=? 3)
            || (Z.of_nat (length (version (semver b))) <=? 3));
    [|apply cmp_list_antisym].
  destruct (PyStr.contains (vstring (semver a) +:+ "-") (vstring (semver b))) eqn:A;
    destruct (PyStr.contains (vstring (semver b) +:+ "-") (vstring (semver a))) eqn:B;
    try reflexivity.
  - apply contains_dashed_is_longer in A. apply contains_dashed_is_longer in B. lia.
  - rewrite (String.eqb_sym (vstring (semver a)) (vstring (semver b))).
    destruct (String.eqb (vstring (semver b)) (vstring (semver a))); [reflexivity|].
    apply cmp_list_antisym.
Qed.

(** The order is not transitive: 3.0 is above its tag 3.0-rc1 by the
    dash rule, 3.0-rc1 above 3.0.1 and 3.0.1 above 3.0 by the order of
    [LooseVersion]. *)
Example GitSemVer_cmp_cycle :
  GitSemVer_cmp (GitSemVer_init "a" "3.0") (GitSemVer_init "b" "3.0-rc1") = 1
  /\ GitSemVer_cmp (GitSemVer_init "b" "3.0-rc1") (GitSemVer_init "c" "3.0.1") = 1
  /\ GitSemVer_cmp (GitSemVer_init "c" "3.0.1") (GitSemVer_init "a" "3.0") = 1.
Proof. repeat split. Qed.

(** *** What [sanitize_version] keeps *)

Lemma split_has_a_piece (sep : ascii) (s : string) :
  (1 <= length (PyStr.split sep s))%nat.
Proof.
  destruct s as [|c s]; simpl; [lia|].
  destruct (Ascii.eqb c sep); simpl; [lia|].
  destruct (PyStr.split sep s); simpl; lia.
Qed.

Lemma split_has_second_piece (s : string) :
  PyStr.has_char PyStr.dash s = true ->
  (2 <= length (PyStr.split PyStr.dash s))%nat.
Proof.
  induction s as [|c s IH]; simpl; [discriminate|].
  destruct (Ascii.eqb c PyStr.dash).
  - intros _. pose proof (split_has_a_piece PyStr.dash s). simpl. lia.
  - intros H. specialize (IH H). destruct (PyStr.split PyStr.dash s); simpl in *; lia.
Qed.

(** X4. [sanitize_version] never fails on its [split('-')[1]]: a
    version with a dash always has a second piece. It keeps the text
    between the first and the second dash, so both [cassandra-2.1] and
    [git:cassandra-2.1] give 2.1 while a tag such as [2.1.12-tentative]
    gives [tentative]; without a dash the version is taken whole,
    ['trunk'] standing for the trunk version. *)
Theorem sanitize_version_keeps_second_piece (a b c : string) :
  PyStr.has_char PyStr.dash a = false ->
  PyStr.has_char PyStr.dash b = false ->
  sanitize_version (a +:+ "-" +:+ b) = Loose.new b
  /\ sanitize_version (a +:+ "-" +:+ b +:+ "-" +:+ c) = Loose.new b
  /\ (forall s, 0 <= PyStr.find PyStr.dash s ->
                 (2 <= length (PyStr.split PyStr.dash s))%nat)
  /\ sanitize_version a
     = (if String.eqb a "trunk" then Loose.new (make_ver_str TRUNK_VER) else Loose.new a).
Proof.
  intros Ha Hb. unfold sanitize_version.
  change (a +:+ "-" +:+ b) with (a +:+ String PyStr.dash b).
  change (a +:+ "-" +:+ b +:+ "-" +:+ c) with (a +:+ String PyStr.dash (b +:+ String PyStr.dash c)).
  rewrite !(proj1 (find_nonneg_iff_has_char _ _)), !has_char_app, Ha.
  rewrite !split_at_first_separator by assumption.
  cbn [PyStr.has_char]. rewrite Ascii.eqb_refl, orb_true_r. cbn [orb nth].
  rewrite (split_without_separator _ _ Hb). cbn [nth length].
  split; [reflexivity|]. split; [reflexivity|]. split; [|reflexivity].
  intros s Hs. apply split_has_second_piece.
  rewrite <- (proj1 (find_nonneg_iff_has_char _ _)). apply Z.leb_le. exact Hs.
Qed.

Lemma sanitize_version_keeps_second_piece_witness :
  sanitize_version ("2.1.12" +:+ "-" +:+ "tentative") = Loose.new "tentative"
  /\ sanitize_version ("2.1.12" +:+ "-" +:+ "tentative" +:+ "-" +:+ "2") = Loose.new "tentative"
  /\ (forall s, 0 <= PyStr.find PyStr.dash s ->
                 (2 <= length (PyStr.split PyStr.dash s))%nat)
  /\ sanitize_version "2.1.12"
     = (if String.eqb "2.1.12" "trunk" then Loose.new (make_ver_str TRUNK_VER)
        else Loose.new "2.1.12").
Proof.
  apply (sanitize_version_keeps_second_piece "2.1.12" "tentative" "2"); reflexivity.
Defined.

End VersionOrder.

(** ** More on the upgrade test *)

Module UpgradeRuns.
Import Loose Versions Upgrade WaitTheorems SubprocessTheorems RollingUpgradeTheorems
       StartTheorems VersionOrder.
Local Open Scope upgrade_scope.

(** *** Waiting on a queue *)



(** *** The loop over the versions *)




(** *** One upgrade step *)



Definition restart (nodes : list string) : list event :=
  flat_map (fun node => [NodeSetLogLevel node "INFO"; NodeStart node;
                         NodeNodetool node "upgradesstables -a"])
           nodes.

Definition is_start (e : event) : bool :=
  match e with NodeStart _ => true | _ => false end.

Definition is_restart (e : event) : bool :=
  match e with
  | NodeSetLogLevel _ _ | NodeStart _ | NodeNodetool _ _ => true
  | _ => false
  end.



(** The variable [switch_jdks] reads for this version. *)
Definition jdk_key (tag : string) : string :=
  if Loose.cmp_str (sanitize_version tag) "2.1" <? 0 then "JAVA7_HOME" else "JAVA8_HOME".





Lemma restart_only_restarts (nodes : list string) :
  forallb is_restart (restart nodes) = true.
Proof. induction nodes as [|n ns IH]; [reflexivity | exact IH]. Qed.




(** *** Cleaning up *)




(** *** The started subprocesses are registered *)

Lemma wait_keeps_subprocs (o : outside) (label : string) (queue : Queue) (op : opfunc)
      (required_len max_wait_s : Z) (w : world) :
  subprocs (after (_wait_until_queue_condition o label queue op required_len
                                               max_wait_s w))
  = subprocs w.
Proof.
  destruct (wait_effects o label queue op required_len max_wait_s w)
    as (_ & elapsed & _ & ->).
  reflexivity.
Qed.

Ltac unfold_registered :=
  unfold bind, Queue_new, Process_new, subprocs_append, Process_start, emit, ret;
  cbn [queues_made processes_made subprocs];
  match goal with
  | |- context [0 <? ?n] => destruct (0 <? n)
  end;
  [ match goal with
    | |- context [_wait_until_queue_condition ?a ?b ?c ?d ?e ?f ?w1] =>
        let Hs := fresh "Hs" in
        let Hp := fresh "Hp" in
        pose proof (wait_starts_nothing a b c d e f w1) as Hs;
        pose proof (wait_keeps_subprocs a b c d e f w1) as Hp;
        destruct (_wait_until_queue_condition a b c d e f w1) as [[[[]|?] ?w2] ?es];
        unfold events, after, outcome in *; cbn [fst snd subprocs] in *;
        [ rewrite Hp; cbn [app started]; rewrite started_app, Hs, <- app_assoc;
          reflexivity
        | rewrite Hp; cbn [app started]; rewrite Hs; reflexivity ]
    end
  | unfold events, after; cbn [fst snd subprocs app started];
    rewrite <- app_assoc; reflexivity ].

Lemma start_write_and_verify_registers (o : outside) (wait_for_rowcount max_wait_s : Z)
      (w : world) :
  subprocs (after (_start_continuous_write_and_verify o wait_for_rowcount max_wait_s w))
  = subprocs w
    ++ started (events (_start_continuous_write_and_verify o wait_for_rowcount
                                                           max_wait_s w)).
Proof. unfold _start_continuous_write_and_verify. unfold_registered. Qed.

Lemma start_counter_increment_and_verify_registers (o : outside)
      (wait_for_rowcount max_wait_s : Z) (w : world) :
  subprocs (after (_start_continuous_counter_increment_and_verify
                     o wait_for_rowcount max_wait_s w))
  = subprocs w
    ++ started (events (_start_continuous_counter_increment_and_verify
                          o wait_for_rowcount max_wait_s w)).
Proof. unfold _start_continuous_counter_increment_and_verify. unfold_registered. Qed.

(** X9. Both start functions append every subprocess they start to
    [self.subprocs], in the order of the starts and also when the wait
    for the first rows raises; so a following [_terminate_subprocs]
    leaves none of them alive, provided no kill fails. *)
Theorem started_subprocs_are_registered (o : outside) (wait_for_rowcount max_wait_s : Z)
        (w : world) :
  (forall p, kill_raises o p = false) ->
  (subprocs (after (_start_continuous_write_and_verify o wait_for_rowcount max_wait_s w))
   = subprocs w
     ++ started (events (_start_continuous_write_and_verify o wait_for_rowcount
                                                            max_wait_s w)))
  /\ (subprocs (after (_start_continuous_counter_increment_and_verify
                         o wait_for_rowcount max_wait_s w))
      = subprocs w
        ++ started (events (_start_continuous_counter_increment_and_verify
                              o wait_for_rowcount max_wait_s w)))
  /\ (forall p,
         In p (started (events (_start_continuous_write_and_verify
                                  o wait_for_rowcount max_wait_s w))) ->
         is_alive o (after (_terminate_subprocs o
                              (after (_start_continuous_write_and_verify
                                        o wait_for_rowcount max_wait_s w)))) p = false)
  /\ (forall p,
         In p (started (events (_start_continuous_counter_increment_and_verify
                                  o wait_for_rowcount max_wait_s w))) ->
         is_alive o (after (_terminate_subprocs o
                              (after (_start_continuous_counter_increment_and_verify
                                        o wait_for_rowcount max_wait_s w)))) p = false).
Proof.
  intros Hkill.
  split; [apply start_write_and_verify_registers|].
  split; [apply start_counter_increment_and_verify_registers|].
  split; intros p Hp.
  - destruct (terminate_each_effects o
                (subprocs (after (_start_continuous_write_and_verify
                                    o wait_for_rowcount max_wait_s w)))
                (after (_start_continuous_write_and_verify
                          o wait_for_rowcount max_wait_s w)))
      as (_ & _ & _ & _ & _ & _ & _ & Hdead & _).
    rewrite terminate_subprocs_unfold. apply Hdead; [|apply Hkill].
    rewrite start_write_and_verify_registers. apply in_or_app. right. exact Hp.
  - destruct (terminate_each_effects o
                (subprocs (after (_start_continuous_counter_increment_and_verify
                                    o wait_for_rowcount max_wait_s w)))
                (after (_start_continuous_counter_increment_and_verify
                          o wait_for_rowcount max_wait_s w)))
      as (_ & _ & _ & _ & _ & _ & _ & Hdead & _).
    rewrite terminate_subprocs_unfold. apply Hdead; [|apply Hkill].
    rewrite start_counter_increment_and_verify_registers. apply in_or_app. right. exact Hp.
Qed.

Lemma started_subprocs_are_registered_witness :
  subprocs (after (_start_continuous_write_and_verify calm 5000 300 three_nodes))
  = subprocs three_nodes
    ++ started (events (_start_continuous_write_and_verify calm 5000 300 three_nodes)).
Proof.
  refine (proj1 (started_subprocs_are_registered calm 5000 300 three_nodes _)).
  intros p. reflexivity.
Defined.

End UpgradeRuns.

(** ** The JDK chosen by [setUp] *)

Module SetUpTheorems.
Import PyStr Loose Versions Upgrade SubprocessTheorems RollingUpgradeTheorems UpgradeRuns
       UpgradeSetUp.
Local Open Scope upgrade_scope.





(** A version with a two-digit number: the last three characters of
    [cassandra-1.10] are [.10], which reads as version 10. *)
Example last_three_of_long_branch :
  last_three ("git:" +:+ make_branch_str (1, 10)) = ".10"
  /\ jdk_key (last_three ("git:" +:+ make_branch_str (1, 10))) = "JAVA8_HOME"
  /\ jdk_key (make_branch_str (1, 10)) = "JAVA7_HOME".
Proof. repeat split; vm_compute; reflexivity. Qed.







(** A tag without a dash: [git:2.0.17] starts with a word, which is
    above every number, so [PointToPointUpgradeBase.setUp] takes the
    newer JDK for it. *)
Example point_to_point_setUp_of_undashed_tag :
  jdk_key ("git:" +:+ "2.0.17") = "JAVA8_HOME" /\ jdk_key "2.0.17" = "JAVA7_HOME".
Proof. split; vm_compute; reflexivity. Qed.

End SetUpTheorems.

(** ** The helpers of the parallel upgrade *)

Module ParallelTheorems.
Import PyStr Versions ParallelUpgrade VersionOrder.

(** *** Rows written *)

(** The keys 1 to [n]. *)
Definition rows (n : nat) : gset Z := list_to_set (map Z.of_nat (seq 1 n)).

Lemma rows_S (n : nat) : {[ Z.of_nat n + 1 ]} ∪ rows n = rows (S n).
Proof.
  unfold rows. rewrite seq_S, map_app, list_to_set_app_L. simpl.
  rewrite union_empty_r_L, union_comm_L.
  replace (Z.of_nat n + 1) with (Z.of_nat (S n)) by lia. reflexivity.
Qed.

Lemma size_rows (n : nat) : size (rows n) = n.
Proof.
  unfold rows. rewrite size_list_to_set.
  - rewrite length_map, length_seq. reflexivity.
  - apply NoDup_fmap_2; [exact Nat2Z.inj' | apply NoDup_ListNoDup, List.seq_NoDup].
Qed.

Lemma write_loop_keeps_rows (fails : string -> bool) (passes n : nat) :
  exists k,
    (k <= passes)%nat
    /\ snd (fst (write_loop fails passes (rows n))) = rows (n + k)
    /\ snd (write_loop fails passes (rows n))
       = map (fun i => update_statement (Z.of_nat i))
             (seq (S n) (match fst (fst (write_loop fails passes (rows n))) with
                         | Return _ => k
                         | Throw _ => S k
                         end))
    /\ (fst (fst (write_loop fails passes (rows n))) = Return tt -> k = passes)
    /\ ((forall statement, fails statement = false) ->
        fst (fst (write_loop fails passes (rows n))) = Return tt).
Proof.
  revert n. induction passes as [|passes IH]; intros n.
  - exists O. simpl. rewrite Nat.add_0_r. repeat split; auto.
  - cbn [write_loop]. rewrite size_rows.
    replace (Z.of_nat n + 1) with (Z.of_nat (S n)) by lia.
    destruct (fails (update_statement (Z.of_nat (S n)))) eqn:Ef.
    + exists O. simpl. rewrite Nat.add_0_r. repeat split; auto; try lia.
      * discriminate.
      * intros H. rewrite H in Ef. discriminate.
    + replace (Z.of_nat (S n)) with (Z.of_nat n + 1) by lia. rewrite rows_S.
      destruct (IH (S n)) as (k & Hk & Hrows & Hst & Hret & Hall).
      destruct (write_loop fails passes (rows (S n))) as [[r rv] sts].
      simpl in *. exists (S k). split; [lia|]. split; [rewrite Hrows; f_equal; lia|].
      split; [|split].
      * rewrite Hst. replace (Z.of_nat n + 1) with (Z.of_nat (S n)) by lia.
        destruct r; reflexivity.
      * intros H. rewrite (Hret H). reflexivity.
      * exact Hall.
Qed.

Lemma write_values_rows_helper (num : Z) (n : nat) :
  snd (fst (_write_values (fun _ => false) num (rows n))) = rows (n + Z.to_nat num)
  /\ fst (fst (_write_values (fun _ => false) num (rows n))) = Return tt.
Proof.
  destruct (write_loop_keeps_rows (fun _ => false) (Z.to_nat num) n)
    as (k & Hk & Hrows & Hst & Hret & Hall).
  specialize (Hall (fun _ => eq_refl)).
  unfold _write_values.
  destruct (write_loop _ (Z.to_nat num) (rows n)) as [[r rv] sts]. simpl in *.
  subst r. rewrite (Hret eq_refl) in Hrows. auto.
Qed.


Example write_values_twice :
  snd (fst (_write_values (fun _ => false) 100
              (snd (fst (_write_values (fun _ => false) 100 ∅)))))
  = rows 200.
Proof.
  change (∅ : gset Z) with (rows 0).
  destruct (write_values_rows_helper 100 0) as [-> _].
  change (0 + Z.to_nat 100)%nat with 100%nat.
  destruct (write_values_rows_helper 100 100) as [-> _].
  reflexivity.
Qed.

(** *** Counter increments *)

Definition is_timeout (e : executed) : bool :=
  match e with WriteTimeout => true | _ => false end.

Definition is_applied (e : executed) : bool :=
  match e with Applied => true | _ => false end.

(** The number of timeouts in the passes before [n]. *)
Fixpoint timeouts (execute : nat -> executed) (n : nat) : Z :=
  match n with
  | O => 0
  | S m => timeouts execute m + (if is_timeout (execute m) then 1 else 0)
  end.

(** The number of increments of the counter [(key1, key2)] applied in
    the passes before [n]. *)
Fixpoint tally (choice : nat -> string * Z) (execute : nat -> executed)
         (key1 : string) (key2 : Z) (n : nat) : Z :=
  match n with
  | O => 0
  | S m =>
      tally choice execute key1 key2 m
      + (if is_applied (execute m) && String.eqb (fst (choice m)) key1
            && (snd (choice m) =? key2)
         then 1 else 0)
  end.

(** [self.expected_counts[key1][key2]], 0 for a [key2] not yet there. *)
Definition expected (expected_counts : gmap string (gmap Z Z)) (key1 : string) (key2 : Z) : Z :=
  match expected_counts !! key1 with
  | Some inner => default 0 (inner !! key2)
  | None => 0
  end.

Lemma timeouts_nonneg (execute : nat -> executed) (n : nat) : 0 <= timeouts execute n.
Proof. induction n as [|n IH]; simpl; [lia|]. destruct (is_timeout _); lia. Qed.

Lemma timeouts_mono (execute : nat -> executed) (n m : nat) :
  (n <= m)%nat -> timeouts execute n <= timeouts execute m.
Proof.
  induction 1 as [|m _ IH]; [lia|]. simpl. destruct (is_timeout _); lia.
Qed.

Lemma expected_add_one (c c' : gmap string (gmap Z Z)) (key1 : string) (key2 : Z) (k1 : string) (k2 : Z) :
  add_one key1 key2 c = Some c' ->
  expected c' k1 k2
  = expected c k1 k2 + (if String.eqb key1 k1 && (key2 =? k2) then 1 else 0)
  /\ dom c' = dom c.
Proof.
  unfold add_one, expected. destruct (c !! key1) as [inner|] eqn:E; [|discriminate].
  intros [= <-]. split.
  - destruct (String.eqb key1 k1) eqn:E1.
    + apply String.eqb_eq in E1. subst k1. rewrite lookup_insert_eq, E.
      destruct (key2 =? k2) eqn:E2; simpl.
      * apply Z.eqb_eq in E2. subst k2. rewrite lookup_insert_eq. reflexivity.
      * apply Z.eqb_neq in E2. rewrite lookup_insert_ne by exact E2. lia.
    + apply String.eqb_neq in E1. rewrite lookup_insert_ne by exact E1. simpl. lia.
  - rewrite dom_insert_L. apply elem_of_dom_2 in E.
    apply set_eq. intros x. rewrite elem_of_union, elem_of_singleton.
    split; [intros [->|H]; assumption | auto].
Qed.

(** The loop keeps [fail_count] the number of timeouts so far and the
    counts the increments applied so far; it ends after the last pass
    or at the 101st timeout. *)
Lemma increment_loop_invariant (choice : nat -> string * Z) (execute : nat -> executed)
      (passes i : nat) (fail_count : Z) (c : gmap string (gmap Z Z)) :
  (forall j, is_timeout (execute j) || is_applied (execute j) = true) ->
  (forall j, fst (choice j) ∈ dom c) ->
  fail_count = timeouts execute i -> fail_count <= 100 ->
  (forall k1 k2, expected c k1 k2 = tally choice execute k1 k2 i) ->
  exists c' i',
    increment_loop choice execute passes i fail_count c
    = (None, c', timeouts execute i', i')
    /\ (i <= i' <= i + passes)%nat
    /\ ((i' = (i + passes)%nat /\ timeouts execute i' <= 100)
        \/ timeouts execute i' = 101)
    /\ dom c' = dom c
    /\ forall k1 k2, expected c' k1 k2 = tally choice execute k1 k2 i'.
Proof.
  intros Hexec. revert i fail_count c.
  induction passes as [|passes IH]; intros i fail_count c Hkeys Hf Hle Hc.
  - exists c, i. simpl. subst fail_count. rewrite Nat.add_0_r.
    split; [reflexivity|]. split; [lia|]. auto.
  - cbn [increment_loop]. destruct (choice i) as [key1 key2] eqn:Ech.
    pose proof (Hexec i) as Hi. destruct (execute i) eqn:Eex; simpl in Hi;
      [| |discriminate].
    + destruct (add_one key1 key2 c) as [c1|] eqn:Eadd.
      2:{ exfalso. unfold add_one in Eadd. specialize (Hkeys i). rewrite Ech in Hkeys.
          apply elem_of_dom in Hkeys as [inner Hin]. simpl in Hin.
          rewrite Hin in Eadd. discriminate. }
      assert (Ht : timeouts execute (S i) = fail_count)
        by (simpl; rewrite Eex; simpl; lia).
      assert (Hc1 : forall k1 k2, expected c1 k1 k2 = tally choice execute k1 k2 (S i)).
      { intros k1 k2. destruct (expected_add_one c c1 key1 key2 k1 k2 Eadd) as [-> _].
        simpl. rewrite Hc, Eex, Ech. reflexivity. }
      assert (Hd : dom c1 = dom c) by (apply (expected_add_one c c1 key1 key2 key1 key2 Eadd)).
      destruct (100 <? fail_count) eqn:E100; [apply Z.ltb_lt in E100; lia|].
      destruct (IH (S i) fail_count c1) as (c' & i' & Hrun & Hi' & Hend & Hdom & Hexp);
        [intros j; rewrite Hd; apply Hkeys | symmetry; exact Ht | exact Hle | exact Hc1 |].
      exists c', i'. split; [exact Hrun|]. split; [lia|].
      split; [destruct Hend as [[-> H]|H]; [left; split; [lia | exact H] | right; exact H]|].
      split; [congruence | exact Hexp].
    + assert (Ht : timeouts execute (S i) = fail_count + 1)
        by (simpl; rewrite Eex; simpl; lia).
      assert (Hc1 : forall k1 k2, expected c k1 k2 = tally choice execute k1 k2 (S i)).
      { intros k1 k2. simpl. rewrite Hc, Eex. simpl. lia. }
      destruct (100 <? fail_count + 1) eqn:E100.
      * apply Z.ltb_lt in E100. exists c, (S i). rewrite Ht.
        split; [reflexivity|]. split; [lia|]. split; [right; lia|]. auto.
      * apply Z.ltb_ge in E100.
        destruct (IH (S i) (fail_count + 1) c) as (c' & i' & Hrun & Hi' & Hend & Hdom & Hexp);
          [exact Hkeys | symmetry; exact Ht | exact E100 | exact Hc1 |].
        exists c', i'. split; [exact Hrun|]. split; [lia|].
        split; [destruct Hend as [[-> H]|H]; [left; split; [lia | exact H] | right; exact H]|].
        split; [exact Hdom | exact Hexp].
Qed.

Lemma initial_counts (keys : list string) (c : gmap string (gmap Z Z)) :
  dom (fold_left (fun m key => <[key := ∅]> m) keys c) = list_to_set keys ∪ dom c
  /\ ((forall k1 k2, expected c k1 k2 = 0) ->
      forall k1 k2, expected (fold_left (fun m key => <[key := ∅]> m) keys c) k1 k2 = 0).
Proof.
  revert c. induction keys as [|key keys IH]; intros c; simpl.
  - split; [rewrite union_empty_l_L; reflexivity | auto].
  - destruct (IH (<[key := ∅]> c)) as [Hd He]. split.
    + rewrite Hd, dom_insert_L. apply set_eq. intros x.
      rewrite !elem_of_union, elem_of_singleton. tauto.
    + intros Hc. apply He. intros k1 k2. unfold expected.
      destruct (decide (key = k1)) as [->|Hne].
      * rewrite lookup_insert_eq. reflexivity.
      * rewrite lookup_insert_ne by exact Hne. apply Hc.
Qed.

(** X12. When the driver only applies increments or times out,
    [_increment_counters] returns exactly when fewer than 100 of the
    [opcount] increments time out. The loop itself goes on until the
    101st timeout, so with exactly 100 timeouts every pass is made and
    the final [assert] fails. In every case the expected count of each
    counter is the number of increments applied to it, and
    [fail_count] is the number of timeouts, capped at 101. *)
Theorem increment_counters_tolerates_99_timeouts (keys : list string)
        (choice : nat -> string * Z) (execute : nat -> executed) (opcount : Z) :
  (forall j, is_timeout (execute j) || is_applied (execute j) = true) ->
  (forall j, In (fst (choice j)) keys) ->
  exists expected_counts passes,
    _increment_counters keys choice execute opcount
    = (if timeouts execute (Z.to_nat opcount) <? 100 then None else Some TooManyFailures,
       expected_counts, Z.min (timeouts execute (Z.to_nat opcount)) 101, passes)
    /\ (timeouts execute (Z.to_nat opcount) <= 100 -> passes = Z.to_nat opcount)
    /\ (passes <= Z.to_nat opcount)%nat
    /\ forall key1 key2,
        expected expected_counts key1 key2 = tally choice execute key1 key2 passes.
Proof.
  intros Hexec Hkeys. unfold _increment_counters.
  set (c0 := fold_left (fun m key => <[key := ∅]> m) keys ∅).
  destruct (initial_counts keys ∅) as [Hdom Hzero]. fold c0 in Hdom, Hzero.
  destruct (increment_loop_invariant choice execute (Z.to_nat opcount) 0 0 c0)
    as (c' & i' & Hrun & Hi' & Hend & _ & Hexp).
  - exact Hexec.
  - intros j. rewrite Hdom. apply elem_of_union_l, elem_of_list_to_set.
    apply list_elem_of_In, Hkeys.
  - reflexivity.
  - lia.
  - intros k1 k2. apply Hzero. intros k1' k2'. reflexivity.
  - rewrite Hrun. exists c', i'. simpl in Hi', Hend.
    pose proof (timeouts_mono execute i' (Z.to_nat opcount) ltac:(lia)) as Hmono.
    destruct Hend as [[-> Hle]|H101].
    + rewrite Z.min_l by lia. split; [|split; [auto | split; [lia | exact Hexp]]].
      destruct (timeouts execute (Z.to_nat opcount) <? 100); reflexivity.
    + rewrite H101. rewrite Z.min_r by lia.
      assert (E : (timeouts execute (Z.to_nat opcount) <? 100) = false)
        by (apply Z.ltb_ge; lia).
      rewrite E. split; [reflexivity|]. split; [lia|]. split; [lia | exact Hexp].
Qed.

Lemma increment_counters_tolerates_99_timeouts_witness :
  exists expected_counts passes,
    _increment_counters ["k"] (fun _ => ("k", 7)) (fun _ => Applied) 3
    = (if timeouts (fun _ => Applied) (Z.to_nat 3) <? 100
       then None else Some TooManyFailures,
       expected_counts, Z.min (timeouts (fun _ => Applied) (Z.to_nat 3)) 101, passes)
    /\ (timeouts (fun _ => Applied) (Z.to_nat 3) <= 100 -> passes = Z.to_nat 3)
    /\ (passes <= Z.to_nat 3)%nat
    /\ forall key1 key2,
        expected expected_counts key1 key2
        = tally (fun _ => ("k", 7)) (fun _ => Applied) key1 key2 passes.
Proof.
  apply (increment_counters_tolerates_99_timeouts ["k"] (fun _ => ("k", 7))
           (fun _ => Applied) 3).
  - intros j. reflexivity.
  - intros j. left. reflexivity.
Defined.

(** A hundred timeouts and nothing else: all passes are made, and the
    assertion fails. *)
Example a_hundred_timeouts :
  fst (fst (fst (_increment_counters ["k"] (fun _ => ("k", 7)) (fun _ => WriteTimeout) 100)))
  = Some TooManyFailures
  /\ snd (_increment_counters ["k"] (fun _ => ("k", 7)) (fun _ => WriteTimeout) 100)
     = 100%nat.
Proof. split; vm_compute; reflexivity. Qed.

(** *** The version before a tag *)

Lemma index_absent (x : string) (l : list string) : ~ In x l -> index x l = None.
Proof.
  induction l as [|y l IH]; intros H; [reflexivity|]. simpl.
  destruct (String.eqb y x) eqn:E.
  - apply String.eqb_eq in E. exfalso. apply H. left. exact E.
  - rewrite IH; [reflexivity|]. intros Hin. apply H. right. exact Hin.
Qed.

Lemma index_first (x : string) (pre post : list string) :
  ~ In x pre -> index x (pre ++ x :: post) = Some (length pre).
Proof.
  induction pre as [|y pre IH]; intros H; simpl.
  - rewrite String.eqb_refl. reflexivity.
  - destruct (String.eqb y x) eqn:E.
    + apply String.eqb_eq in E. exfalso. apply H. left. exact E.
    + rewrite IH; [reflexivity|]. intros Hin. apply H. right. exact Hin.
Qed.

Lemma last_of_cons_any_default {A} (l : list A) (z d d' : A) :
  List.last (z :: l) d = List.last (z :: l) d'.
Proof.
  revert z. induction l as [|y l IH]; intros z; [reflexivity|].
  change (List.last (y :: l) d = List.last (y :: l) d'). apply IH.
Qed.

Lemma nth_error_last_of_cons {A} (l : list A) (x : A) :
  nth_error (x :: l) (length l) = Some (List.last l x).
Proof.
  revert x. induction l as [|y l IH]; intros x; [reflexivity|].
  change (nth_error (y :: l) (length l) = Some (List.last (y :: l) x)).
  rewrite IH. destruct l as [|z l]; [reflexivity|].
  f_equal. change (List.last (z :: l) y = List.last (z :: l) x).
  apply last_of_cons_any_default.
Qed.

(** X13. [self.test_versions[self.test_versions.index(tag) - 1]], the
    version whose metadata schemas are created before the upgrade to
    [tag], is the version just before the first occurrence of [tag] in
    the list. For a tag at the head of the list the index is -1 and
    the result is the last version of the list; for a tag that is not
    in the list [index] raises [ValueError]. *)
Theorem version_before_is_the_predecessor (pre post : list string) (before tag : string) :
  ~ In tag pre -> before <> tag ->
  version_before (pre ++ before :: tag :: post) tag = Return before
  /\ version_before (tag :: post) tag = Return (List.last post tag)
  /\ version_before pre tag = Throw (ValueError tag).
Proof.
  intros Hpre Hne. split; [|split].
  - unfold version_before.
    replace (pre ++ before :: tag :: post) with ((pre ++ [before]) ++ tag :: post)
      by (rewrite <- app_assoc; reflexivity).
    rewrite index_first.
    + rewrite length_app. simpl. unfold item.
      replace (Z.of_nat (length pre + 1) - 1) with (Z.of_nat (length pre)) by lia.
      destruct (Z.of_nat (length pre) <? 0) eqn:E; [apply Z.ltb_lt in E; lia|].
      rewrite E, Nat2Z.id, <- app_assoc. simpl.
      rewrite nth_error_app2 by lia. rewrite Nat.sub_diag. reflexivity.
    + intros Hin. apply in_app_or in Hin as [Hin|[Hin|[]]]; [exact (Hpre Hin) | exact (Hne Hin)].
  - unfold version_before. cbn [index]. rewrite String.eqb_refl. unfold item.
    change (Z.of_nat 0 - 1 <? 0) with true. cbn match.
    replace (Z.of_nat 0 - 1 + Z.of_nat (length (tag :: post)))
      with (Z.of_nat (length post)) by (cbn [length]; lia).
    destruct (Z.of_nat (length post) <? 0) eqn:E; [apply Z.ltb_lt in E; lia|].
    rewrite Nat2Z.id.
    rewrite nth_error_last_of_cons. reflexivity.
  - unfold version_before. rewrite index_absent by exact Hpre. reflexivity.
Qed.

Lemma version_before_is_the_predecessor_witness :
  version_before (["cassandra-2.1"] ++ "cassandra-2.2" :: "cassandra-3.0" :: ["trunk"])
                 "cassandra-3.0"
  = Return "cassandra-2.2"
  /\ version_before ("cassandra-3.0" :: ["trunk"]) "cassandra-3.0"
     = Return (List.last ["trunk"] "cassandra-3.0")
  /\ version_before ["cassandra-2.1"] "cassandra-3.0" = Throw (ValueError "cassandra-3.0").
Proof.
  apply (version_before_is_the_predecessor ["cassandra-2.1"] ["trunk"]
           "cassandra-2.2" "cassandra-3.0").
  - intros [H|[]]. discriminate.
  - discriminate.
Defined.

(** A path that comes back to a version: the second upgrade to 2.1
    takes the version before the first 2.1, which here is the last of
    the list. *)
Example version_before_repeated_tag :
  version_before ["cassandra-2.1"; "cassandra-2.2"; "cassandra-2.1"] "cassandra-2.1"
  = Return "cassandra-2.1".
Proof. reflexivity. Qed.

(** *** The point upgrades *)

Definition pair_list {A} (p : A * A) : list A := [fst p; snd p].

(** [PROTOCOL_PATHS[3]], the default [UPGRADE_PATH]. *)
Definition protocol_3_path : list (Z * Z) := [(2, 1); (2, 2); (3, 0); TRUNK_VER].

Lemma point_upgrades_from_pairs {A} (pre l : list A) :
  point_upgrades_from (pre ++ l) (length l) (length pre)
  = map pair_list (combine l (tail l)).
Proof.
  revert pre. induction l as [|x l IH]; intros pre; [reflexivity|].
  cbn [length point_upgrades_from]. unfold slice2.
  rewrite drop_app_length.
  specialize (IH (pre ++ [x])). rewrite <- app_assoc, length_app in IH. simpl in IH.
  replace (length pre + 1)%nat with (S (length pre)) in IH by lia.
  destruct l as [|y l].
  - simpl. exact IH.
  - cbn [firstn length Nat.eqb tail combine map] in IH |- *. rewrite IH. reflexivity.
Qed.

Lemma single_digit_at_least_1_2 (a b : Z) :
  0 <= a <= 9 -> 0 <= b <= 9 ->
  at_least_1_2 (a, b) = (0 <=? tuple_cmp (a, b) (1, 2)).
Proof.
  intros Ha Hb.
  assert (Hc : forall x, 0 <= x <= 9 ->
                 x = 0 \/ x = 1 \/ x = 2 \/ x = 3 \/ x = 4 \/ x = 5 \/ x = 6 \/ x = 7
                 \/ x = 8 \/ x = 9) by (intros; lia).
  destruct (Hc a Ha) as [->|[->|[->|[->|[->|[->|[->|[->|[->| ->]]]]]]]]];
    destruct (Hc b Hb) as [->|[->|[->|[->|[->|[->|[->|[->|[->| ->]]]]]]]]];
    vm_compute; reflexivity.
Qed.

(** X14. [POINT_UPGRADES] holds the pairs of neighbours of [points], in
    order: one pair less than there are points, none for fewer than
    two. [points] filters [UPGRADE_PATH] by comparing version strings
    with ['1.2']; for versions whose two numbers have one digit each
    this keeps exactly the versions from 1.2 on. *)
Theorem point_upgrades_are_the_neighbours (UPGRADE_PATH : list (Z * Z)) :
  Forall (fun v => 0 <= fst v <= 9 /\ 0 <= snd v <= 9) UPGRADE_PATH ->
  points UPGRADE_PATH = List.filter (fun v => 0 <=? tuple_cmp v (1, 2)) UPGRADE_PATH
  /\ POINT_UPGRADES UPGRADE_PATH
     = map pair_list (combine (points UPGRADE_PATH) (tail (points UPGRADE_PATH)))
  /\ length (POINT_UPGRADES UPGRADE_PATH) = (length (points UPGRADE_PATH) - 1)%nat.
Proof.
  intros Hd.
  assert (Hp : POINT_UPGRADES UPGRADE_PATH
               = map pair_list (combine (points UPGRADE_PATH) (tail (points UPGRADE_PATH))))
    by (unfold POINT_UPGRADES; exact (point_upgrades_from_pairs [] (points UPGRADE_PATH))).
  split; [|split; [exact Hp|]].
  - clear Hp. unfold points. induction Hd as [|[a b] l [Ha Hb] _ IH]; [reflexivity|].
    simpl in *. rewrite (single_digit_at_least_1_2 a b Ha Hb), IH. reflexivity.
  - rewrite Hp, length_map, length_combine.
    destruct (points UPGRADE_PATH) as [|x l]; cbn [tail length]; lia.
Qed.

Lemma point_upgrades_are_the_neighbours_witness :
  points protocol_3_path
  = List.filter (fun v => 0 <=? tuple_cmp v (1, 2)) protocol_3_path
  /\ POINT_UPGRADES protocol_3_path
     = map pair_list (combine (points protocol_3_path) (tail (points protocol_3_path)))
  /\ length (POINT_UPGRADES protocol_3_path) = (length (points protocol_3_path) - 1)%nat.
Proof.
  apply (point_upgrades_are_the_neighbours protocol_3_path).
  repeat constructor; simpl; lia.
Defined.

Example point_upgrades_of_protocol_3 :
  POINT_UPGRADES protocol_3_path
  = [[(2, 1); (2, 2)]; [(2, 2); (3, 0)]; [(3, 0); (3, 2)]].
Proof. vm_compute. reflexivity. Qed.

(** Version 1.10 is left out: as a string it is below ['1.2']. *)
Example points_drop_1_10 : points [(1, 10); (2, 0)] = [(2, 0)].
Proof. vm_compute. reflexivity. Qed.

End ParallelTheorems.

(** ** Reading the output of [git ls-remote] *)

Module GitRefsTheorems.
Import PyStr GitRefs VersionOrder.

(** A ref as [git ls-remote -h -t] prints it; a peeled tag has [^{}]
    after its name. *)
Record ref : Type := mkRef {
  ref_sha : string;
  ref_type : string;
  ref_name : string;
  peeled : bool
}.

Definition render (r : ref) : string :=
  ref_sha r
  +:+ String tab ("refs" +:+ String slash
                    (ref_type r +:+ String slash
                       (ref_name r +:+ (if peeled r then "^{}" else "")))).

Fixpoint ls_remote (refs : list ref) : string :=
  match refs with
  | [] => EmptyString
  | [r] => render r
  | r :: rest => render r +:+ String newline (ls_remote rest)
  end.

Definition plain (s : string) : bool :=
  negb (has_char tab s) && negb (has_char newline s) && negb (has_char slash s)
  && negb (has_char caret s).

Definition well_formed (r : ref) : bool :=
  plain (ref_sha r) && plain (ref_type r) && plain (ref_name r).

Definition store (refs : gmap string (gmap string string)) (r : ref)
  : gmap string (gmap string string) :=
  set_ref refs (ref_type r) (ref_name r) (ref_sha r).

Lemma plain_parts (s : string) :
  plain s = true ->
  has_char tab s = false /\ has_char newline s = false /\ has_char slash s = false
  /\ has_char caret s = false.
Proof.
  unfold plain. intros H.
  repeat (apply andb_true_iff in H as [H ?]).
  repeat split; apply negb_true_iff; assumption.
Qed.

Lemma split_in_two (c : ascii) (a b : string) :
  has_char c a = false -> has_char c b = false ->
  split c (a +:+ String c b) = [a; b].
Proof.
  intros Ha Hb. rewrite split_at_first_separator by exact Ha.
  rewrite split_without_separator by exact Hb. reflexivity.
Qed.

Lemma split_in_three (c : ascii) (a b d : string) :
  has_char c a = false -> has_char c b = false -> has_char c d = false ->
  split c (a +:+ String c (b +:+ String c d)) = [a; b; d].
Proof.
  intros Ha Hb Hd. rewrite split_at_first_separator by exact Ha.
  rewrite split_in_two by assumption. reflexivity.
Qed.

Lemma has_char_cons (c x : ascii) (s : string) :
  has_char c (String x s) = Ascii.eqb x c || has_char c s.
Proof. simpl. destruct (Ascii.eqb x c); reflexivity. Qed.

Lemma parse_rendered (r : ref) :
  well_formed r = true ->
  parse_row (render r) = Some (ref_type r, ref_name r, ref_sha r)
  /\ has_char newline (render r) = false.
Proof.
  unfold well_formed. intros H.
  apply andb_true_iff in H as [H Hn]. apply andb_true_iff in H as [Hs Ht].
  apply plain_parts in Hs as (Hs1 & Hs2 & Hs3 & Hs4).
  apply plain_parts in Ht as (Ht1 & Ht2 & Ht3 & Ht4).
  apply plain_parts in Hn as (Hn1 & Hn2 & Hn3 & Hn4).
  set (tail_ := ref_name r +:+ (if peeled r then "^{}" else "")).
  assert (Hsuffix : forall c, has_char c (ref_name r) = false ->
                      has_char c "^{}" = false -> has_char c tail_ = false).
  { intros c Hc Hc'. subst tail_. rewrite has_char_app, Hc.
    destruct (peeled r); [exact Hc' | reflexivity]. }
  assert (Hfull : forall c, Ascii.eqb slash c = false ->
                    has_char c "refs" = false -> has_char c (ref_type r) = false ->
                    has_char c tail_ = false ->
                    has_char c ("refs" +:+ String slash (ref_type r +:+ String slash tail_))
                    = false).
  { intros c Hc H1 H2 H3.
    rewrite has_char_app, H1, has_char_cons, Hc, has_char_app, H2, has_char_cons, Hc, H3.
    reflexivity. }
  split.
  - unfold parse_row, render. fold tail_.
    rewrite split_in_two;
      [| exact Hs1 | apply Hfull; [reflexivity | reflexivity | exact Ht1 |
                                   apply Hsuffix; [exact Hn1 | reflexivity]]].
    rewrite split_in_three;
      [| reflexivity | exact Ht3 | apply Hsuffix; [exact Hn3 | reflexivity]].
    subst tail_. destruct (peeled r).
    + rewrite split_in_two; [reflexivity | exact Hn4 | reflexivity].
    + change (ref_name r +:+ "") with (ref_name r +:+ EmptyString).
      rewrite append_empty_r, split_without_separator by exact Hn4. reflexivity.
  - unfold render. fold tail_. rewrite has_char_app, Hs2, has_char_cons.
    change (Ascii.eqb tab newline) with false.
    apply Hfull; [reflexivity | reflexivity | exact Ht2 |
                  apply Hsuffix; [exact Hn2 | reflexivity]].
Qed.

Lemma parse_ls_remote (refs : list ref) (m : gmap string (gmap string string)) :
  refs <> [] -> forallb well_formed refs = true ->
  parse_rows (split newline (ls_remote refs)) m = Refs (fold_left store refs m).
Proof.
  revert m. induction refs as [|r refs IH]; intros m Hne Hwf; [congruence|].
  simpl in Hwf. apply andb_true_iff in Hwf as [Hr Hrest].
  destruct (parse_rendered r Hr) as [Hparse Hnl].
  destruct refs as [|r' refs].
  - cbn [ls_remote]. rewrite split_without_separator by exact Hnl.
    cbn [parse_rows]. rewrite Hparse. reflexivity.
  - change (ls_remote (r :: r' :: refs))
      with (render r +:+ String newline (ls_remote (r' :: refs))).
    rewrite split_at_first_separator by exact Hnl.
    cbn [parse_rows]. rewrite Hparse.
    rewrite IH by (congruence || exact Hrest). reflexivity.
Qed.

Definition lookup2 (refs : gmap string (gmap string string)) (ref_type name : string)
  : option string :=
  match refs !! ref_type with
  | Some names => names !! name
  | None => None
  end.

Lemma sha_for_ref_name_lookup (refs : gmap string (gmap string string))
      (name ref_type : string) :
  fst (sha_for_ref_name refs name ref_type) = lookup2 refs ref_type name.
Proof.
  unfold sha_for_ref_name, lookup2. destruct (refs !! ref_type); reflexivity.
Qed.

Lemma lookup2_set_ref (refs : gmap string (gmap string string))
      (t n sha t' n' : string) :
  lookup2 (set_ref refs t n sha) t' n'
  = if String.eqb t t' && String.eqb n n' then Some sha else lookup2 refs t' n'.
Proof.
  unfold lookup2, set_ref.
  destruct (String.eqb t t') eqn:Et.
  - apply String.eqb_eq in Et. subst t'. rewrite lookup_insert_eq.
    destruct (String.eqb n n') eqn:En; simpl.
    + apply String.eqb_eq in En. subst n'. rewrite lookup_insert_eq. reflexivity.
    + apply String.eqb_neq in En. rewrite lookup_insert_ne by exact En.
      destruct (refs !! t); [reflexivity | apply lookup_empty].
  - apply String.eqb_neq in Et. rewrite lookup_insert_ne by exact Et. reflexivity.
Qed.

Definition same_ref (r r' : ref) : bool :=
  String.eqb (ref_type r') (ref_type r) && String.eqb (ref_name r') (ref_name r).

Lemma lookup2_later_rows (after : list ref) (refs : gmap string (gmap string string))
      (r : ref) :
  forallb (fun r' => negb (same_ref r r')) after = true ->
  lookup2 (fold_left store after refs) (ref_type r) (ref_name r)
  = lookup2 refs (ref_type r) (ref_name r).
Proof.
  revert refs. induction after as [|r' after IH]; intros refs H; [reflexivity|].
  simpl in H. apply andb_true_iff in H as [Hr' H]. simpl.
  rewrite IH by exact H. unfold store. rewrite lookup2_set_ref.
  unfold same_ref in Hr'. apply negb_true_iff in Hr'. rewrite Hr'. reflexivity.
Qed.

Lemma has_char_path (c : ascii) (p t n : string) :
  Ascii.eqb slash c = false ->
  has_char c p = false -> has_char c t = false -> has_char c n = false ->
  has_char c (p +:+ String slash (t +:+ String slash n)) = false.
Proof.
  intros Hc Hp Ht Hn.
  rewrite has_char_app, Hp, has_char_cons, Hc, has_char_app, Ht, has_char_cons, Hc, Hn.
  reflexivity.
Qed.

Lemma extended_row (sha p t n s : string) :
  (sha +:+ String tab (p +:+ String slash (t +:+ String slash n))) +:+ String slash s
  = sha +:+ String tab (p +:+ String slash (t +:+ String slash (n +:+ String slash s))).
Proof.
  rewrite append_assoc, append_cons, append_assoc, append_cons, append_assoc, append_cons.
  reflexivity.
Qed.

(** X15. For the output of [git ls-remote] on refs whose sha, type and
    name hold no tab, newline, slash or caret, the loop that fills
    [MAPPED_REFS] ends normally, and [sha_for_ref_name] gives for a
    name the sha of the last row with that type and name, be the row
    peeled ([name^{}]) or not: the peeled row of an annotated tag, which
    comes after the tag's own row, overrides it. Empty output, and a
    ref name with a further slash, raise [ValueError]. *)
Theorem mapped_refs_keep_the_last_row (before after : list ref) (r : ref) (s : string) :
  forallb well_formed (before ++ r :: after) = true ->
  forallb (fun r' => negb (same_ref r r')) after = true ->
  has_char tab s = false -> has_char newline s = false ->
  (exists refs,
      MAPPED_REFS (ls_remote (before ++ r :: after)) = Refs refs
      /\ fst (sha_for_ref_name refs (ref_name r) (ref_type r)) = Some (ref_sha r))
  /\ MAPPED_REFS EmptyString = ValueError EmptyString
  /\ MAPPED_REFS (render r +:+ String slash s) = ValueError (render r +:+ String slash s).
Proof.
  intros Hwf Hafter Hs1 Hs2. split; [|split].
  - unfold MAPPED_REFS. rewrite parse_ls_remote; [| destruct before; discriminate | exact Hwf].
    eexists. split; [reflexivity|].
    rewrite sha_for_ref_name_lookup, fold_left_app. cbn [fold_left].
    rewrite lookup2_later_rows by exact Hafter.
    unfold store at 1. rewrite lookup2_set_ref, !String.eqb_refl. reflexivity.
  - reflexivity.
  - rewrite forallb_app in Hwf. apply andb_true_iff in Hwf as [_ Hwf].
    simpl in Hwf. apply andb_true_iff in Hwf as [Hr _].
    destruct (parse_rendered r Hr) as [_ Hnl].
    pose proof Hr as Hr'. unfold well_formed in Hr'.
    apply andb_true_iff in Hr' as [Hr' Hn]. apply andb_true_iff in Hr' as [Hsha Ht].
    apply plain_parts in Hsha as (Hsha1 & _ & _ & _).
    apply plain_parts in Ht as (Ht1 & _ & Ht3 & _).
    apply plain_parts in Hn as (Hn1 & _ & Hn3 & _).
    unfold MAPPED_REFS.
    rewrite split_without_separator
      by (rewrite has_char_app, Hnl, has_char_cons, Hs2; reflexivity).
    cbn [parse_rows].
    assert (Hrow : parse_row (render r +:+ String slash s) = None); [|rewrite Hrow; reflexivity].
    unfold parse_row, render.
    set (tail_ := ref_name r +:+ (if peeled r then "^{}" else "")).
    assert (Htail : forall c, has_char c (ref_name r) = false ->
                      has_char c "^{}" = false -> has_char c tail_ = false).
    { intros c Hc Hc'. subst tail_. rewrite has_char_app, Hc.
      destruct (peeled r); [exact Hc' | reflexivity]. }
    rewrite (extended_row (ref_sha r) "refs" (ref_type r) tail_ s).
    rewrite split_in_two;
      [| exact Hsha1
       | apply has_char_path; [reflexivity | reflexivity | exact Ht1 |];
         rewrite has_char_app, (Htail tab Hn1 eq_refl), has_char_cons, Hs1; reflexivity].
    rewrite split_at_first_separator by reflexivity.
    rewrite split_at_first_separator by exact Ht3.
    rewrite split_at_first_separator by (apply Htail; [exact Hn3 | reflexivity]).
    pose proof (split_has_a_piece slash s) as Hp.
    destruct (split slash s) as [|x rest]; [simpl in Hp; lia | reflexivity].
Qed.

(** An annotated tag with its peeled row, and a branch. *)
Definition tag_row : ref := mkRef "6a1e2b7" "tags" "cassandra-2.1.0" false.
Definition peeled_row : ref := mkRef "c6a2c65" "tags" "cassandra-2.1.0" true.
Definition branch_row : ref := mkRef "0f1fb43" "heads" "trunk" false.

Lemma mapped_refs_keep_the_last_row_witness :
  (exists refs,
      MAPPED_REFS (ls_remote ([tag_row] ++ peeled_row :: [branch_row])) = Refs refs
      /\ fst (sha_for_ref_name refs (ref_name peeled_row) (ref_type peeled_row))
         = Some (ref_sha peeled_row))
  /\ MAPPED_REFS EmptyString = ValueError EmptyString
  /\ MAPPED_REFS (render peeled_row +:+ String slash "x")
     = ValueError (render peeled_row +:+ String slash "x").
Proof.
  apply (mapped_refs_keep_the_last_row [tag_row] [branch_row] peeled_row "x");
    reflexivity.
Defined.

Example ls_remote_rows :
  ls_remote [tag_row; peeled_row]
  = "6a1e2b7" +:+ String tab "refs/tags/cassandra-2.1.0" +:+ String newline
      ("c6a2c65" +:+ String tab "refs/tags/cassandra-2.1.0^{}").
Proof. reflexivity. Qed.

End GitRefsTheorems.

(** ** Packing, unpacking and the rewritten header *)

Module CompressionTheorems.
Import BadCrc BadCrcTheorems CompressionError.

Lemma Z_of_byte_of_Z (z : Z) : Z_of_byte (byte_of_Z z) = z mod 256.
Proof.
  unfold Z_of_byte, byte_of_Z.
  pose proof (Z.mod_pos_bound z 256 ltac:(lia)) as Hr.
  destruct (Byte.of_N (Z.to_N (z mod 256))) as [b|] eqn:E.
  - apply Byte.to_of_N in E. rewrite E. lia.
  - apply Byte.of_N_None_iff in E. lia.
Qed.

(** [struct.unpack('>i', struct.pack('>i', n))[0] == n] *)
Lemma unpack_pack_i (n : Z) :
  - 2 ^ 31 <= n < 2 ^ 31 ->
  exists packed, pack_i n = Ok packed /\ length packed = 4%nat
                 /\ unpack_signed 4 packed = Ok n.
Proof.
  intros Hn. unfold pack_i.
  assert (E : (- 2 ^ 31 <=? n) && (n <? 2 ^ 31) = true)
    by (apply andb_true_iff; split; [apply Z.leb_le | apply Z.ltb_lt]; lia).
  rewrite E. eexists. split; [reflexivity|]. split; [reflexivity|].
  unfold unpack_signed, be_value. cbn [length Nat.eqb fold_left].
  rewrite !Z_of_byte_of_Z, !Z.shiftr_div_pow2 by lia.
  change (2 ^ 8) with 256. change (2 ^ 16) with (256 * 256).
  change (2 ^ 24) with (256 * 256 * 256).
  rewrite <- !Z.div_div by lia.
  pose proof (Z.div_mod n 256 ltac:(lia)) as H0.
  pose proof (Z.mod_pos_bound n 256 ltac:(lia)) as B0.
  set (q1 := n / 256) in *.
  pose proof (Z.div_mod q1 256 ltac:(lia)) as H1.
  pose proof (Z.mod_pos_bound q1 256 ltac:(lia)) as B1.
  set (q2 := q1 / 256) in *.
  pose proof (Z.div_mod q2 256 ltac:(lia)) as H2.
  pose proof (Z.mod_pos_bound q2 256 ltac:(lia)) as B2.
  set (q3 := q2 / 256) in *.
  pose proof (Z.div_mod q3 256 ltac:(lia)) as H3.
  pose proof (Z.mod_pos_bound q3 256 ltac:(lia)) as B3.
  change (8 * Z.of_nat 4 - 1) with 31.
  change (2 ^ 31) with 2147483648 in *.
  f_equal. clear E.
  generalize dependent (q3 / 256). generalize dependent (q3 mod 256).
  generalize dependent (q2 mod 256). generalize dependent (q1 mod 256).
  generalize dependent (n mod 256). clearbody q1 q2 q3.
  intros r0 H0 B0 r1 H1 B1 r2 H2 B2 r3 B3 q4 H3.
  destruct (_ <? 2147483648) eqn:Eu; [apply Z.ltb_lt in Eu | apply Z.ltb_ge in Eu]; lia.
Qed.

(** *** The range of [crc32] *)

Lemma lxor_range (a b : Z) :
  0 <= a < 2 ^ 32 -> 0 <= b < 2 ^ 32 -> 0 <= Z.lxor a b < 2 ^ 32.
Proof.
  intros Ha Hb.
  assert (H0 : 0 <= Z.lxor a b) by (apply Z.lxor_nonneg; lia).
  split; [exact H0|].
  destruct (Z.eq_dec (Z.lxor a b) 0) as [->|Hne]; [reflexivity|].
  apply Z.log2_lt_pow2; [lia|].
  pose proof (Z.log2_lxor a b ltac:(lia) ltac:(lia)) as Hl.
  assert (La : Z.log2 a < 32).
  { destruct (Z.eq_dec a 0) as [->|]; [reflexivity | apply Z.log2_lt_pow2; lia]. }
  assert (Lb : Z.log2 b < 32).
  { destruct (Z.eq_dec b 0) as [->|]; [reflexivity | apply Z.log2_lt_pow2; lia]. }
  lia.
Qed.

Lemma crc_shift_range (crc : Z) : 0 <= crc < 2 ^ 32 -> 0 <= crc_shift crc < 2 ^ 32.
Proof.
  intros H. unfold crc_shift.
  assert (Hs : 0 <= Z.shiftr crc 1 < 2 ^ 32).
  { rewrite Z.shiftr_div_pow2 by lia. change (2 ^ 1) with 2.
    change (2 ^ 32) with 4294967296 in *.
    pose proof (Z.div_mod crc 2 ltac:(lia)).
    pose proof (Z.mod_pos_bound crc 2 ltac:(lia)). lia. }
  destruct (Z.testbit crc 0); [|exact Hs].
  apply lxor_range; [exact Hs | split; [lia | reflexivity]].
Qed.

Lemma crc_byte_range (crc : Z) (b : byte) :
  0 <= crc < 2 ^ 32 -> 0 <= crc_byte crc b < 2 ^ 32.
Proof.
  intros H. unfold crc_byte.
  assert (H0 : 0 <= Z.lxor crc (Z_of_byte b) < 2 ^ 32).
  { apply lxor_range; [exact H|]. pose proof (Z_of_byte_range b).
    change (2 ^ 32) with 4294967296. lia. }
  generalize dependent (Z.lxor crc (Z_of_byte b)). intros c Hc.
  do 8 (apply crc_shift_range in Hc). exact Hc.
Qed.

Lemma crc32_range (s : list byte) : - 2 ^ 31 <= crc32 s < 2 ^ 31.
Proof.
  unfold crc32, crc32_unsigned.
  assert (H : forall crc, 0 <= crc < 2 ^ 32 -> 0 <= fold_left crc_byte s crc < 2 ^ 32).
  { induction s as [|b s IH]; intros crc Hc; [exact Hc|].
    simpl. apply IH, crc_byte_range, Hc. }
  specialize (H 4294967295 ltac:(split; [lia | reflexivity])).
  pose proof (lxor_range _ 4294967295 H ltac:(split; [lia | reflexivity])) as Hu.
  change (2 ^ 32) with 4294967296 in *. change (2 ^ 31) with 2147483648 in *.
  destruct (_ <? 2147483648) eqn:E; [apply Z.ltb_lt in E | apply Z.ltb_ge in E]; lia.
Qed.

(** The check value of CRC-32. *)
Example crc32_check_value :
  crc32_unsigned (list_byte_of_string "123456789") = 3421780262
  /\ crc32 (list_byte_of_string "123456789") = -873187034.
Proof. split; vm_compute; reflexivity. Qed.

(** *** Replacing keeps the length *)

Lemma starts_with_length (old s : list byte) :
  starts_with old s = true -> (length old <= length s)%nat.
Proof.
  revert s. induction old as [|a old IH]; intros [|b s]; simpl; try lia; try discriminate.
  intros H. apply andb_true_iff in H as [_ H]. apply IH in H. lia.
Qed.

Lemma replace_from_length (old new : list byte) (skip : nat) (s : list byte) :
  length new = length old -> (0 < length old)%nat -> (skip <= length s)%nat ->
  length (replace_from old new skip s) = (length s - skip)%nat.
Proof.
  intros Hlen Hpos. revert skip. induction s as [|b s IH]; intros skip Hs; [reflexivity|].
  cbn [replace_from]. destruct skip as [|skip].
  - destruct (starts_with old (b :: s)) eqn:E.
    + apply starts_with_length in E. simpl in E.
      rewrite length_app, IH by lia. simpl. lia.
    + simpl. rewrite IH by lia. lia.
  - simpl in Hs. rewrite IH by lia. reflexivity.
Qed.

Lemma bytes_eqb_refl (a : list byte) : bytes_eqb a a = true.
Proof.
  induction a as [|x a IH]; [reflexivity|]. simpl. rewrite IH, andb_true_r.
  apply Byte.byte_dec_lb. reflexivity.
Qed.

(** *** The rewritten file *)

Lemma unpack_signed_length (width : nat) (s : list byte) (n : Z) :
  unpack_signed width s = Ok n -> length s = width.
Proof.
  unfold unpack_signed. destruct (Nat.eqb (length s) width) eqn:E; [|discriminate].
  intros _. apply Nat.eqb_eq, E.
Qed.

Lemma unpack_signed_short (width : nat) (s : list byte) (e : exn) :
  unpack_signed width s = Raise e -> length s <> width.
Proof.
  unfold unpack_signed. destruct (Nat.eqb (length s) width) eqn:E; [discriminate|].
  intros _. apply Nat.eqb_neq, E.
Qed.

Lemma read_at_length (pos : Z) (n : nat) (file : list byte) :
  length (read_at pos n file) = Nat.min n (length file - Z.to_nat pos).
Proof. unfold read_at. rewrite length_firstn, length_skipn. reflexivity. Qed.

Lemma write_at_start (data : list byte) : write_at 0 data [] = data.
Proof.
  unfold write_at. cbn [firstn app]. rewrite skipn_nil, app_nil_r. reflexivity.
Qed.

Lemma write_at_end (data file : list byte) :
  write_at (length file) data file = file ++ data.
Proof.
  unfold write_at. rewrite Nat.sub_diag. cbn [repeat]. rewrite app_nil_r, firstn_all.
  rewrite skipn_all2 by lia. rewrite app_nil_r. reflexivity.
Qed.

(** The length of the header as the loop computes it: 14 bytes and
    the parameters; 0 for a file too short to hold the length. *)
Definition header_length (file : list byte) : Z :=
  match unpack_signed 2 (read_at 12 2 file) with
  | Ok h => 12 + (2 + Z.land h 65535)
  | Raise _ => 0
  end.

Definition new_header (file : list byte) : list byte :=
  replace LZ4Compressor LZ5Compressor (read_at 0 (Z.to_nat (header_length file)) file).

Lemma header_length_nonneg (file : list byte) : 0 <= header_length file.
Proof.
  unfold header_length. destruct (unpack_signed 2 _) as [h|]; [|lia].
  pose proof (Z.land_nonneg h 65535) as [_ H]. specialize (H ltac:(right; lia)). lia.
Qed.

(** X16. In [test_compression_error] the two checks after the rewrite
    cannot fail: whenever the checks before the rewrite pass, the file
    is left as the header with [LZ5Compressor] for [LZ4Compressor],
    followed by the four bytes of its CRC and nothing else (opening
    the file for writing cuts off the rest), and the CRC read back is
    the one computed. [struct.error] only comes from a file too short
    for the header or its CRC. *)
Theorem rewrite_compressor_verifies_what_it_wrote (file : list byte) :
  (forall file',
      rewrite_compressor file = inr file' ->
      exists packed,
        pack_i (get_header_crc (new_header file)) = Ok packed
        /\ file' = new_header file ++ packed
        /\ Z.of_nat (length file') = header_length file + 4
        /\ unpack_signed 4 (read_at (header_length file) 4 file')
           = Ok (get_header_crc (new_header file)))
  /\ (forall what,
         rewrite_compressor file = inl (AssertionFailure what) ->
         what <> "f.read(header_length) == header_bytes"
         /\ what <> "crc == get_header_crc(header_bytes)")
  /\ (rewrite_compressor file = inl StructFailure ->
      Z.of_nat (length file) < 14 \/ Z.of_nat (length file) < header_length file + 4).
Proof.
  pose proof (header_length_nonneg file) as Hnn.
  unfold rewrite_compressor, new_header, header_length in *.
  destruct (unpack_signed 2 (read_at 12 2 file)) as [h|e] eqn:Eh.
  2:{ split; [discriminate|]. split; [discriminate|]. intros _. left.
      apply unpack_signed_short in Eh. rewrite read_at_length in Eh.
      change (Z.to_nat 12) with 12%nat in Eh. lia. }
  set (hl := 12 + (2 + Z.land h 65535)) in *.
  destruct (unpack_signed 4 (read_at hl 4 file)) as [crc|e] eqn:Ec.
  2:{ split; [discriminate|]. split; [discriminate|]. intros _. right.
      apply unpack_signed_short in Ec. rewrite read_at_length in Ec. lia. }
  apply unpack_signed_length in Ec. rewrite read_at_length in Ec.
  set (header := read_at 0 (Z.to_nat hl) file).
  assert (Hh : length header = Z.to_nat hl).
  { subst header. rewrite read_at_length. change (Z.to_nat 0) with 0%nat. lia. }
  set (header' := replace LZ4Compressor LZ5Compressor header).
  assert (Hh' : length header' = Z.to_nat hl).
  { subst header'. unfold replace. rewrite replace_from_length; [lia | reflexivity | |lia].
    simpl. lia. }
  destruct (unpack_pack_i (get_header_crc header') (crc32_range _))
    as (packed & Hpack & Hlen & Hun).
  assert (Hfile : write_at (Z.to_nat hl) packed (write_at 0 header' []) = header' ++ packed)
    by (rewrite write_at_start, <- Hh'; apply write_at_end).
  assert (Hread : read_at 0 (Z.to_nat hl) (header' ++ packed) = header').
  { unfold read_at. change (Z.to_nat 0) with 0%nat. cbn [skipn].
    rewrite <- Hh'. apply take_app_length. }
  assert (Hcrc : read_at hl 4 (header' ++ packed) = packed).
  { unfold read_at. rewrite <- Hh', drop_app_length. rewrite <- Hlen. apply firstn_all. }
  destruct (negb (get_header_crc header =? crc));
    [split; [discriminate|]; split; [|discriminate];
     intros what [= <-]; split; discriminate|].
  destruct (negb (occurs LZ4Compressor header));
    [split; [discriminate|]; split; [|discriminate];
     intros what [= <-]; split; discriminate|].
  destruct (occurs LZ4Compressor header');
    [split; [discriminate|]; split; [|discriminate];
     intros what [= <-]; split; discriminate|].
  destruct (negb (occurs LZ5Compressor header'));
    [split; [discriminate|]; split; [|discriminate];
     intros what [= <-]; split; discriminate|].
  rewrite Hpack, Hfile, Hread, bytes_eqb_refl, Hcrc, Hun, Z.eqb_refl. cbn [negb].
  split; [|split; discriminate].
  intros file' [= <-]. exists packed. split; [reflexivity|]. split; [reflexivity|].
  split; [rewrite length_app; lia|]. rewrite Hcrc. exact Hun.
Qed.

(** A version 5 header with the 13 parameter bytes [LZ4Compressor],
    its CRC, and a segment body that the rewrite cuts off. *)
Definition sample_header : list byte :=
  [x00; x00; x00; x05; x00; x00; x01; x50; xc4; x2a; x9e; x3f; x00; x0d] ++ LZ4Compressor.

Definition sample_segment : list byte :=
  sample_header
  ++ match pack_i (get_header_crc sample_header) with Ok packed => packed | Raise _ => [] end
  ++ [x2a; x2a; x2a; x2a; x2a; x2a].

Example rewrite_sample_segment :
  exists packed,
    pack_i (get_header_crc (replace LZ4Compressor LZ5Compressor sample_header)) = Ok packed
    /\ rewrite_compressor sample_segment
       = inr (replace LZ4Compressor LZ5Compressor sample_header ++ packed)
    /\ length sample_segment = 37%nat
    /\ length (replace LZ4Compressor LZ5Compressor sample_header ++ packed) = 31%nat.
Proof.
  eexists. split; [vm_compute; reflexivity|].
  split; [vm_compute; reflexivity|].
  split; vm_compute; reflexivity.
Qed.

End CompressionTheorems.

(** ** Restoring the commitlog permissions *)

Module CommitLogRestore.
Import CommitLog CommitLogTheorems.

Lemma with_mode_set_mode (m : Z) (name : string) (mode : Z) (e : entry) :
  hidden name = false -> with_mode m (set_mode name mode e) = with_mode m e.
Proof.
  intros Hn. unfold with_mode, set_mode.
  destruct (String.eqb (entry_name e) name) eqn:E; [|reflexivity].
  apply String.eqb_eq in E. cbn [entry_name]. rewrite E, Hn. reflexivity.
Qed.

(** Whatever [chmod_each] did, and whether it raised or not, the
    names are the same and the files whose names start with a dot are
    untouched. *)
Lemma chmod_each_with_mode (privileged : bool) (names : list string) (mode m : Z)
      (d : directory) :
  forallb (fun name => negb (hidden name)) names = true ->
  map (with_mode m) (entries (snd (chmod_each privileged names mode d)))
  = map (with_mode m) (entries d).
Proof.
  revert d. induction names as [|name names IH]; intros d Hn; [reflexivity|].
  simpl in Hn. apply andb_true_iff in Hn as [Hname Hn]. apply negb_true_iff in Hname.
  cbn [chmod_each]. unfold chmod_file.
  destruct (can_search privileged d); [|reflexivity].
  rewrite IH by exact Hn. cbn [entries]. rewrite map_map.
  apply map_ext. intros e. apply with_mode_set_mode. exact Hname.
Qed.

Lemma glob_star_not_hidden (privileged : bool) (d : directory) :
  forallb (fun name => negb (hidden name)) (glob_star privileged d) = true.
Proof.
  unfold glob_star. destruct (can_list privileged d); [|reflexivity].
  apply forallb_forall. intros name Hin. apply filter_In in Hin as [_ H]. exact H.
Qed.

Lemma change_commitlog_perms_with_mode (privileged : bool) (mode m : Z) (d : directory) :
  map (with_mode m) (entries (snd (_change_commitlog_perms privileged mode d)))
  = map (with_mode m) (entries d).
Proof.
  unfold _change_commitlog_perms.
  rewrite chmod_each_with_mode by apply glob_star_not_hidden. reflexivity.
Qed.

Lemma tearDown_result (privileged : bool) (d : directory) :
  tearDown privileged d = (Ok tt, mkDirectory 448 (map (with_mode 448) (entries d))).
Proof.
  unfold tearDown.
  rewrite change_commitlog_perms_accessible by (right; split; reflexivity).
  reflexivity.
Qed.

(** X17. [tearDown] undoes every earlier [_change_commitlog_perms]:
    whatever mode was set before, by whichever user, and whether that
    call raised or not, [tearDown] returns and leaves the directory as
    if it alone had run, the directory and every listed file with
    [rwx] for the owner, the files whose names start with a dot as they
    were. Run twice it changes nothing more. *)
Theorem tearDown_restores_after_any_change (privileged : bool) (mode : Z) (d : directory) :
  tearDown privileged (snd (_change_commitlog_perms privileged mode d))
  = tearDown privileged d
  /\ tearDown privileged d = (Ok tt, mkDirectory 448 (map (with_mode 448) (entries d)))
  /\ tearDown privileged (snd (tearDown privileged d)) = tearDown privileged d
  /\ map entry_name (entries (snd (_change_commitlog_perms privileged mode d)))
     = map entry_name (entries d).
Proof.
  split; [|split; [|split]].
  - rewrite !tearDown_result, change_commitlog_perms_with_mode. reflexivity.
  - apply tearDown_result.
  - unfold tearDown at 2. rewrite !tearDown_result, change_commitlog_perms_with_mode.
    reflexivity.
  - pose proof (change_commitlog_perms_with_mode privileged mode 0 d) as H.
    apply (f_equal (map entry_name)) in H. rewrite !map_map in H.
    rewrite (map_ext (fun e => entry_name (with_mode 0 e)) entry_name) in H
      by (intros e; unfold with_mode; destruct (hidden (entry_name e)); reflexivity).
    rewrite (map_ext (fun e => entry_name (with_mode 0 e)) entry_name) in H
      by (intros e; unfold with_mode; destruct (hidden (entry_name e)); reflexivity).
    exact H.
Qed.

(** After the failure was provoked as an unprivileged user the files
    still have their modes and the directory has none; [tearDown]
    brings both to [rwx]. *)
Example tearDown_after_provoked_failure :
  snd (fst (_provoke_commitlog_failure false sample)) = mkDirectory 0 (entries sample)
  /\ tearDown false (snd (fst (_provoke_commitlog_failure false sample)))
     = (Ok tt, mkDirectory 448 [mkEntry "CommitLog-5-1.log" 448;
                                mkEntry "CommitLog-5-2.log" 448]).
Proof. split; reflexivity. Qed.

End CommitLogRestore.

(** ** The writer and the checker never disagree *)

Module WriteAndVerifyTheorems.
Import WriteAndVerify.

(** The keys a subprocess holds in a local variable. *)
Definition writer_keys (s : state) : list string :=
  match writer s with
  | BeforeExecute key _ | BeforePut key _ => [key]
  | _ => []
  end.

Definition checker_keys (s : state) : list string :=
  match checker s with
  | BeforeSelect key _ | BeforeDone key _ _ => [key]
  | _ => []
  end.

(** The keys that are in a queue or in the hands of a subprocess. *)
Definition in_flight (s : state) : list string :=
  map fst (to_verify_queue s) ++ verification_done_queue s
  ++ writer_keys s ++ checker_keys s.

(** The keys that [uuid.uuid4()] gives in a run. *)
Definition drawn (t : turn) : list string :=
  match t with
  | WriterTurn _ uuid_key _ _ => [uuid_key]
  | CheckerTurn _ => []
  end.

(** What every reachable state satisfies. *)
Record consistent (s : state) : Prop := mkConsistent {
  no_mismatch : mismatch s = false;
  done_bounded : (length (verification_done_queue s) <= done_maxsize)%nat;
  keys_apart : NoDup (in_flight s);
  queued_is_stored :
    forall key val, In (key, val) (to_verify_queue s) -> cf s !! key = Some val;
  written_is_stored :
    match writer s with
    | BeforePut key val => cf s !! key = Some val
    | _ => True
    end;
  checked_is_stored :
    match checker s with
    | BeforeSelect key expected_val => cf s !! key = Some expected_val
    | BeforeDone _ expected_val actual_val => actual_val = expected_val
    | BeforeAssert expected_val actual_val => actual_val = expected_val
    | _ => True
    end
}.

Lemma started_consistent : consistent started.
Proof.
  split; simpl; auto.
  - unfold done_maxsize. lia.
  - constructor.
  - contradiction.
Qed.

Lemma in_map_fst (key val : string) (l : list (string * string)) :
  In (key, val) l -> key ∈ map fst l.
Proof.
  intros H. apply list_elem_of_In. apply (in_map fst) in H. exact H.
Qed.

Lemma held_key_is_apart (a b c : list string) (key x : string) :
  NoDup (a ++ b ++ [key] ++ c) -> x ∈ a \/ x ∈ c -> x <> key.
Proof.
  intros Hnd Hx ->.
  assert (Hp : a ++ b ++ [key] ++ c ≡ₚ key :: (a ++ b ++ c)) by solve_Permutation.
  rewrite Hp in Hnd. apply NoDup_cons in Hnd as [Hnot _]. apply Hnot.
  rewrite !elem_of_app. tauto.
Qed.

Lemma NoDup_of_submseteq (l k : list string) : l ⊆+ k -> NoDup k -> NoDup l.
Proof.
  intros H Hk. apply submseteq_sublist_l in H as (l' & Hsub & Hperm).
  rewrite <- Hperm in Hk. exact (sublist_NoDup _ _ Hk Hsub).
Qed.

Ltac open_state :=
  unfold in_flight, writer_keys, checker_keys in *;
  cbn [cf to_verify_queue verification_done_queue writer checker mismatch map fst] in *.

Ltac fewer_keys H := apply (fun Hs => NoDup_of_submseteq _ _ Hs H); solve_submseteq.

(** A step of the checker keeps the state consistent and brings no
    key into flight. *)
Lemma checker_step_consistent (executed : bool) (s : state) :
  consistent s ->
  consistent (checker_step executed s)
  /\ in_flight (checker_step executed s) ⊆+ in_flight s.
Proof.
  intros [Hm Hd Hk Hq Hw Hc]. destruct s as [table tv dn w c m].
  unfold checker_step. open_state.
  destruct c as [|key expected|key expected actual|expected actual|].
  - (* get_nowait *)
    destruct tv as [|[key expected] rest].
    + split; [split; assumption | reflexivity].
    + split; [split|]; open_state; auto.
      * fewer_keys Hk.
      * intros k v Hin. apply Hq. right. exact Hin.
      * apply Hq. left. reflexivity.
      * solve_submseteq.
  - (* the select *)
    destruct (if executed then table !! key else None) as [actual|] eqn:E.
    + split; [split|]; open_state; auto.
      destruct executed; [|discriminate]. congruence.
    + split; [split|]; open_state; auto.
      * fewer_keys Hk.
      * solve_submseteq.
  - (* put_nowait on the done queue *)
    destruct (length dn <? done_maxsize)%nat eqn:E;
      (split; [split|]; open_state; auto).
    + apply Nat.ltb_lt in E. rewrite length_app. simpl. lia.
    + fewer_keys Hk.
    + solve_submseteq.
    + fewer_keys Hk.
    + solve_submseteq.
  - (* assertEqual *)
    subst actual. rewrite String.eqb_refl.
    split; [split|]; open_state; auto.
  - split; [split; assumption | reflexivity].
Qed.

(** A step of the writer keeps the state consistent when the key it
    draws is not in flight. *)
Lemma writer_step_consistent (rewrite_probability randint : Z) (uuid_key uuid_val : string)
      (executed : bool) (s : state) :
  consistent s -> uuid_key ∉ in_flight s ->
  consistent (writer_step rewrite_probability randint uuid_key uuid_val executed s)
  /\ in_flight (writer_step rewrite_probability randint uuid_key uuid_val executed s)
     ⊆+ uuid_key :: in_flight s.
Proof.
  intros [Hm Hd Hk Hq Hw Hc] Hfresh. destruct s as [table tv dn w c m].
  unfold writer_step. open_state.
  assert (Hnew : NoDup (uuid_key :: (map fst tv ++ dn ++
                          match w with
                          | BeforeExecute key _ | BeforePut key _ => [key]
                          | _ => []
                          end ++
                          match c with
                          | BeforeSelect key _ | BeforeDone key _ _ => [key]
                          | _ => []
                          end)))
    by (apply NoDup_cons; split; assumption).
  destruct w as [|key val|key val|].
  - (* the choice of the key *)
    destruct ((0 <? rewrite_probability) && (randint <=? rewrite_probability)).
    + destruct dn as [|key rest].
      * split; [split|]; open_state; auto.
        -- fewer_keys Hnew.
        -- solve_submseteq.
      * split; [split|]; open_state; auto.
        -- simpl in Hd. lia.
        -- fewer_keys Hk.
        -- apply submseteq_cons. solve_submseteq.
    + split; [split|]; open_state; auto.
      * fewer_keys Hnew.
      * solve_submseteq.
  - (* the update *)
    destruct executed.
    + split; [split|]; open_state; auto.
      * intros k v Hin. rewrite lookup_insert_ne; [apply Hq, Hin|].
        apply not_eq_sym.
        apply (held_key_is_apart (map fst tv) dn
                 (match c with
                  | BeforeSelect key0 _ | BeforeDone key0 _ _ => [key0]
                  | _ => []
                  end) key k Hk).
        left. apply (in_map_fst k v), Hin.
      * apply lookup_insert_eq.
      * destruct c as [|k e|k e a|e a|]; auto.
        rewrite lookup_insert_ne; [exact Hc|].
        apply not_eq_sym.
        apply (held_key_is_apart (map fst tv) dn [k] key k Hk).
        right. apply list_elem_of_In. left. reflexivity.
      * apply submseteq_cons. reflexivity.
    + split; [split|]; open_state; auto.
      * fewer_keys Hk.
      * apply submseteq_cons. solve_submseteq.
  - (* put_nowait on the queue of rows to verify *)
    split; [split|]; open_state; auto.
    + rewrite map_app. cbn [map fst].
      fewer_keys Hk.
    + intros k v Hin. apply in_app_or in Hin as [Hin|[Hin|[]]]; [apply Hq, Hin|].
      injection Hin as <- <-. exact Hw.
    + rewrite map_app. cbn [map fst]. apply submseteq_cons. solve_submseteq.
  - split; [split; assumption|]. apply submseteq_cons. reflexivity.
Qed.

Lemma run_consistent (rewrite_probability : Z) (turns : list turn) (s : state)
      (used : list string) :
  consistent s -> in_flight s ⊆ used ->
  NoDup (flat_map drawn turns) ->
  (forall key, key ∈ flat_map drawn turns -> key ∉ used) ->
  consistent (run rewrite_probability turns s).
Proof.
  revert s used. induction turns as [|t turns IH]; intros s used Hs Hused Hnd Hfresh;
    [exact Hs|].
  cbn [run fold_left]. fold (run rewrite_probability turns (step rewrite_probability t s)).
  cbn [flat_map] in Hnd, Hfresh.
  destruct t as [randint uuid_key uuid_val executed|executed]; cbn [step drawn app] in *.
  - apply NoDup_cons in Hnd as [Hnot Hnd].
    assert (Hk : uuid_key ∉ in_flight s).
    { intros Hin. apply (Hfresh uuid_key); [left | apply Hused, Hin]. }
    destruct (writer_step_consistent rewrite_probability randint uuid_key uuid_val
                executed s Hs Hk) as [Hs' Hsub].
    apply (IH _ (uuid_key :: used)); [exact Hs' | | exact Hnd |].
    + intros x Hx. apply (fun H => elem_of_submseteq _ _ x H Hsub) in Hx.
      apply elem_of_cons in Hx as [->|Hx]; [left | right; apply Hused, Hx].
    + intros key Hkey Hin. apply elem_of_cons in Hin as [->|Hin]; [exact (Hnot Hkey)|].
      apply (Hfresh key); [right; exact Hkey | exact Hin].
  - destruct (checker_step_consistent executed s Hs) as [Hs' Hsub].
    apply (IH _ used); [exact Hs' | | exact Hnd | exact Hfresh].
    intros x Hx. apply Hused. exact (elem_of_submseteq _ _ x Hx Hsub).
Qed.

(** X18. In every interleaving of the statements of [data_writer] and
    [data_checker], started on empty queues and an empty table, and as
    long as [uuid.uuid4()] gives the writer no key twice, the
    [assertEqual] of the checker never fails: a row waiting to be
    verified holds the value queued with it, no key is at the same
    time in two places (a queue, or the hands of a subprocess), and the
    queue of verified keys holds at most 500 keys. This holds for any
    [rewrite_probability] and also when the driver raises in one of
    the subprocesses. *)
Theorem checker_never_finds_a_mismatch (rewrite_probability : Z) (turns : list turn) :
  NoDup (flat_map drawn turns) ->
  mismatch (run rewrite_probability turns started) = false
  /\ (length (verification_done_queue (run rewrite_probability turns started)) <= 500)%nat
  /\ NoDup (in_flight (run rewrite_probability turns started))
  /\ (forall key val,
         In (key, val) (to_verify_queue (run rewrite_probability turns started)) ->
         cf (run rewrite_probability turns started) !! key = Some val)
  /\ match checker (run rewrite_probability turns started) with
     | BeforeAssert expected_val actual_val => actual_val = expected_val
     | _ => True
     end.
Proof.
  intros Hnd.
  destruct (run_consistent rewrite_probability turns started [] started_consistent)
    as [Hm Hd Hk Hq Hw Hc].
  - intros x Hx. exact Hx.
  - exact Hnd.
  - intros key _ Hin. apply elem_of_nil in Hin. exact Hin.
  - split; [exact Hm|]. split; [exact Hd|]. split; [exact Hk|]. split; [exact Hq|].
    destruct (checker (run rewrite_probability turns started)); auto.
Qed.

(** A row is written, verified, rewritten and verified again. *)
Definition rewrite_once : list turn :=
  [WriterTurn 80 "k1" "v1" true; WriterTurn 80 "k2" "v1" true; WriterTurn 80 "k3" "v1" true;
   CheckerTurn true; CheckerTurn true; CheckerTurn true; CheckerTurn true;
   WriterTurn 10 "k4" "v2" true; WriterTurn 10 "k5" "v2" true; WriterTurn 10 "k6" "v2" true;
   CheckerTurn true; CheckerTurn true].

Example rewrite_once_state :
  run 25 rewrite_once started
  = mkState (<["k1" := "v2"]> (<["k1" := "v1"]> ∅)) [] [] BeforeChoice
            (BeforeDone "k1" "v2" "v2") false.
Proof. reflexivity. Qed.

Lemma checker_never_finds_a_mismatch_witness :
  mismatch (run 25 rewrite_once started) = false
  /\ (length (verification_done_queue (run 25 rewrite_once started)) <= 500)%nat
  /\ NoDup (in_flight (run 25 rewrite_once started))
  /\ (forall key val,
         In (key, val) (to_verify_queue (run 25 rewrite_once started)) ->
         cf (run 25 rewrite_once started) !! key = Some val)
  /\ match checker (run 25 rewrite_once started) with
     | BeforeAssert expected_val actual_val => actual_val = expected_val
     | _ => True
     end.
Proof.
  apply (checker_never_finds_a_mismatch 25 rewrite_once).
  apply (bool_decide_unpack _). vm_compute. exact I.
Defined.

(** The same key drawn twice: the second write is read when the first
    value is expected. *)
Example repeated_key_is_a_mismatch :
  mismatch (run 25 [WriterTurn 80 "k" "v1" true; WriterTurn 80 "k" "v1" true;
                    WriterTurn 80 "k" "v1" true;
                    WriterTurn 80 "k" "v2" true; WriterTurn 80 "k" "v2" true;
                    CheckerTurn true; CheckerTurn true; CheckerTurn true; CheckerTurn true]
                started)
  = true.
Proof. reflexivity. Qed.

End WriteAndVerifyTheorems.

(** ** Reading the upgrade path from the environment *)

Module UpgradePathTheorems.
Import PyStr Versions UpgradePath VersionOrder.

(** A path as [UPGRADE_PATH] expects it: ["2_1:2_2:3_0"]. *)
Definition render_version (v : Z * Z) : string :=
  of_int (fst v) +:+ String underscore (of_int (snd v)).

Fixpoint render (path : list (Z * Z)) : string :=
  match path with
  | [] => EmptyString
  | [v] => render_version v
  | v :: rest => render_version v +:+ String colon (render rest)
  end.

Lemma digit_is_plain (c : ascii) :
  Loose.classify c = Loose.Digit ->
  is_space c = false /\ Ascii.eqb c underscore = false /\ Ascii.eqb c colon = false
  /\ Ascii.eqb c "+" = false /\ Ascii.eqb c "-" = false.
Proof.
  destruct c as [[] [] [] [] [] [] [] []]; vm_compute; intros H;
    try discriminate; repeat split.
Qed.

Lemma digits_are_plain (s : string) :
  digits_only s = true ->
  has_char underscore s = false /\ has_char colon s = false
  /\ rstrip s = s /\ lstrip s = s.
Proof.
  induction s as [|c s IH]; [repeat split|].
  cbn [digits_only]. destruct (Loose.classify c) eqn:Ec; try discriminate.
  intros Hd. destruct (IH Hd) as (H1 & H2 & H3 & H4).
  destruct (digit_is_plain c Ec) as (Hs & Hu & Hc & _).
  cbn [has_char rstrip lstrip]. rewrite Hu, Hc, H1, H2, H3, Hs.
  repeat split. destruct s; reflexivity.
Qed.

Lemma int_of_digit_string (s : string) :
  digits_only s = true -> s <> EmptyString -> int s = Some (int_of_digits s).
Proof.
  intros Hd Hne. destruct (digits_are_plain s Hd) as (_ & _ & Hr & Hl).
  unfold int. rewrite Hr, Hl.
  destruct s as [|c s]; [congruence|].
  assert (Hc : Loose.classify c = Loose.Digit)
    by (cbn [digits_only] in Hd; destruct (Loose.classify c); congruence).
  destruct (digit_is_plain c Hc) as (_ & _ & _ & Hplus & Hminus).
  assert (Hu : unsigned_int (String c s) = Some (int_of_digits (String c s)))
    by (unfold unsigned_int; rewrite Hd; reflexivity).
  destruct c as [[] [] [] [] [] [] [] []]; try discriminate; exact Hu.
Qed.

Lemma digits_only_of_int (n : Z) :
  0 <= n -> digits_only (of_int n) = true /\ of_int n <> EmptyString.
Proof. exact (of_int_all_digits n). Qed.

Lemma int_of_int (n : Z) : 0 <= n -> int (of_int n) = Some n.
Proof.
  intros Hn. destruct (digits_only_of_int n Hn) as [Hd Hne].
  rewrite int_of_digit_string by assumption.
  rewrite int_of_digits_of_int by exact Hn. reflexivity.
Qed.

Definition natural (v : Z * Z) : bool := (0 <=? fst v) && (0 <=? snd v).

Lemma vertup_of_rendered (v : Z * Z) :
  natural v = true ->
  vertup (render_version v) = Some v /\ has_char colon (render_version v) = false.
Proof.
  unfold natural. intros H. apply andb_true_iff in H as [Ha Hb].
  apply Z.leb_le in Ha, Hb. destruct v as [a b]. cbn [fst snd] in *.
  destruct (digits_only_of_int a Ha) as [Hda _].
  destruct (digits_only_of_int b Hb) as [Hdb _].
  destruct (digits_are_plain _ Hda) as (Hua & Hca & _).
  destruct (digits_are_plain _ Hdb) as (Hub & Hcb & _).
  unfold vertup, render_version. cbn [fst snd]. split.
  - rewrite split_at_first_separator by exact Hua.
    rewrite split_without_separator by exact Hub.
    rewrite !int_of_int by assumption. reflexivity.
  - rewrite has_char_app, Hca. cbn [has_char]. rewrite Hcb. reflexivity.
Qed.

Lemma vertups_of_rendered (path : list (Z * Z)) :
  path <> [] -> forallb natural path = true ->
  vertups (split colon (render path)) = inr path.
Proof.
  induction path as [|v path IH]; intros Hne Hn; [congruence|].
  simpl in Hn. apply andb_true_iff in Hn as [Hv Hn].
  destruct (vertup_of_rendered v Hv) as [Hparse Hcolon].
  destruct path as [|v' path].
  - cbn [render]. rewrite split_without_separator by exact Hcolon.
    cbn [vertups]. rewrite Hparse. reflexivity.
  - change (render (v :: v' :: path))
      with (render_version v +:+ String colon (render (v' :: path))).
    rewrite split_at_first_separator by exact Hcolon.
    cbn [vertups]. rewrite Hparse, IH by (congruence || exact Hn). reflexivity.
Qed.

Lemma render_not_empty (path : list (Z * Z)) :
  path <> [] -> forallb natural path = true ->
  exists c s, render path = String c s.
Proof.
  intros Hne Hn. destruct path as [|v path]; [congruence|].
  simpl in Hn. apply andb_true_iff in Hn as [Hv _].
  unfold natural in Hv. apply andb_true_iff in Hv as [Ha _]. apply Z.leb_le in Ha.
  destruct (digits_only_of_int (fst v) Ha) as [_ Hnon].
  assert (H : exists c s, render_version v = String c s).
  { unfold render_version. destruct (of_int (fst v)) as [|c s]; [congruence|].
    exists c. eexists. apply append_cons. }
  destruct H as (c & s & H). destruct path as [|v' path].
  - exists c, s. exact H.
  - change (render (v :: v' :: path))
      with (render_version v +:+ String colon (render (v' :: path))).
    rewrite H. exists c. eexists. apply append_cons.
Qed.

(** X19. A custom path of versions with non-negative numbers, written
    as [UPGRADE_PATH] expects it (["2_1:2_2:3_0"]), is read back as
    that path, whatever valid [PROTOCOL_VERSION] is set. Without
    [UPGRADE_PATH], or with an empty one, the path is that of the
    protocol version, 3 by default; a protocol version other than 1 to
    4 then raises [KeyError]. A piece without an underscore raises
    [ValueError], and so does a [PROTOCOL_VERSION] that is no number,
    even when a custom path is given. *)
Theorem upgrade_path_is_read_back (path : list (Z * Z)) (environ : gmap string string)
        (n : Z) :
  path <> [] -> forallb natural path = true -> 0 <= n ->
  UPGRADE_PATH (<["UPGRADE_PATH" := render path]>
                  (<["PROTOCOL_VERSION" := of_int n]> environ)) = inr path
  /\ UPGRADE_PATH (<["UPGRADE_PATH" := render path]> ∅) = inr path
  /\ UPGRADE_PATH (<["UPGRADE_PATH" := EmptyString]> (<["PROTOCOL_VERSION" := of_int n]> ∅))
     = match PROTOCOL_PATHS n with
       | Some path => inr path
       | None => inl (KeyError n)
       end
  /\ UPGRADE_PATH ∅ = inr [(2, 1); (2, 2); (3, 0); (3, 2)]
  /\ UPGRADE_PATH (<["UPGRADE_PATH" := of_int n]> ∅) = inl ValueError
  /\ UPGRADE_PATH (<["UPGRADE_PATH" := render path]> (<["PROTOCOL_VERSION" := "v3"]> ∅))
     = inl ValueError.
Proof.
  intros Hne Hnat Hn.
  destruct (render_not_empty path Hne Hnat) as (c & s & Hr).
  pose proof (vertups_of_rendered path Hne Hnat) as Hv. rewrite Hr in Hv.
  repeat split.
  - unfold UPGRADE_PATH, PROTOCOL_VERSION.
    rewrite lookup_insert_ne by discriminate. rewrite lookup_insert_eq, int_of_int by exact Hn.
    rewrite lookup_insert_eq, Hr. exact Hv.
  - unfold UPGRADE_PATH, PROTOCOL_VERSION.
    rewrite lookup_insert_ne by discriminate. rewrite lookup_empty.
    rewrite lookup_insert_eq, Hr. exact Hv.
  - unfold UPGRADE_PATH, PROTOCOL_VERSION.
    rewrite lookup_insert_ne by discriminate. rewrite lookup_insert_eq, int_of_int by exact Hn.
    rewrite lookup_insert_eq. reflexivity.
  - unfold UPGRADE_PATH, PROTOCOL_VERSION.
    rewrite lookup_insert_ne by discriminate. rewrite lookup_empty, lookup_insert_eq.
    destruct (digits_only_of_int n Hn) as [Hd Hnon].
    destruct (digits_are_plain _ Hd) as (Hu & Hc & _).
    destruct (of_int n) as [|c' s'] eqn:E; [congruence|].
    rewrite split_without_separator by exact Hc.
    cbn [vertups]. unfold vertup. rewrite split_without_separator by exact Hu. reflexivity.
Qed.

Lemma upgrade_path_is_read_back_witness :
  UPGRADE_PATH (<["UPGRADE_PATH" := render [(1, 2); (2, 0); (2, 1)]]>
                  (<["PROTOCOL_VERSION" := of_int 4]> ∅))
  = inr [(1, 2); (2, 0); (2, 1)]
  /\ render [(1, 2); (2, 0); (2, 1)] = "1_2:2_0:2_1".
Proof.
  split; [|reflexivity].
  refine (proj1 (upgrade_path_is_read_back [(1, 2); (2, 0); (2, 1)] ∅ 4 _ _ _));
    [discriminate | reflexivity | lia].
Defined.

Example upgrade_path_with_spaces_and_signs :
  UPGRADE_PATH (<["UPGRADE_PATH" := " 2_+1 :2_2"]> ∅) = inr [(2, 1); (2, 2)]
  /\ UPGRADE_PATH (<["UPGRADE_PATH" := "2_1_0:2_2"]> ∅) = inl ValueError
  /\ UPGRADE_PATH (<["UPGRADE_PATH" := "2_1:"]> ∅) = inl ValueError
  /\ UPGRADE_PATH (<["PROTOCOL_VERSION" := "5"]> ∅) = inl (KeyError 5).
Proof. repeat split; vm_compute; reflexivity. Qed.

End UpgradePathTheorems.

(** ** The latest tag of a version *)

Module LatestTagTheorems.
Import PyStr Loose Versions LatestTag VersionOrder.

(** The tags of an example repository. *)
Definition some_tags : list string :=
  ["cassandra-2.1.9"; "cassandra-2.0.17"; "cassandra-2.1.12"; "cassandra-2.1.0-rc1";
   "cassandra-2.1.0"; "2.1.12-tentative"; "cassandra-2.10.1"; "cassandra-2.2.0-beta1";
   "drivers-2.1.3"].

Example group_1_examples :
  group_1 "2.1" "cassandra-2.1.12" = Some "2.1.12"
  /\ group_1 "2.1" "cassandra-2.1.0-rc1" = Some "2.1.0-rc1"
  /\ group_1 "2.1" "2.1.12-tentative" = Some "2.1.12-tentative"
  /\ group_1 "2.1" "2.1." = Some "2.1."
  /\ group_1 "2.1" "cassandra-2.1." = None
  /\ group_1 "2.1" "cassandra-2.10.1" = None
  /\ group_1 "2.1" "cassandra-2.1.12-" = None
  /\ group_1 "2.1" "cassandra-2x1.12" = Some "2x1.12"
  /\ group_1 "2.1" ("cassandra-2.1.12" +:+ String "010" EmptyString) = Some "2.1.12".
Proof. repeat split; vm_compute; reflexivity. Qed.

Example latest_of_some_tags :
  latest_tag_matching some_tags (2, 1) = Some "cassandra-2.1.12"
  /\ latest_tag_matching some_tags (2, 0) = Some "cassandra-2.0.17"
  /\ latest_tag_matching some_tags (3, 0) = None
  /\ map git_ref (collect "2.1" some_tags)
     = ["cassandra-2.1.0-rc1"; "cassandra-2.1.0"; "cassandra-2.1.9"; "2.1.12-tentative";
        "cassandra-2.1.12"].
Proof. repeat split; vm_compute; reflexivity. Qed.

(** The wrapped tags that match, in the order of the tags. *)
Definition candidates (ver_str : string) (tags : list string) : list GitSemVer :=
  flat_map (fun t => match group_1 ver_str t with
                     | Some semver_str => [GitSemVer_init t semver_str]
                     | None => []
                     end) tags.

Definition below (x y : GitSemVer) : Prop := GitSemVer_cmp x y <= 0.

(** [__cmp__] is transitive on the wrappers of a list. *)
Definition transitive_on (wrappers : list GitSemVer) : bool :=
  forallb (fun x =>
    forallb (fun y =>
      forallb (fun z =>
        implb ((GitSemVer_cmp x y <=? 0) && (GitSemVer_cmp y z <=? 0))
              (GitSemVer_cmp x z <=? 0))
        wrappers) wrappers) wrappers.

Fixpoint sorted (l : list GitSemVer) : Prop :=
  match l with
  | [] => True
  | x :: l' => Forall (below x) l' /\ sorted l'
  end.

Lemma cmp_flip (a b : GitSemVer) : GitSemVer_cmp a b = - GitSemVer_cmp b a.
Proof.
  unfold GitSemVer_cmp. rewrite (orb_comm (Z.of_nat (length (version (semver b))) <=? 3)).
  destruct ((Z.of_nat (length (version (semver a))) <=? 3)
            || (Z.of_nat (length (version (semver b))) <=? 3));
    [|apply cmp_list_antisym].
  destruct (PyStr.contains (vstring (semver a) +:+ "-") (vstring (semver b))) eqn:A;
    destruct (PyStr.contains (vstring (semver b) +:+ "-") (vstring (semver a))) eqn:B;
    try reflexivity.
  - apply contains_dashed_is_longer in A. apply contains_dashed_is_longer in B. lia.
  - rewrite (String.eqb_sym (vstring (semver a)) (vstring (semver b))).
    destruct (String.eqb (vstring (semver b)) (vstring (semver a))); [reflexivity|].
    apply cmp_list_antisym.
Qed.

Lemma transitive_on_use (wrappers : list GitSemVer) (x y z : GitSemVer) :
  transitive_on wrappers = true ->
  In x wrappers -> In y wrappers -> In z wrappers ->
  below x y -> below y z -> below x z.
Proof.
  unfold transitive_on, below. intros H Hx Hy Hz Hxy Hyz.
  rewrite forallb_forall in H. specialize (H x Hx).
  rewrite forallb_forall in H. specialize (H y Hy).
  rewrite forallb_forall in H. specialize (H z Hz).
  apply Z.leb_le in Hxy, Hyz. rewrite Hxy, Hyz in H. simpl in H.
  apply Z.leb_le. exact H.
Qed.

Lemma sorted_app (a b : list GitSemVer) :
  sorted (a ++ b)
  <-> sorted a /\ sorted b /\ forall x y, In x a -> In y b -> below x y.
Proof.
  induction a as [|x a IH]; simpl.
  - split; [intros H; split; [exact I | split; [exact H | contradiction]] | tauto].
  - rewrite IH, Forall_app. split.
    + intros [[Ha Hb] (Hsa & Hsb & Hab)]. split; [split; assumption|].
      split; [exact Hsb|]. intros x' y [<-|Hx'] Hy.
      * rewrite Forall_forall in Hb. apply Hb, list_elem_of_In, Hy.
      * apply Hab; assumption.
    + intros [[Ha Hsa] (Hsb & Hab)]. split; [split; [exact Ha|]|].
      * apply Forall_forall. intros y Hy. apply Hab; [left; reflexivity|].
        apply list_elem_of_In, Hy.
      * split; [exact Hsa|]. split; [exact Hsb|]. intros x' y Hx' Hy.
        apply Hab; [right; exact Hx' | exact Hy].
Qed.

Lemma split_at_index (a : list GitSemVer) (mid : nat) (y : GitSemVer) :
  nth_error a mid = Some y ->
  a = firstn mid a ++ y :: skipn (S mid) a
  /\ firstn (S mid) a = firstn mid a ++ [y]
  /\ skipn mid a = y :: skipn (S mid) a.
Proof.
  revert mid. induction a as [|z a IH]; intros [|mid] H; simpl in *; try discriminate.
  - injection H as ->. auto.
  - destruct (IH mid H) as (H1 & H2 & H3). repeat split; f_equal; assumption.
Qed.

(** The search ends at a place with nothing above [x] before it and
    nothing but wrappers above [x] after it. *)
Lemma bisect_right_splits (wrappers : list GitSemVer) (x : GitSemVer)
      (a : list GitSemVer) (fuel lo hi : nat) :
  transitive_on wrappers = true ->
  (forall y, In y a -> In y wrappers) -> In x wrappers -> sorted a ->
  (lo <= hi <= length a)%nat -> (hi - lo <= fuel)%nat ->
  Forall (fun y => 0 <= GitSemVer_cmp x y) (firstn lo a) ->
  Forall (fun y => GitSemVer_cmp x y < 0) (skipn hi a) ->
  (bisect_right fuel x a lo hi <= length a)%nat
  /\ Forall (fun y => 0 <= GitSemVer_cmp x y) (firstn (bisect_right fuel x a lo hi) a)
  /\ Forall (fun y => GitSemVer_cmp x y < 0) (skipn (bisect_right fuel x a lo hi) a).
Proof.
  intros Htrans Hin Hx Hsorted. revert lo hi.
  induction fuel as [|fuel IH]; intros lo hi Hb Hfuel Hlo Hhi.
  - simpl. replace hi with lo in Hhi by lia. split; [lia | split; assumption].
  - cbn [bisect_right]. destruct (lo <? hi)%nat eqn:E.
    2:{ apply Nat.ltb_ge in E. replace hi with lo in Hhi by lia.
        split; [lia | split; assumption]. }
    apply Nat.ltb_lt in E.
    assert (Hmid : (lo <= (lo + hi) / 2 < hi)%nat).
    { pose proof (Nat.div_mod_eq (lo + hi) 2).
      pose proof (Nat.mod_upper_bound (lo + hi) 2 ltac:(lia)). lia. }
    set (mid := ((lo + hi) / 2)%nat) in *.
    destruct (nth_error a mid) as [y|] eqn:Ey.
    2:{ apply nth_error_None in Ey. lia. }
    destruct (split_at_index a mid y Ey) as (Ha & Hfirst & Hskip).
    assert (Hy : In y wrappers) by (apply Hin; eapply nth_error_In; exact Ey).
    rewrite Ha in Hsorted. apply sorted_app in Hsorted as (_ & [Hafter _] & Hbefore).
    destruct (GitSemVer_cmp x y <? 0) eqn:Ec.
    + apply Z.ltb_lt in Ec. apply IH; [lia | lia | exact Hlo|].
      rewrite Hskip. constructor; [exact Ec|].
      rewrite Forall_forall in Hafter |- *. intros z Hz.
      assert (Hzw : In z wrappers).
      { apply Hin. rewrite Ha. apply in_or_app. right. right. apply list_elem_of_In, Hz. }
      specialize (Hafter z Hz). unfold below in Hafter.
      destruct (Z_lt_le_dec (GitSemVer_cmp x z) 0) as [Hlt|Hge]; [exact Hlt|].
      exfalso.
      assert (Hzx : below z x) by (unfold below; rewrite cmp_flip; lia).
      pose proof (transitive_on_use wrappers y z x Htrans Hy Hzw Hx Hafter Hzx) as Hyx.
      unfold below in Hyx. rewrite cmp_flip in Hyx. lia.
    + apply Z.ltb_ge in Ec. apply IH; [lia | lia | | exact Hhi].
      rewrite Hfirst. apply Forall_app. split; [|constructor; [exact Ec | constructor]].
      apply Forall_forall. intros z Hz. apply list_elem_of_In in Hz.
      assert (Hzw : In z wrappers).
      { apply Hin. rewrite Ha. apply in_or_app. left. exact Hz. }
      assert (Hzy : below z y) by (apply Hbefore; [exact Hz | left; reflexivity]).
      assert (Hyx : below y x) by (unfold below; rewrite cmp_flip; lia).
      pose proof (transitive_on_use wrappers z y x Htrans Hzw Hy Hx Hzy Hyx) as Hzx.
      unfold below in Hzx. rewrite cmp_flip in Hzx. lia.
Qed.

Lemma insort_permutation (a : list GitSemVer) (x : GitSemVer) : insort a x ≡ₚ x :: a.
Proof.
  unfold insort. set (r := bisect_right (length a) x a 0 (length a)).
  symmetry. etransitivity; [|apply Permutation_middle].
  rewrite take_drop. reflexivity.
Qed.

Lemma insort_sorted (wrappers : list GitSemVer) (a : list GitSemVer) (x : GitSemVer) :
  transitive_on wrappers = true ->
  (forall y, In y a -> In y wrappers) -> In x wrappers -> sorted a ->
  sorted (insort a x).
Proof.
  intros Htrans Hin Hx Hsorted.
  destruct (bisect_right_splits wrappers x a (length a) 0 (length a) Htrans Hin Hx Hsorted)
    as (Hr & Hbefore & Hafter); [lia | lia | constructor | rewrite skipn_all; constructor |].
  unfold insort. set (r := bisect_right (length a) x a 0 (length a)) in *.
  rewrite <- (take_drop r a) in Hsorted.
  apply sorted_app in Hsorted as (Hs1 & Hs2 & H12).
  apply sorted_app. split; [exact Hs1|]. split.
  - split; [|exact Hs2]. eapply Forall_impl; [exact Hafter|].
    intros y Hy. unfold below. simpl in Hy. lia.
  - intros b y Hb [<-|Hy].
    + rewrite Forall_forall in Hbefore. apply list_elem_of_In in Hb.
      specialize (Hbefore b Hb). unfold below. rewrite cmp_flip. simpl in Hbefore. lia.
    + apply H12; assumption.
Qed.

Lemma collect_from_permutation (ver_str : string) (tags : list string)
      (wrappers : list GitSemVer) :
  fold_left (fun wrappers t =>
               match group_1 ver_str t with
               | Some semver_str => insort wrappers (GitSemVer_init t semver_str)
               | None => wrappers
               end) tags wrappers
  ≡ₚ candidates ver_str tags ++ wrappers.
Proof.
  revert wrappers. induction tags as [|t tags IH]; intros wrappers; [reflexivity|].
  cbn [fold_left candidates flat_map]. rewrite IH. fold (candidates ver_str tags).
  destruct (group_1 ver_str t) as [semver_str|]; [|reflexivity].
  rewrite insort_permutation. solve_Permutation.
Qed.

Lemma collect_from_sorted (all : list GitSemVer) (ver_str : string) (tags : list string)
      (wrappers : list GitSemVer) :
  transitive_on all = true ->
  (forall y, In y wrappers -> In y all) ->
  (forall y, In y (candidates ver_str tags) -> In y all) ->
  sorted wrappers ->
  sorted (fold_left (fun wrappers t =>
                       match group_1 ver_str t with
                       | Some semver_str => insort wrappers (GitSemVer_init t semver_str)
                       | None => wrappers
                       end) tags wrappers).
Proof.
  intros Htrans. revert wrappers.
  induction tags as [|t tags IH]; intros wrappers Hw Hc Hs; [exact Hs|].
  cbn [fold_left]. cbn [candidates flat_map] in Hc. fold (candidates ver_str tags) in Hc.
  destruct (group_1 ver_str t) as [semver_str|].
  - apply IH.
    + intros y Hy. apply (Permutation_in _ (insort_permutation _ _)) in Hy.
      destruct Hy as [<-|Hy]; [apply Hc; left; reflexivity | apply Hw, Hy].
    + intros y Hy. apply Hc. right. exact Hy.
    + apply (insort_sorted all); [exact Htrans | exact Hw | | exact Hs].
      apply Hc. left. reflexivity.
  - apply IH; assumption.
Qed.

Lemma candidate_is_a_match (ver_str : string) (tags : list string) (w : GitSemVer) :
  In w (candidates ver_str tags) ->
  In (git_ref w) tags
  /\ exists semver_str, group_1 ver_str (git_ref w) = Some semver_str
                        /\ w = GitSemVer_init (git_ref w) semver_str.
Proof.
  unfold candidates. intros H. apply in_flat_map in H as (t & Ht & Hw).
  destruct (group_1 ver_str t) as [semver_str|] eqn:E; [|contradiction].
  destruct Hw as [<-|[]]. cbn [git_ref GitSemVer_init]. split; [exact Ht|].
  exists semver_str. split; [exact E | reflexivity].
Qed.

(** X20. [latest_tag_matching] returns [None] exactly when no tag
    matches one of the two patterns. Otherwise it returns one of the
    tags that match, in whatever order the tags come; and when
    [GitSemVer.__cmp__] is transitive on the tags that match, no
    matching tag is above the one returned. *)
Theorem latest_tag_matching_gives_a_latest_match (tags : list string) (ver_tuple : Z * Z) :
  (latest_tag_matching tags ver_tuple = None
   <-> candidates (make_ver_str ver_tuple) tags = [])
  /\ forall t,
      latest_tag_matching tags ver_tuple = Some t ->
      In t tags
      /\ exists semver_str,
          group_1 (make_ver_str ver_tuple) t = Some semver_str
          /\ (transitive_on (candidates (make_ver_str ver_tuple) tags) = true ->
              forall w, In w (candidates (make_ver_str ver_tuple) tags) ->
                        GitSemVer_cmp w (GitSemVer_init t semver_str) <= 0).
Proof.
  unfold latest_tag_matching. cbv zeta.
  set (ver_str := make_ver_str ver_tuple).
  pose proof (collect_from_permutation ver_str tags []) as Hperm.
  rewrite app_nil_r in Hperm. fold (collect ver_str tags) in Hperm.
  destruct (List.rev (collect ver_str tags)) as [|latest rest] eqn:Erev.
  - assert (Hnil : collect ver_str tags = []).
    { rewrite <- (rev_involutive (collect ver_str tags)), Erev. reflexivity. }
    rewrite Hnil in Hperm. apply Permutation_nil in Hperm.
    split; [split; [intros _; exact Hperm | reflexivity] | discriminate].
  - assert (Hl : collect ver_str tags = List.rev rest ++ [latest]).
    { rewrite <- (rev_involutive (collect ver_str tags)), Erev. reflexivity. }
    split.
    + split; [discriminate|]. intros Hnil. rewrite Hnil in Hperm.
      symmetry in Hperm. apply Permutation_nil in Hperm. rewrite Hl in Hperm.
      destruct (List.rev rest); discriminate.
    + intros t [= <-].
      assert (Hin : In latest (candidates ver_str tags)).
      { apply (Permutation_in _ Hperm). rewrite Hl. apply in_or_app. right. left.
        reflexivity. }
      destruct (candidate_is_a_match ver_str tags latest Hin)
        as (Htag & semver_str & Hg & Hw).
      split; [exact Htag|]. exists semver_str. split; [exact Hg|].
      intros Htrans w Hwin. rewrite <- Hw.
      pose proof (collect_from_sorted (candidates ver_str tags) ver_str tags []
                    Htrans ltac:(contradiction) ltac:(auto) I) as Hsorted.
      fold (collect ver_str tags) in Hsorted. rewrite Hl in Hsorted.
      apply sorted_app in Hsorted as (_ & _ & Hbelow).
      apply (Permutation_in _ (Permutation_sym Hperm)) in Hwin. rewrite Hl in Hwin.
      apply in_app_or in Hwin as [Hwin|[<-|[]]].
      * apply (Hbelow w latest Hwin). left. reflexivity.
      * pose proof (cmp_flip latest latest). lia.
Qed.

Example some_tags_are_in_order :
  transitive_on (candidates "2.1" some_tags) = true
  /\ map git_ref (candidates "2.1" some_tags)
     = ["cassandra-2.1.9"; "cassandra-2.1.12"; "cassandra-2.1.0-rc1"; "cassandra-2.1.0";
        "2.1.12-tentative"].
Proof. split; vm_compute; reflexivity. Qed.

(** Where the order is not transitive the result depends on the order
    of the tags. The tag [2.1.] is above [2.1.-a] by the rule for tags
    with a dash, [2.1.-a] above [2.1.5] because a word is above a
    number, and [2.1.5] above [2.1.] as the longer version. *)
Example latest_depends_on_the_order :
  latest_tag_matching ["2.1."; "2.1.-a"; "2.1.5"] (2, 1) = Some "2.1.5"
  /\ latest_tag_matching ["2.1.-a"; "2.1.5"; "2.1."] (2, 1) = Some "2.1."
  /\ latest_tag_matching ["2.1.5"; "2.1."; "2.1.-a"] (2, 1) = Some "2.1.-a"
  /\ transitive_on (candidates "2.1" ["2.1.5"; "2.1.-a"; "2.1."]) = false.
Proof. repeat split; vm_compute; reflexivity. Qed.

End LatestTagTheorems.

(** ** Waiting for notifications *)

Module WaiterTheorems.
Import Notifications NotificationTheorems Waiter.

(** Whether [handle_notification] appends the notification: with a
    keyspace set, the notification must have a ['keyspace'] entry that
    is empty or the keyspace of the waiter. *)
Definition kept (keyspace : value) (notification : gmap string value) : bool :=
  if truthy keyspace
  then match notification !! "keyspace" with
       | Some ks => negb (truthy ks && negb (value_eqb keyspace ks))
       | None => false
       end
  else true.

(** The pushes come in the order of their times. *)
Fixpoint in_order (pushes : list (Z * gmap string value)) : bool :=
  match pushes with
  | (t, _) :: rest => forallb (fun p => t <=? fst p) rest && in_order rest
  | [] => true
  end.

Lemma handled_spec (self : NotificationWaiter) (notification : gmap string value) :
  keyspace (handled self notification) = keyspace self
  /\ notifications (handled self notification)
     = notifications self ++ (if kept (keyspace self) notification
                              then [notification] else [])
  /\ event (handled self notification)
     = event self || kept (keyspace self) notification.
Proof.
  unfold handled, handle_notification, kept.
  destruct (truthy (keyspace self)).
  - destruct (notification !! "keyspace") as [ks|].
    + destruct (truthy ks && negb (value_eqb (keyspace self) ks)); simpl;
        rewrite ?app_nil_r, ?orb_true_r, ?orb_false_r; auto.
    + simpl. rewrite app_nil_r, orb_false_r. auto.
  - simpl. rewrite orb_true_r. auto.
Qed.

Lemma in_order_cons (t : Z) (n : gmap string value) (rest : list (Z * gmap string value)) :
  in_order ((t, n) :: rest) = true ->
  Forall (fun p => t <= fst p) rest /\ in_order rest = true.
Proof.
  cbn [in_order]. intros H. apply andb_true_iff in H as [H1 H2]. split; [|exact H2].
  apply Forall_forall. intros p Hp. rewrite forallb_forall in H1.
  apply Z.leb_le, H1, list_elem_of_In, Hp.
Qed.

Lemma deliver_spec (until : Z) (pushes : list (Z * gmap string value))
      (self : NotificationWaiter) :
  in_order pushes = true ->
  exists done,
    pushes = done ++ snd (deliver until self pushes)
    /\ keyspace (fst (deliver until self pushes)) = keyspace self
    /\ notifications (fst (deliver until self pushes))
       = notifications self ++ List.filter (kept (keyspace self)) (map snd done)
    /\ (event self = true -> event (fst (deliver until self pushes)) = true)
    /\ Forall (fun p => fst p <= until) done
    /\ Forall (fun p => until < fst p) (snd (deliver until self pushes))
    /\ in_order (snd (deliver until self pushes)) = true.
Proof.
  revert self. induction pushes as [|[t n] rest IH]; intros self Hord.
  - exists []. simpl. rewrite app_nil_r. repeat split; auto.
  - destruct (in_order_cons t n rest Hord) as [Hall Hrest].
    cbn [deliver]. destruct (t <=? until) eqn:E.
    + apply Z.leb_le in E.
      destruct (IH (handled self n) Hrest) as (done & Hp & Hk & Hn & He & Hd & Hr & Ho).
      destruct (handled_spec self n) as (Hk1 & Hn1 & He1).
      exists ((t, n) :: done). cbn [app map snd List.filter].
      split; [f_equal; exact Hp|]. split; [congruence|].
      split; [|split; [|split; [|split]]]; auto.
      * rewrite Hn, Hn1, Hk1, <- app_assoc.
        destruct (kept (keyspace self) n); reflexivity.
      * intros Hev. apply He. rewrite He1, Hev. reflexivity.
    + apply Z.leb_gt in E. exists []. cbn [app fst snd map List.filter].
      rewrite app_nil_r. repeat split; auto.
      constructor; [exact E|]. eapply Forall_impl; [exact Hall|].
      intros p Hp. simpl in Hp. lia.
Qed.

Lemma wake_up_spec (until now : Z) (pushes : list (Z * gmap string value))
      (self : NotificationWaiter) :
  in_order pushes = true -> Forall (fun p => now <= fst p) pushes -> now <= until ->
  exists done self' now' rest,
    wake_up until self pushes = (self', now', rest)
    /\ pushes = done ++ rest
    /\ keyspace self' = keyspace self
    /\ notifications self'
       = notifications self ++ List.filter (kept (keyspace self)) (map snd done)
    /\ Forall (fun p => fst p <= now') done
    /\ Forall (fun p => now' < fst p) rest
    /\ in_order rest = true
    /\ now <= now' <= until
    /\ (now' = until \/ (length rest < length pushes)%nat).
Proof.
  revert self now. induction pushes as [|[t n] rest IH]; intros self now Hord Hnow Hu.
  - exists [], self, until, []. cbn [wake_up app map List.filter]. rewrite app_nil_r.
    repeat split; auto; lia.
  - destruct (in_order_cons t n rest Hord) as [Hall Hrest].
    apply Forall_cons in Hnow as [Ht Hnow]. cbn [fst] in Ht.
    destruct (handled_spec self n) as (Hk1 & Hn1 & He1).
    cbn [wake_up]. destruct (t <=? until) eqn:E.
    + apply Z.leb_le in E. destruct (event (handled self n)) eqn:Ev.
      * destruct (deliver_spec t rest (handled self n) Hrest)
          as (done & Hp & Hk & Hn & He & Hd & Hr & Ho).
        destruct (deliver t (handled self n) rest) as [self'' rest'].
        cbn [fst snd] in *.
        exists ((t, n) :: done), self'', t, rest'. cbn [app map snd List.filter].
        split; [reflexivity|]. split; [f_equal; exact Hp|]. split; [congruence|].
        split; [rewrite Hn, Hn1, Hk1, <- app_assoc;
                destruct (kept (keyspace self) n); reflexivity|].
        split; [constructor; [simpl; lia | exact Hd]|].
        split; [exact Hr|]. split; [exact Ho|]. split; [lia|].
        right. simpl. rewrite Hp, length_app. lia.
      * destruct (IH (handled self n) t Hrest Hall E)
          as (done & self' & now' & rest' & Hw & Hp & Hk & Hn & Hd & Hr & Ho & Hb & Hprog).
        exists ((t, n) :: done), self', now', rest'. cbn [app map snd List.filter].
        split; [exact Hw|]. split; [f_equal; exact Hp|]. split; [congruence|].
        split; [rewrite Hn, Hn1, Hk1, <- app_assoc;
                destruct (kept (keyspace self) n); reflexivity|].
        split; [constructor; [simpl; lia | exact Hd]|].
        split; [exact Hr|]. split; [exact Ho|]. split; [lia|].
        destruct Hprog as [->|Hlen]; [left; reflexivity | right; simpl; lia].
    + apply Z.leb_gt in E.
      exists [], self, until, ((t, n) :: rest). cbn [app map List.filter].
      rewrite app_nil_r. repeat split; auto; try lia.
      constructor; [exact E|]. eapply Forall_impl; [exact Hall|].
      intros p Hp. simpl in Hp. lia.
Qed.

(** Enough passes, and what the loop leaves. *)
Lemma wait_loop_has_enough_passes (deadline num_notifications : Z) (fuel : nat)
      (self : NotificationWaiter) (now : Z) (pushes : list (Z * gmap string value)) :
  in_order pushes = true -> Forall (fun p => now <= fst p) pushes ->
  (length pushes + (if event self then 1 else 0) < fuel)%nat \/ deadline <= now ->
  exists done self' now' rest,
    wait_loop fuel deadline num_notifications self now pushes = Some (self', now', rest)
    /\ pushes = done ++ rest
    /\ keyspace self' = keyspace self
    /\ notifications self'
       = notifications self ++ List.filter (kept (keyspace self)) (map snd done)
    /\ Forall (fun p => fst p <= now') done
    /\ Forall (fun p => now' <= fst p) rest
    /\ now <= now' <= Z.max now deadline
    /\ (num_notifications <= Z.of_nat (length (notifications self')) \/ deadline <= now').
Proof.
  revert self now pushes.
  induction fuel as [|fuel IH]; intros self now pushes Hord Hnow Hfuel.
  - destruct Hfuel as [Hfuel|Hd]; [lia|].
    exists [], self, now, pushes. cbn [wait_loop].
    destruct (now <? deadline) eqn:E; [apply Z.ltb_lt in E; lia|].
    cbn [app map List.filter]. rewrite app_nil_r. repeat split; auto; lia.
  - cbn [wait_loop]. destruct (now <? deadline) eqn:E.
    2:{ apply Z.ltb_ge in E. exists [], self, now, pushes.
        cbn [app map List.filter]. rewrite app_nil_r. repeat split; auto; lia. }
    apply Z.ltb_lt in E. destruct Hfuel as [Hfuel|Hd]; [|lia].
    unfold event_wait. destruct (event self) eqn:Ev; cbn [orb].
    + (* the event is set: [wait] returns at once *)
      destruct (num_notifications <=? Z.of_nat (length (notifications (event_clear self))))
        eqn:En.
      * apply Z.leb_le in En. exists [], (event_clear self), now, pushes.
        cbn [app map List.filter]. rewrite app_nil_r. repeat split; auto; lia.
      * destruct (IH (event_clear self) now pushes Hord Hnow)
          as (done & self' & now' & rest & Hw & Hp & Hk & Hn & Hd & Hr & Hb & Hend).
        { left. cbn [event_clear event]. lia. }
        exists done, self', now', rest. repeat split; auto; lia.
    + destruct (deadline - now <=? 0) eqn:Et; [apply Z.leb_le in Et; lia|].
      replace (now + (deadline - now)) with deadline by lia.
      destruct (wake_up_spec deadline now pushes self Hord Hnow ltac:(lia))
        as (done1 & self1 & now1 & rest1 & Hw1 & Hp1 & Hk1 & Hn1 & Hd1 & Hr1 & Ho1 & Hb1
            & Hprog).
      rewrite Hw1.
      destruct (num_notifications <=? Z.of_nat (length (notifications (event_clear self1))))
        eqn:En.
      * apply Z.leb_le in En. exists done1, (event_clear self1), now1, rest1.
        cbn [event_clear keyspace notifications] in *.
        repeat split; auto; try lia.
        eapply Forall_impl; [exact Hr1|]. intros p Hp. simpl in Hp. lia.
      * destruct (IH (event_clear self1) now1 rest1 Ho1)
          as (done & self' & now' & rest & Hw & Hp & Hk & Hn & Hd & Hr & Hb & Hend).
        { eapply Forall_impl; [exact Hr1|]. intros p Hp. simpl in Hp. lia. }
        { cbn [event_clear event]. destruct Hprog as [->|Hlen]; [right; lia | left; lia]. }
        cbn [event_clear keyspace notifications] in *.
        exists (done1 ++ done), self', now', rest.
        split; [exact Hw|]. split; [rewrite Hp1, Hp, app_assoc; reflexivity|].
        split; [congruence|].
        split; [rewrite Hn, Hn1, Hk1, map_app, List.filter_app, app_assoc; reflexivity|].
        split; [apply Forall_app; split;
                [eapply Forall_impl; [exact Hd1|]; intros p Hp'; simpl in Hp'; lia
                | exact Hd]|].
        split; [exact Hr|]. split; [lia | exact Hend].
Qed.

(** X21. [wait_for_notifications] never raises and always returns,
    not after the deadline (or at once when the timeout is not
    positive). It returns the list of the waiter: what was in it,
    followed by the notifications handled by then that the keyspace
    filter keeps, in the order they came. When the list is shorter
    than [num_notifications] the deadline has been reached, and every
    push that came before the deadline has been handled: too few
    notifications are reported by a short list, not by an exception. *)
Theorem wait_for_notifications_returns_by_the_deadline (timeout num_notifications : Z)
        (self : NotificationWaiter) (now : Z) (pushes : list (Z * gmap string value)) :
  in_order pushes = true -> Forall (fun p => now <= fst p) pushes ->
  exists done rest self' now',
    wait_for_notifications timeout num_notifications self now pushes
    = Some (notifications self', self', now', rest)
    /\ pushes = done ++ rest
    /\ notifications self'
       = notifications self ++ List.filter (kept (keyspace self)) (map snd done)
    /\ Forall (fun p => fst p <= now') done
    /\ Forall (fun p => now' <= fst p) rest
    /\ now <= now' <= Z.max now (now + timeout)
    /\ (Z.of_nat (length (notifications self')) < num_notifications ->
        now + timeout <= now' /\ Forall (fun p => now + timeout <= fst p) rest).
Proof.
  intros Hord Hnow. unfold wait_for_notifications. cbv zeta.
  destruct (wait_loop_has_enough_passes (now + timeout) num_notifications
              (S (S (length pushes))) self now pushes Hord Hnow)
    as (done & self' & now' & rest & Hw & Hp & Hk & Hn & Hd & Hr & Hb & Hend).
  { left. destruct (event self); lia. }
  rewrite Hw. exists done, rest, self', now'.
  split; [reflexivity|]. split; [exact Hp|]. split; [exact Hn|]. split; [exact Hd|].
  split; [exact Hr|]. split; [exact Hb|].
  intros Hshort. destruct Hend as [Hend|Hend]; [lia|]. split; [exact Hend|].
  eapply Forall_impl; [exact Hr|]. intros p Hp'. simpl in Hp'. lia.
Qed.

(** A waiter for the keyspace [ks]; a table is created elsewhere
    after 1.5 s and in [ks] after 2.5 s. *)
Definition two_pushes : list (Z * gmap string value) :=
  [(1500, created_table "system"); (2500, created_table "ks")].

Example wait_for_one_notification :
  wait_for_notifications 60000 1 (init (VStr "ks")) 0 two_pushes
  = Some ([created_table "ks"], mkWaiter (VStr "ks") [created_table "ks"] false, 2500, [])
  /\ wait_for_notifications 60000 2 (init (VStr "ks")) 0 two_pushes
     = Some ([created_table "ks"], mkWaiter (VStr "ks") [created_table "ks"] false, 60000, [])
  /\ wait_for_notifications 2000 1 (init (VStr "ks")) 0 two_pushes
     = Some ([], mkWaiter (VStr "ks") [] false, 2000, [(2500, created_table "ks")]).
Proof. repeat split; vm_compute; reflexivity. Qed.

Lemma wait_for_notifications_returns_by_the_deadline_witness :
  exists done rest self' now',
    wait_for_notifications 2000 1 (init (VStr "ks")) 0 two_pushes
    = Some (notifications self', self', now', rest)
    /\ two_pushes = done ++ rest
    /\ notifications self'
       = notifications (init (VStr "ks"))
         ++ List.filter (kept (keyspace (init (VStr "ks")))) (map snd done)
    /\ Forall (fun p => fst p <= now') done
    /\ Forall (fun p => now' <= fst p) rest
    /\ 0 <= now' <= Z.max 0 (0 + 2000)
    /\ (Z.of_nat (length (notifications self')) < 1 ->
        0 + 2000 <= now' /\ Forall (fun p => 0 + 2000 <= fst p) rest).
Proof.
  apply (wait_for_notifications_returns_by_the_deadline 2000 1 (init (VStr "ks")) 0
           two_pushes).
  - reflexivity.
  - repeat constructor; simpl; lia.
Defined.

End WaiterTheorems.
